(** * Aura: a shallow embedding of the in-page annotation pipeline

    The development follows the TypeScript sources:

    - [lib/constants.ts] and [types/ethos.ts]: the score tier table and the
      two tier classifiers ([Tiers]);
    - [lib/crypto.ts]: the vault validator ([Crypto]);
    - [lib/ethos-client.ts]: the response cache ([EthosClient]);
    - the content script: patterns and match collection ([Matcher]), the
      DOM, the marker registry, the scoring queue, hover and tooltip
      ([Content]).

    Conventions.  A JavaScript string is a [string]: a sequence of code
    units below 256.  A JavaScript [Map] whose iteration order is observed
    by the code is an association list in insertion order; a [Map] that is
    only read and written by key is a [gmap]; the [WeakSet] of processed
    nodes is a [gset] of node identities.  Scores are integers ([Z]);
    [null] and [undefined] are [None]. *)

From Stdlib Require Import ZArith String Ascii List Bool Lia.
From Stdlib Require Import Sorting.Sorted Sorting.Permutation DecimalString.
From Stdlib Require QArith.
From stdpp Require Import gmap strings list fin_maps.

Import ListNotations.
Set Warnings "-register-all".
Open Scope string_scope.
Open Scope list_scope.
Open Scope Z_scope.

#[local] Arguments String.append : simpl nomatch.

(** ** JavaScript string primitives used by the sources *)

Module JS.

Definition code (c : ascii) : N := N_of_ascii c.

Definition inRange (lo hi c : ascii) : bool :=
  ((code lo <=? code c) && (code c <=? code hi))%N.

(** [String.prototype.toLowerCase] on code units below 256: [A-Z] and the
    Latin-1 capitals (U+00C0..U+00DE without U+00D7) move up by 32. *)
Definition lowerChar (c : ascii) : ascii :=
  let n := code c in
  if ((65 <=? n) && (n <=? 90))%N then ascii_of_N (n + 32)
  else if ((192 <=? n) && (n <=? 222) && negb (n =? 215))%N
       then ascii_of_N (n + 32)
  else c.

(** The upper-case partner of an ASCII letter, as [Canonicalize] computes it
    for a regular expression with the [i] flag and without the [u] flag: a
    code unit of 128 or more is never mapped below 128. *)
Definition upperAscii (c : ascii) : ascii :=
  let n := code c in
  if ((97 <=? n) && (n <=? 122))%N then ascii_of_N (n - 32) else c.

Fixpoint toLowerCase (s : string) : string :=
  match s with
  | EmptyString => EmptyString
  | String c s' => String (lowerChar c) (toLowerCase s')
  end.

(** White space of [String.prototype.trim] among code units below 256. *)
Definition isWhiteSpace (c : ascii) : bool :=
  let n := code c in
  (((9 <=? n) && (n <=? 13)) || (n =? 32) || (n =? 160))%N.

(** [!text.trim()]: the text is empty or white space only. *)
Fixpoint isBlank (s : string) : bool :=
  match s with
  | EmptyString => true
  | String c s' => isWhiteSpace c && isBlank s'
  end.

Definition chars (s : string) : list ascii := list_ascii_of_string s.
Definition ofChars (l : list ascii) : string := string_of_list_ascii l.

(** [s.slice(a)] and [s.slice(a, b)] for non-negative [a], [b]. *)
Definition sliceFrom (s : string) (a : nat) : string :=
  ofChars (skipn a (chars s)).
Definition slice (s : string) (a b : nat) : string :=
  ofChars (firstn (b - a) (skipn a (chars s))).

(** [s.slice(-k)] for [k] no larger than the length. *)
Definition sliceLast (s : string) (k : nat) : string :=
  sliceFrom s (String.length s - k).

(** [s.replace(/c/g, r)] for a one-character pattern. *)
Fixpoint replaceAll (c : ascii) (r : string) (s : string) : string :=
  match s with
  | EmptyString => EmptyString
  | String d s' =>
      if Ascii.eqb d c then (r ++ replaceAll c r s')%string
      else String d (replaceAll c r s')
  end.

(** Truthiness of a string: the empty string is falsy. *)
Definition truthy (s : string) : bool :=
  match s with EmptyString => false | _ => true end.

(** [a || b] on optional strings, where [undefined] and the empty string
    are both falsy. *)
Definition orElse (a b : option string) : option string :=
  match a with
  | Some s => if truthy s then Some s else b
  | None => b
  end.

(** [x || undefined] *)
Definition orUndefined (a : option string) : option string :=
  match a with
  | Some s => if truthy s then Some s else None
  | None => None
  end.

End JS.

(** ** Score tiers: [lib/constants.ts] and [getScoreTier] of [types/ethos.ts] *)

Module Tiers.

Record ScoreTier := mkTier {
  name : string;
  min : Z;
  max : option Z;          (* [None] is [Infinity] *)
  color : string;
  label : string
}.

Definition SCORE_TIERS : list ScoreTier :=
  [ mkTier "untrusted" 0 (Some 799) "#F2B8B5" "UNTRUSTED";
    mkTier "questionable" 800 (Some 999) "#FFB4AB" "QUESTIONABLE";
    mkTier "neutral" 1000 (Some 1199) "#938F99" "NEUTRAL";
    mkTier "known" 1200 (Some 1399) "#CCC2DC" "KNOWN";
    mkTier "established" 1400 (Some 1599) "#D0BCFF" "ESTABLISHED";
    mkTier "reputable" 1600 (Some 1799) "#B8C4FF" "REPUTABLE";
    mkTier "exemplary" 1800 (Some 1999) "#7DD3FC" "EXEMPLARY";
    mkTier "distinguished" 2000 (Some 2199) "#4ADE80" "DISTINGUISHED";
    mkTier "revered" 2200 (Some 2399) "#C084FC" "REVERED";
    mkTier "renowned" 2400 None "#A78BFA" "RENOWNED" ].

Definition UNSCORED_COLOR : string := "#71717A".

(** [SCORE_TIERS[0]] *)
Definition firstTier : ScoreTier :=
  mkTier "untrusted" 0 (Some 799) "#F2B8B5" "UNTRUSTED".

(** [score >= t.min && score <= t.max] *)
Definition inTier (score : Z) (t : ScoreTier) : bool :=
  (min t <=? score) &&
  match max t with Some m => score <=? m | None => true end.

(** [getTierForScore]: [null] for a [null] score, otherwise the first row
    that contains the score, or the first row of the table when none does. *)
Definition getTierForScore (score : option Z) : option ScoreTier :=
  match score with
  | None => None
  | Some s =>
      match List.find (inTier s) SCORE_TIERS with
      | Some t => Some t
      | None => Some firstTier
      end
  end.

Definition getScoreColor (score : option Z) : string :=
  match getTierForScore score with
  | Some t => color t
  | None => UNSCORED_COLOR
  end.

Definition getScoreLabel (score : option Z) : string :=
  match getTierForScore score with
  | Some t => label t
  | None => "UNSCORED"
  end.

(** [tier ? tier.name : 'unscored'], the way every caller of
    [getTierForScore] names the result. *)
Definition tierName (t : option ScoreTier) : string :=
  match t with
  | Some t => name t
  | None => "unscored"
  end.

(** [getScoreTier] of [types/ethos.ts]: the cascade of comparisons. *)
Definition getScoreTier (score : option Z) : string :=
  match score with
  | None => "unscored"
  | Some s =>
      if s >=? 2400 then "renowned"
      else if s >=? 2200 then "revered"
      else if s >=? 2000 then "distinguished"
      else if s >=? 1800 then "exemplary"
      else if s >=? 1600 then "reputable"
      else if s >=? 1400 then "established"
      else if s >=? 1200 then "known"
      else if s >=? 1000 then "neutral"
      else if s >=? 800 then "questionable"
      else "untrusted"
  end.

End Tiers.

(** ** Insertion-ordered maps: the JavaScript [Map] where order is observed *)

Module OMap.
Section Ops.
Context {V : Type}.

Fixpoint get (k : string) (m : list (string * V)) : option V :=
  match m with
  | [] => None
  | (k', v) :: m' => if String.eqb k' k then Some v else get k m'
  end.

Definition has (k : string) (m : list (string * V)) : bool :=
  match get k m with Some _ => true | None => false end.

(** [Map.prototype.set]: an existing key keeps its place, a new key goes
    last. *)
Fixpoint set (k : string) (v : V) (m : list (string * V)) : list (string * V) :=
  match m with
  | [] => [(k, v)]
  | (k', v') :: m' =>
      if String.eqb k' k then (k, v) :: m' else (k', v') :: set k v m'
  end.

Fixpoint delete (k : string) (m : list (string * V)) : list (string * V) :=
  match m with
  | [] => []
  | (k', v') :: m' =>
      if String.eqb k' k then m' else (k', v') :: delete k m'
  end.

Definition size (m : list (string * V)) : nat := length m.

Definition keys (m : list (string * V)) : list string := map fst m.

(** The keys of a [Map] are pairwise distinct. *)
Definition wf (m : list (string * V)) : Prop := List.NoDup (keys m).

(** The entry has the key [k]. *)
Definition keyIs (k : string) (kv : string * V) : bool := String.eqb (fst kv) k.

End Ops.
End OMap.

(** ** The response cache: [lib/ethos-client.ts] *)

Module EthosClient.
Section Cache.
Context {T : Type}.

Record CacheEntry := mkEntry { data : T; expiresAt : Z }.

Definition TTL_score : Z := 300000.
Definition TTL_user : Z := 600000.

(** [getFromCache] at time [now]: the value, if any, and the cache after
    the lazy deletion of an expired entry. *)
Definition getFromCache (now : Z) (key : string)
    (cache : list (string * CacheEntry)) : option T * list (string * CacheEntry) :=
  match OMap.get key cache with
  | None => (None, cache)
  | Some entry =>
      if now >? expiresAt entry then (None, OMap.delete key cache)
      else (Some (data entry), cache)
  end.

(** [for (const [k, v] of cache.entries()) if (now > v.expiresAt)
    cache.delete(k)], over the entries [es] still to visit. *)
Fixpoint deleteExpired (now : Z) (es : list (string * CacheEntry))
    (cache : list (string * CacheEntry)) : list (string * CacheEntry) :=
  match es with
  | [] => cache
  | (k, v) :: es' =>
      deleteExpired now es'
        (if now >? expiresAt v then OMap.delete k cache else cache)
  end.

(** [Array.prototype.sort] with the comparator
    [(a, b) => a[1].expiresAt - b[1].expiresAt]: a stable sort. *)
Fixpoint insertByExpiry (x : string * CacheEntry)
    (l : list (string * CacheEntry)) : list (string * CacheEntry) :=
  match l with
  | [] => [x]
  | y :: l' =>
      if expiresAt (snd x) <=? expiresAt (snd y) then x :: y :: l'
      else y :: insertByExpiry x l'
  end.

Definition sortByExpiry (l : list (string * CacheEntry))
  : list (string * CacheEntry) :=
  fold_right insertByExpiry [] l.

(** [for (const [k] of victims) cache.delete(k)] *)
Definition deleteKeys (victims : list (string * CacheEntry))
    (cache : list (string * CacheEntry)) : list (string * CacheEntry) :=
  fold_left (fun c kv => OMap.delete (fst kv) c) victims cache.

(** The clean-up of [setCache], entered only when [cache.size > 500]. *)
Definition cleanup (now : Z) (cache : list (string * CacheEntry))
  : list (string * CacheEntry) :=
  if (500 <? OMap.size cache)%nat then
    let cache1 := deleteExpired now cache cache in
    if (500 <? OMap.size cache1)%nat then
      let sorted := sortByExpiry cache1 in
      deleteKeys (firstn (OMap.size cache1 - 500) sorted) cache1
    else cache1
  else cache.

(** [setCache(key, data, ttl)]; [now] is the clock read by the clean-up and
    [now'] the clock read when the entry is stored. *)
Definition setCache (now now' : Z) (key : string) (d : T) (ttl : Z)
    (cache : list (string * CacheEntry)) : list (string * CacheEntry) :=
  OMap.set key (mkEntry d (now' + ttl)) (cleanup now cache).

Definition clearCache (cache : list (string * CacheEntry))
  : list (string * CacheEntry) := [].

(** Vocabulary of the statements: an entry not yet expired at [now]; an
    entry whose key is among [ks]; the order of the eviction. *)
Definition live (now : Z) (kv : string * CacheEntry) : bool :=
  negb (now >? expiresAt (snd kv)).

Definition inKeys (ks : list string) (kv : string * CacheEntry) : bool :=
  existsb (String.eqb (fst kv)) ks.

Definition expiresNoLater (a b : string * CacheEntry) : Prop :=
  expiresAt (snd a) <= expiresAt (snd b).

End Cache.
Arguments CacheEntry : clear implicits.
End EthosClient.

(** ** The identifier matcher: [PATTERNS] and the match collection of
    [processTextNode] *)

Module Matcher.

(** *** The fragment of regular expressions the patterns are written in *)

Inductive Atom :=
| WordBoundary                                    (* [\b] *)
| Lit (c : ascii)                                 (* one literal character *)
| Class (ranges : list (ascii * ascii)) (lo : nat) (hi : option nat).
                                  (* [[...]{lo,hi}], greedy; [{lo,}] is [None] *)

Record RegExp := mkRegExp { source : list Atom; ignoreCase : bool }.

Definition lowerAscii (c : ascii) : ascii :=
  let n := JS.code c in
  if ((65 <=? n) && (n <=? 90))%N then ascii_of_N (n + 32) else c.

(** [\w] without the [u] flag: [[A-Za-z0-9_]]. *)
Definition isWordChar (c : ascii) : bool :=
  JS.inRange "a" "z" c || JS.inRange "A" "Z" c || JS.inRange "0" "9" c
  || Ascii.eqb c "_".

Definition isWordAt (c : option ascii) : bool :=
  match c with Some c => isWordChar c | None => false end.

Definition canon (ci : bool) (c : ascii) : ascii :=
  if ci then JS.upperAscii c else c.

Definition matchLit (ci : bool) (l c : ascii) : bool :=
  Ascii.eqb (canon ci l) (canon ci c).

Definition inClass (ci : bool) (ranges : list (ascii * ascii)) (c : ascii) : bool :=
  existsb (fun r =>
             JS.inRange (fst r) (snd r) c
             || (ci && (JS.inRange (fst r) (snd r) (JS.upperAscii c)
                        || JS.inRange (fst r) (snd r) (lowerAscii c))))
          ranges.

Definition belowMax (count : nat) (hi : option nat) : bool :=
  match hi with Some h => (count <? h)%nat | None => true end.

(** Backtracking match of a sequence of atoms at the head of [inp], where
    [prev] is the character before it: the length of the match.  A counted
    class takes as many characters as it can and gives them back one by one
    when the rest fails. *)
Fixpoint matchAtoms (ci : bool) (atoms : list Atom)
  : option ascii -> list ascii -> option nat :=
  match atoms with
  | [] => fun _ _ => Some 0%nat
  | a :: rest =>
      let k := matchAtoms ci rest in
      match a with
      | WordBoundary => fun prev inp =>
          if xorb (isWordAt prev) (isWordAt (head inp)) then k prev inp
          else None
      | Lit l => fun prev inp =>
          match inp with
          | c :: inp' =>
              if matchLit ci l c then option_map S (k (Some c) inp') else None
          | [] => None
          end
      | Class ranges lo hi =>
          (fix rep (count : nat) (prev : option ascii) (inp : list ascii)
               {struct inp} : option nat :=
             let stop := if (lo <=? count)%nat then k prev inp else None in
             match inp with
             | c :: inp' =>
                 if inClass ci ranges c && belowMax count hi then
                   match rep (S count) (Some c) inp' with
                   | Some n => Some (S n)
                   | None => stop
                   end
                 else stop
             | [] => stop
             end) 0%nat
      end
  end.

(** The loop [while ((match = re.exec(text)) !== null)] of a global
    regular expression: every match as (index, length), left to right,
    each search resuming at the end of the previous match.  [skip]
    characters are still inside the last match.  (An empty match, on which
    the loop of the source would not advance, is stepped over; the three
    patterns have none.) *)
Fixpoint execLoop (re : RegExp) (prev : option ascii) (inp : list ascii)
    (pos skip : nat) : list (nat * nat) :=
  match skip with
  | S skip' =>
      match inp with
      | [] => []
      | c :: inp' => execLoop re (Some c) inp' (S pos) skip'
      end
  | O =>
      match matchAtoms (ignoreCase re) (source re) prev inp with
      | Some n =>
          (pos, n) ::
          match inp with
          | [] => []
          | c :: inp' => execLoop re (Some c) inp' (S pos) (Nat.pred n)
          end
      | None =>
          match inp with
          | [] => []
          | c :: inp' => execLoop re (Some c) inp' (S pos) 0%nat
          end
      end
  end.

(** Every [(match.index, match[0])] of the loop. *)
Definition execAll (re : RegExp) (text : string) : list (nat * string) :=
  map (fun m => (fst m, JS.slice text (fst m) (fst m + snd m)))
      (execLoop re None (JS.chars text) 0 0).

(** *** [PATTERNS] *)

Definition hexDigit : list (ascii * ascii) :=
  [("a", "f"); ("A", "F"); ("0", "9")]%char.
Definition alnum : list (ascii * ascii) :=
  [("a", "z"); ("A", "Z"); ("0", "9")]%char.
Definition alnumDash : list (ascii * ascii) :=
  [("a", "z"); ("A", "Z"); ("0", "9"); ("-", "-")]%char.

Definition lits (s : string) : list Atom := map Lit (JS.chars s).

(** [/0x[a-fA-F0-9]{40}/] *)
Definition ethAddress : list Atom :=
  lits "0x" ++ [Class hexDigit 40 (Some 40%nat)].

(** [/\b[a-zA-Z0-9][a-zA-Z0-9-]{0,}\.base\.eth\b/] *)
Definition baseName : list Atom :=
  [WordBoundary; Class alnum 1 (Some 1%nat); Class alnumDash 0 None]
  ++ lits ".base.eth" ++ [WordBoundary].

(** [/\b[a-zA-Z0-9][a-zA-Z0-9-]{2,}\.eth\b/] *)
Definition ensName : list Atom :=
  [WordBoundary; Class alnum 1 (Some 1%nat); Class alnumDash 2 None]
  ++ lits ".eth" ++ [WordBoundary].

(** [new RegExp(PATTERNS.ethAddress.source, 'g')] and the two
    [new RegExp(..., 'gi')]. *)
Definition ethRegex : RegExp := mkRegExp ethAddress false.
Definition baseRegex : RegExp := mkRegExp baseName true.
Definition ensRegex : RegExp := mkRegExp ensName true.

(** *** Matches *)

Inductive IdType := eth | ens | base.

Record Match := mkMatch { text : string; index : nat; type : IdType }.

(** [s.endsWith(suffix)] *)
Definition endsWith (s suffix : string) : bool :=
  (String.length suffix <=? String.length s)%nat
  && String.eqb (JS.sliceLast s (String.length suffix)) suffix.

(** The test of the ENS loop, for the candidate [(i, t)] against an
    accepted match [m]:
    [(match.index >= m.index && match.index < m.index + m.text.length) ||
     (m.index >= match.index && m.index < match.index + match[0].length)] *)
Definition overlaps (i : nat) (t : string) (m : Match) : bool :=
  ((index m <=? i) && (i <? index m + String.length (text m)))%nat
  || ((i <=? index m) && (index m <? i + String.length t))%nat.

(** One turn of the ENS loop. *)
Definition ensStep (matches : list Match) (c : nat * string) : list Match :=
  if endsWith (snd c) ".base.eth" then matches
  else if existsb (overlaps (fst c) (snd c)) matches then matches
  else matches ++ [mkMatch (snd c) (fst c) ens].

(** The three loops that fill [matches]. *)
Definition collectMatches (txt : string) : list Match :=
  let ethMatches := map (fun c => mkMatch (snd c) (fst c) eth) (execAll ethRegex txt) in
  let baseMatches := map (fun c => mkMatch (snd c) (fst c) base) (execAll baseRegex txt) in
  fold_left ensStep (execAll ensRegex txt) (ethMatches ++ baseMatches).

(** [matches.sort((a, b) => b.index - a.index)]: stable, by decreasing
    index. *)
Fixpoint insertByIndexDesc (x : Match) (l : list Match) : list Match :=
  match l with
  | [] => [x]
  | y :: l' =>
      if (index y <=? index x)%nat then x :: y :: l'
      else y :: insertByIndexDesc x l'
  end.

Definition sortMatches (l : list Match) : list Match :=
  fold_right insertByIndexDesc [] l.

(** The span of a match and the overlap of two spans. *)
Definition spanEnd (m : Match) : nat := (index m + String.length (text m))%nat.

Definition spansOverlap (a b : Match) : Prop :=
  (index a < spanEnd b /\ index b < spanEnd a)%nat.

(** Two accepted matches may overlap only as an address followed, in the
    list, by a basename. *)
Definition onlyEthBase (a b : Match) : Prop :=
  spansOverlap a b -> type a = eth /\ type b = base.

(** The least number of characters a sequence of atoms takes. *)
Fixpoint minLen (atoms : list Atom) : nat :=
  match atoms with
  | [] => 0
  | WordBoundary :: rest => minLen rest
  | Lit _ :: rest => S (minLen rest)
  | Class _ lo _ :: rest => lo + minLen rest
  end.

End Matcher.

(** ** HTML escaping and the document tree of the content script *)

Module Dom.

(** [escapeHtml]: five global replacements, the ampersand first. *)
Definition escapeHtml (text : string) : string :=
  JS.replaceAll "'" "&#039;"
    (JS.replaceAll "034" "&quot;"
       (JS.replaceAll ">" "&gt;"
          (JS.replaceAll "<" "&lt;"
             (JS.replaceAll "&" "&amp;" text)))).

(** A node carries its identity: the script holds references to nodes (in
    [processedNodes], in the marker registry, in the pending queue). *)
Inductive Node :=
| TextNode (nid : nat) (textContent : string)
| Element (nid : nat) (tagName : string) (className : string)
          (isContentEditable : bool) (children : list Node).

Definition nodeId (n : Node) : nat :=
  match n with
  | TextNode i _ => i
  | Element i _ _ _ _ => i
  end.

(** What [processTextNode] reads of [node.parentNode]. *)
Record Parent := mkParent {
  p_id : nat;
  p_tagName : string;
  p_className : string;
  p_isContentEditable : bool
}.

(** [root.contains(el)] *)
Fixpoint contains (id : nat) (n : Node) : bool :=
  match n with
  | TextNode i _ => Nat.eqb i id
  | Element i _ _ _ kids =>
      Nat.eqb i id
      || (fix any (l : list Node) : bool :=
            match l with
            | [] => false
            | k :: l' => contains id k || any l'
            end) kids
  end.

(** The text node [id] below [n], with its text and its parent. *)
Fixpoint findText (id : nat) (parent : option Parent) (n : Node)
  : option (string * option Parent) :=
  match n with
  | TextNode i t => if Nat.eqb i id then Some (t, parent) else None
  | Element i tag cls ce kids =>
      (fix first (l : list Node) : option (string * option Parent) :=
         match l with
         | [] => None
         | k :: l' =>
             match findText id (Some (mkParent i tag cls ce)) k with
             | Some r => Some r
             | None => first l'
             end
         end) kids
  end.

(** The element [id] at or below [n]. *)
Fixpoint findElement (id : nat) (n : Node) : option Node :=
  match n with
  | TextNode _ _ => None
  | Element i _ _ _ kids =>
      if Nat.eqb i id then Some n
      else (fix first (l : list Node) : option Node :=
              match l with
              | [] => None
              | k :: l' =>
                  match findElement id k with
                  | Some r => Some r
                  | None => first l'
                  end
              end) kids
  end.

(** [parent.replaceChild(fragment, node)] for the text node [id]: the
    children of the fragment take its place. *)
Fixpoint replaceText (id : nat) (frags : list Node) (n : Node) : Node :=
  match n with
  | TextNode _ _ => n
  | Element i tag cls ce kids =>
      Element i tag cls ce
        ((fix each (l : list Node) : list Node :=
            match l with
            | [] => []
            | TextNode j t :: l' =>
                if Nat.eqb j id then frags ++ l'
                else TextNode j t :: each l'
            | k :: l' => replaceText id frags k :: each l'
            end) kids)
  end.

(** [el.className = cls] for the element [id]. *)
Fixpoint setClassName (id : nat) (cls : string) (n : Node) : Node :=
  match n with
  | TextNode _ _ => n
  | Element i tag c ce kids =>
      Element i tag (if Nat.eqb i id then cls else c) ce
        (map (setClassName id cls) kids)
  end.

Definition skippedTags : list string :=
  ["script"; "style"; "textarea"; "input"; "noscript"].

Definition isSkippedTag (tagName : string) : bool :=
  existsb (String.eqb (JS.toLowerCase tagName)) skippedTags.

(** ASCII white space of the HTML standard: tab, line feed, form feed,
    carriage return, space. *)
Definition isAsciiWhitespace (c : ascii) : bool :=
  let n := JS.code c in
  ((n =? 9) || (n =? 10) || (n =? 12) || (n =? 13) || (n =? 32))%N.

(** The tokens of a [class] attribute, split at ASCII white space. *)
Fixpoint tokens (cur : string) (s : string) : list string :=
  match s with
  | EmptyString => if JS.truthy cur then [cur] else []
  | String c s' =>
      if isAsciiWhitespace c
      then (if JS.truthy cur then [cur] else []) ++ tokens EmptyString s'
      else tokens (cur ++ String c EmptyString)%string s'
  end.

(** [el.classList.contains(token)] *)
Definition classListContains (className token : string) : bool :=
  existsb (String.eqb token) (tokens EmptyString className).

(** The nodes the [TreeWalker] of [scanDOM] returns below the element [n]:
    text nodes in document order whose text is not blank and whose parent is
    not a skipped tag. *)
Fixpoint walkText (n : Node) : list nat :=
  match n with
  | TextNode _ _ => []
  | Element _ tag _ _ kids =>
      (fix each (l : list Node) : list nat :=
         match l with
         | [] => []
         | TextNode j t :: l' =>
             (if negb (JS.isBlank t) && negb (isSkippedTag tag)
              then [j] else []) ++ each l'
         | k :: l' => walkText k ++ each l'
         end) kids
  end.

(** The marker elements below a node: elements with the class
    [aura-target]. *)
Fixpoint markers (n : Node) : list nat :=
  match n with
  | TextNode _ _ => []
  | Element i _ cls _ kids =>
      (if classListContains cls "aura-target" then [i] else [])
      ++ flat_map markers kids
  end.

(** The text a node renders ([textContent]). *)
Fixpoint textOf (n : Node) : string :=
  match n with
  | TextNode _ t => t
  | Element _ _ _ _ kids =>
      fold_right (fun k acc => (textOf k ++ acc)%string) EmptyString kids
  end.

(** The document: [document.body] and the subtrees that have left it (or
    never entered it) while the script still refers to their nodes. *)
Record Document := mkDocument { body : Node; detached : list Node }.

Definition firstSome {A B : Type} (f : A -> option B) (l : list A) : option B :=
  fold_right (fun x acc => match f x with Some r => Some r | None => acc end)
             None l.

Definition roots (d : Document) : list Node := body d :: detached d.

Definition docFindText (id : nat) (d : Document) : option (string * option Parent) :=
  firstSome (findText id None) (roots d).

Definition docFindElement (id : nat) (d : Document) : option Node :=
  firstSome (findElement id) (roots d).

Definition docReplaceText (id : nat) (frags : list Node) (d : Document) : Document :=
  mkDocument (replaceText id frags (body d))
             (map (replaceText id frags) (detached d)).

Definition docSetClassName (id : nat) (cls : string) (d : Document) : Document :=
  mkDocument (setClassName id cls (body d))
             (map (setClassName id cls) (detached d)).

(** [document.body.contains(el)] *)
Definition attached (d : Document) (id : nat) : bool := contains id (body d).

(** The entity [escapeHtml] writes for a character, and the escaping
    stated character by character. *)
Definition entityOf (c : ascii) : string :=
  if Ascii.eqb c "&" then "&amp;"
  else if Ascii.eqb c "<" then "&lt;"
  else if Ascii.eqb c ">" then "&gt;"
  else if Ascii.eqb c "034" then "&quot;"
  else if Ascii.eqb c "'" then "&#039;"
  else String c EmptyString.

Fixpoint escapeEach (s : string) : string :=
  match s with
  | EmptyString => EmptyString
  | String c s' => (entityOf c ++ escapeEach s')%string
  end.

Definition occurs (c : ascii) (s : string) : Prop := In c (JS.chars s).

(** The characters that open a tag or close an attribute value. *)
Definition unsafeChar (c : ascii) : bool :=
  Ascii.eqb c "<" || Ascii.eqb c ">" || Ascii.eqb c "034" || Ascii.eqb c "'".

(** The class of an element node. *)
Definition classOf (n : Node) : option string :=
  match n with
  | TextNode _ _ => None
  | Element _ _ cls _ _ => Some cls
  end.

End Dom.

(** ** The content script: shared state, scoring queue, annotation,
    reconciliation, hover *)

Module Content.
Import Dom.

(** *** Data *)

Record IdentifierInfo := mkInfo {
  identifier : string;
  type : Matcher.IdType;
  score : option Z;
  tier : string;
  resolvedAddress : option string;
  ethosName : option string;
  avatarUrl : option string;
  fetched : bool                       (* [undefined] is [false] *)
}.

(** An entry of [scoreQueue]. *)
Record QItem := mkItem { q_identifier : string; q_type : Matcher.IdType }.

Record ScoreResponse := mkScoreResponse { sr_score : Z }.

Record UserResponse := mkUser {
  u_displayName : option string;
  u_username : option string;
  u_avatarUrl : option string;
  u_score : option Z
}.

(** What the open tooltip shows: the values [showTooltip] interpolates
    into [tooltip.innerHTML]. *)
Record TooltipContent := mkContent {
  tc_primary : string;                 (* [--aura-primary] *)
  tc_scoreDisplay : option Z;          (* [None] is the dash *)
  tc_tierLabel : string;
  tc_title : string;                   (* [escapedName] *)
  tc_subtitle : option string;         (* [escapedSubtitle] *)
  tc_titleAttr : string;               (* [escapedId], in [title="..."] *)
  tc_avatar : option string;           (* [avatarUrl], in [src="..."] *)
  tc_noteAddress : string;             (* in [data-address="..."] *)
  tc_noteSection : bool;               (* [hasVaultSession] *)
  tc_vaultSetup : bool                 (* [hasVaultSetup] *)
}.

Inductive TooltipView :=
| ViewEmpty
| ViewLoading (shortId : string)
| ViewFull (c : TooltipContent).

Inductive Callback := CbProcessScoreQueue | CbHide | CbProcessPendingNodes.

Record Timer := mkTimer { t_id : nat; t_due : Z; t_cb : Callback }.

(** Timers, the clock and the pending animation-frame callbacks (each the
    list of text nodes a [processBatch] still has to visit). *)
Record Sched := mkSched {
  timers : list Timer;
  nextTimer : nat;
  clock : Z;
  frames : list (list nat)
}.

Record Hover := mkHover {
  currentHover : option (nat * string);    (* element, identifier *)
  isTooltipHovered : bool;
  isTargetHovered : bool;
  hideTimeout : option nat;
  view : TooltipView;
  visible : bool;
  anchor : option nat                       (* the element the tooltip sits at *)
}.

(** A call to a collaborator, tagged with the key of the queue item it is
    made for. *)
Inductive CallKind := CallResolve | CallScore | CallUser.
Record Call := mkCall { c_key : string; c_kind : CallKind; c_arg : string }.

Record State := mkState {
  doc : Document;
  nextNode : nat;
  processedNodes : gset nat;
  identifierData : gmap string IdentifierInfo;
  targetElements : list (string * list nat);
  scoreQueue : list QItem;
  scoreTimeout : option nat;
  sched : Sched;
  hover : Hover;
  overlayRoot : bool;
  vaultSessionKey : option string;
  hasVaultSetup : bool;                 (* a validator is in sync storage *)
  pendingNodes : list nat;
  observerTimeout : option nat;
  calls : list Call
}.

Definition set_doc (f : Document -> Document) (s : State) : State :=
  mkState (f (doc s)) (nextNode s) (processedNodes s) (identifierData s)
    (targetElements s) (scoreQueue s) (scoreTimeout s) (sched s) (hover s)
    (overlayRoot s) (vaultSessionKey s) (hasVaultSetup s) (pendingNodes s)
    (observerTimeout s) (calls s).

Definition set_nextNode (n : nat) (s : State) : State :=
  mkState (doc s) n (processedNodes s) (identifierData s)
    (targetElements s) (scoreQueue s) (scoreTimeout s) (sched s) (hover s)
    (overlayRoot s) (vaultSessionKey s) (hasVaultSetup s) (pendingNodes s)
    (observerTimeout s) (calls s).

Definition set_processedNodes (f : gset nat -> gset nat) (s : State) : State :=
  mkState (doc s) (nextNode s) (f (processedNodes s)) (identifierData s)
    (targetElements s) (scoreQueue s) (scoreTimeout s) (sched s) (hover s)
    (overlayRoot s) (vaultSessionKey s) (hasVaultSetup s) (pendingNodes s)
    (observerTimeout s) (calls s).

Definition set_identifierData
    (f : gmap string IdentifierInfo -> gmap string IdentifierInfo)
    (s : State) : State :=
  mkState (doc s) (nextNode s) (processedNodes s) (f (identifierData s))
    (targetElements s) (scoreQueue s) (scoreTimeout s) (sched s) (hover s)
    (overlayRoot s) (vaultSessionKey s) (hasVaultSetup s) (pendingNodes s)
    (observerTimeout s) (calls s).

Definition set_targetElements
    (f : list (string * list nat) -> list (string * list nat))
    (s : State) : State :=
  mkState (doc s) (nextNode s) (processedNodes s) (identifierData s)
    (f (targetElements s)) (scoreQueue s) (scoreTimeout s) (sched s) (hover s)
    (overlayRoot s) (vaultSessionKey s) (hasVaultSetup s) (pendingNodes s)
    (observerTimeout s) (calls s).

Definition set_scoreQueue (f : list QItem -> list QItem) (s : State) : State :=
  mkState (doc s) (nextNode s) (processedNodes s) (identifierData s)
    (targetElements s) (f (scoreQueue s)) (scoreTimeout s) (sched s) (hover s)
    (overlayRoot s) (vaultSessionKey s) (hasVaultSetup s) (pendingNodes s)
    (observerTimeout s) (calls s).

Definition set_scoreTimeout (h : option nat) (s : State) : State :=
  mkState (doc s) (nextNode s) (processedNodes s) (identifierData s)
    (targetElements s) (scoreQueue s) h (sched s) (hover s)
    (overlayRoot s) (vaultSessionKey s) (hasVaultSetup s) (pendingNodes s)
    (observerTimeout s) (calls s).

Definition set_sched (f : Sched -> Sched) (s : State) : State :=
  mkState (doc s) (nextNode s) (processedNodes s) (identifierData s)
    (targetElements s) (scoreQueue s) (scoreTimeout s) (f (sched s)) (hover s)
    (overlayRoot s) (vaultSessionKey s) (hasVaultSetup s) (pendingNodes s)
    (observerTimeout s) (calls s).

Definition set_hover (f : Hover -> Hover) (s : State) : State :=
  mkState (doc s) (nextNode s) (processedNodes s) (identifierData s)
    (targetElements s) (scoreQueue s) (scoreTimeout s) (sched s) (f (hover s))
    (overlayRoot s) (vaultSessionKey s) (hasVaultSetup s) (pendingNodes s)
    (observerTimeout s) (calls s).

Definition set_pendingNodes (f : list nat -> list nat) (s : State) : State :=
  mkState (doc s) (nextNode s) (processedNodes s) (identifierData s)
    (targetElements s) (scoreQueue s) (scoreTimeout s) (sched s) (hover s)
    (overlayRoot s) (vaultSessionKey s) (hasVaultSetup s) (f (pendingNodes s))
    (observerTimeout s) (calls s).

Definition set_observerTimeout (h : option nat) (s : State) : State :=
  mkState (doc s) (nextNode s) (processedNodes s) (identifierData s)
    (targetElements s) (scoreQueue s) (scoreTimeout s) (sched s) (hover s)
    (overlayRoot s) (vaultSessionKey s) (hasVaultSetup s) (pendingNodes s)
    h (calls s).

Definition set_vaultSessionKey (k : option string) (s : State) : State :=
  mkState (doc s) (nextNode s) (processedNodes s) (identifierData s)
    (targetElements s) (scoreQueue s) (scoreTimeout s) (sched s) (hover s)
    (overlayRoot s) k (hasVaultSetup s) (pendingNodes s)
    (observerTimeout s) (calls s).

Definition logCall (c : Call) (s : State) : State :=
  mkState (doc s) (nextNode s) (processedNodes s) (identifierData s)
    (targetElements s) (scoreQueue s) (scoreTimeout s) (sched s) (hover s)
    (overlayRoot s) (vaultSessionKey s) (hasVaultSetup s) (pendingNodes s)
    (observerTimeout s) (calls s ++ [c]).

(** *** Timers *)

(** [setTimeout(cb, delay)]: the handle and the new state. *)
Definition setTimeout (cb : Callback) (delay : Z) (s : State) : nat * State :=
  let sc := sched s in
  (nextTimer sc,
   set_sched (fun _ => mkSched (timers sc ++ [mkTimer (nextTimer sc) (clock sc + delay) cb])
                               (S (nextTimer sc)) (clock sc) (frames sc)) s).

Definition dropTimer (h : nat) (l : list Timer) : list Timer :=
  List.filter (fun t => negb (Nat.eqb (t_id t) h)) l.

(** [if (handle) clearTimeout(handle)] *)
Definition clearTimeout (h : option nat) (s : State) : State :=
  match h with
  | None => s
  | Some h =>
      set_sched (fun sc => mkSched (dropTimer h (timers sc)) (nextTimer sc)
                                   (clock sc) (frames sc)) s
  end.

(** *** The scoring queue *)

(** [queueForScoring]: push unless the queue already holds the identifier
    up to case, and restart the 150 ms timer. *)
Definition queueForScoring (ident : string) (ty : Matcher.IdType) (s : State) : State :=
  let id := JS.toLowerCase ident in
  if existsb (fun q => String.eqb (JS.toLowerCase (q_identifier q)) id) (scoreQueue s)
  then s
  else
    let s1 := set_scoreQueue (fun q => q ++ [mkItem ident ty]) s in
    let s2 := clearTimeout (scoreTimeout s1) s1 in
    let (h, s3) := setTimeout CbProcessScoreQueue 150 s2 in
    set_scoreTimeout (Some h) s3.

(** *** The tooltip *)

(** [id.length > 20 ? id.slice(0, 10) + '...' + id.slice(-k) : id] *)
Definition shorten (k : nat) (id : string) : string :=
  if (20 <? String.length id)%nat
  then (JS.slice id 0 10 ++ "..." ++ JS.sliceLast id k)%string
  else id.

(** [/^https?:\/\//i.test(url)] *)
Definition isHttpUrl (url : string) : bool :=
  match Matcher.matchAtoms true
          (Matcher.lits "http" ++ [Matcher.Class [("s", "s")%char] 0 (Some 1%nat)]
           ++ Matcher.lits "://")
          None (JS.chars url) with
  | Some _ => true
  | None => false
  end.

(** The values [showTooltip] computes from the record before it writes
    [innerHTML]. *)
Definition render (data : IdentifierInfo) (s : State) : TooltipContent :=
  let tierLabel :=
    match List.find (fun t => String.eqb (Tiers.name t) (tier data)) Tiers.SCORE_TIERS with
    | Some t => Tiers.label t
    | None => "UNSCORED"
    end in
  let addressForNote :=
    match JS.orUndefined (resolvedAddress data) with
    | Some a => a
    | None => identifier data
    end in
  let displayName :=
    match JS.orUndefined (ethosName data) with
    | Some n => n
    | None => shorten 8 (identifier data)
    end in
  let subtitle :=
    match JS.orUndefined (ethosName data) with
    | Some _ => JS.orUndefined (Some (shorten 8 (identifier data)))
    | None => None
    end in
  let avatar :=
    match JS.orUndefined (avatarUrl data) with
    | Some u => if isHttpUrl u then Some (escapeHtml u) else None
    | None => None
    end in
  mkContent (Tiers.getScoreColor (score data)) (score data) tierLabel
            (escapeHtml displayName) (option_map escapeHtml subtitle)
            (escapeHtml (identifier data)) avatar
            (escapeHtml addressForNote)
            (match vaultSessionKey s with
             | Some k => JS.truthy k
             | None => false
             end)
            (hasVaultSetup s).

(** [showTooltip(element, data)]: nothing without the overlay. *)
Definition showTooltip (element : nat) (data : IdentifierInfo) (s : State) : State :=
  if overlayRoot s then
    set_hover (fun h => mkHover (currentHover h) (isTooltipHovered h)
                                (isTargetHovered h) (hideTimeout h)
                                (ViewFull (render data s)) true (Some element)) s
  else s.

Definition showLoadingTooltip (element : nat) (ident : string) (s : State) : State :=
  if overlayRoot s then
    set_hover (fun h => mkHover (currentHover h) (isTooltipHovered h)
                                (isTargetHovered h) (hideTimeout h)
                                (ViewLoading (shorten 6 ident)) true (Some element)) s
  else s.

Definition hideTooltip (s : State) : State :=
  if overlayRoot s then
    set_hover (fun h => mkHover (currentHover h) (isTooltipHovered h)
                                (isTargetHovered h) (hideTimeout h)
                                (view h) false (anchor h)) s
  else s.

(** *** Writing scores back *)

(** [for (const el of targetElements.get(id) || []) el.className = ...] *)
Definition paintMarkers (id : string) (tierName : string) (s : State) : State :=
  let elements :=
    match OMap.get id (targetElements s) with
    | Some els => els
    | None => []
    end in
  fold_left
    (fun st el => set_doc (docSetClassName el ("aura-target " ++ tierName)%string) st)
    elements s.

(** [updateScore(key, score)] *)
Definition updateScore (key : string) (sc : option Z) (s : State) : State :=
  let id := JS.toLowerCase key in
  let tierName := Tiers.tierName (Tiers.getTierForScore sc) in
  let data := identifierData s !! id in
  let data' :=
    match data with
    | Some d => Some (mkInfo (identifier d) (type d) sc tierName
                             (resolvedAddress d) (ethosName d) (avatarUrl d) true)
    | None => None
    end in
  let s1 :=
    match data' with
    | Some d' => set_identifierData (fun m => <[id := d']> m) s
    | None => s
    end in
  let s2 := paintMarkers id tierName s1 in
  match currentHover (hover s2), data' with
  | Some (element, hid), Some d' =>
      if String.eqb hid id && fetched d' then showTooltip element d' s2 else s2
  | _, _ => s2
  end.

(** [if (data) data.resolvedAddress = resolved] *)
Definition setResolved (key resolved : string) (s : State) : State :=
  match identifierData s !! key with
  | Some d =>
      set_identifierData
        (fun m => <[key := mkInfo (identifier d) (type d) (score d) (tier d)
                                  (Some resolved) (ethosName d) (avatarUrl d)
                                  (fetched d)]> m) s
  | None => s
  end.

(** The profile write of [processScoreQueue]: name and avatar, and the
    score of the profile where the record has none. *)
Definition applyProfile (key : string) (u : UserResponse) (s : State) : State :=
  match identifierData s !! key with
  | Some d =>
      let name := JS.orElse (u_displayName u) (JS.orUndefined (u_username u)) in
      let avatar := JS.orUndefined (u_avatarUrl u) in
      match score d, u_score u with
      | None, Some us =>
          let t := Tiers.tierName (Tiers.getTierForScore (Some us)) in
          paintMarkers key t
            (set_identifierData
               (fun m => <[key := mkInfo (identifier d) (type d) (Some us) t
                                         (resolvedAddress d) name avatar
                                         (fetched d)]> m) s)
      | _, _ =>
          set_identifierData
            (fun m => <[key := mkInfo (identifier d) (type d) (score d) (tier d)
                                      (resolvedAddress d) name avatar
                                      (fetched d)]> m) s
      end
  | None => s
  end.

(** *** Collaborators and asynchronous code

    An [async] function is run from its call to its last statement in one
    step: no other handler runs while it waits for a collaborator.  Only
    the collaborators can throw; every other statement of the batcher is a
    map access, an assignment, or a call to a function that cannot
    throw. *)

Inductive Outcome (A : Type) :=
| Returned (a : A)
| Threw.
Arguments Returned {A} a.
Arguments Threw {A}.

(** The collaborators: the background resolver behind
    [chrome.runtime.sendMessage] (the answer is [response?.address]) and
    the two client calls.  The first argument is the number of calls made
    so far, so that answers may change over time. *)
Record Env := mkEnv {
  sendMessage : nat -> string -> Outcome (option string);
  getScoreByAddress : nat -> string -> Outcome (option ScoreResponse);
  getUserByAddress : nat -> string -> Outcome (option UserResponse)
}.

(** A computation on the shared state that returns or throws; what it
    wrote before throwing stays written. *)
Definition M (A : Type) : Type := State -> Outcome A * State.

Definition ret {A : Type} (a : A) : M A := fun s => (Returned a, s).

Definition bind {A B : Type} (m : M A) (f : A -> M B) : M B :=
  fun s =>
    match m s with
    | (Returned a, s') => f a s'
    | (Threw, s') => (Threw, s')
    end.

Definition modify (f : State -> State) : M unit := fun s => (Returned tt, f s).

(** [try { body } catch { handler }] *)
Definition tryCatch {A : Type} (body handler : M A) : M A :=
  fun s =>
    match body s with
    | (Returned a, s') => (Returned a, s')
    | (Threw, s') => handler s'
    end.

Notation "'let*' x ':=' m 'in' k" := (bind m (fun x => k))
  (at level 10, x name, m at level 100, k at level 200).
Notation "'run' m 'then' k" := (bind m (fun _ => k))
  (at level 10, m at level 100, k at level 200).

Fixpoint forEach {A : Type} (f : A -> M unit) (l : list A) : M unit :=
  match l with
  | [] => ret tt
  | x :: l' => run f x then forEach f l'
  end.

(** [await collaborator(arg)], recorded in [calls]. *)
Definition call {A : Type} (key : string) (kind : CallKind)
    (f : nat -> string -> Outcome A) (arg : string) : M A :=
  fun s => (f (length (calls s)) arg, logCall (mkCall key kind arg) s).

(** [resolveName]: the address of the response if it is truthy; [null]
    otherwise, also when messaging throws. *)
Definition resolveName (env : Env) (key name : string) : M (option string) :=
  tryCatch
    (let* r := call key CallResolve (sendMessage env) name in
     ret (JS.orUndefined r))
    (ret None).

(** The [try] block of the loop body of [processScoreQueue] and its
    [catch]. *)
Definition scoreAndProfile (env : Env) (key addressToScore : string) : M unit :=
  tryCatch
    (let* scoreResult := call key CallScore (getScoreByAddress env) addressToScore in
     run modify (updateScore key (option_map sr_score scoreResult)) then
     let* userResult := call key CallUser (getUserByAddress env) addressToScore in
     match userResult with
     | Some u => modify (applyProfile key u)
     | None => ret tt
     end)
    (modify (updateScore key None)).

(** The loop body of [processScoreQueue]. *)
Definition processItem (env : Env) (item : QItem) : M unit :=
  let key := JS.toLowerCase (q_identifier item) in
  match q_type item with
  | Matcher.eth => scoreAndProfile env key (q_identifier item)
  | _ =>
      let* resolved := resolveName env key (q_identifier item) in
      match resolved with
      | Some r =>
          run modify (setResolved key r) then
          scoreAndProfile env key r
      | None => modify (updateScore key None)
      end
  end.

(** [processScoreQueue]: one dispatch cycle. *)
Definition processScoreQueue (env : Env) : M unit :=
  fun s =>
    match scoreQueue s with
    | [] => (Returned tt, s)
    | _ =>
        let batch := firstn 30 (scoreQueue s) in
        (run forEach (processItem env) batch then
         modify (fun s' =>
                   match scoreQueue s' with
                   | [] => s'
                   | _ =>
                       let (h, s'') := setTimeout CbProcessScoreQueue 150 s' in
                       set_scoreTimeout (Some h) s''
                   end))
          (set_scoreQueue (skipn 30) s)
    end.

(** A call whose promise nobody awaits: a rejection goes nowhere. *)
Definition detach (m : M unit) (s : State) : State := snd (m s).

(** *** Annotation *)

Definition fresh (s : State) : nat * State :=
  (nextNode s, set_nextNode (S (nextNode s)) s).

(** [createTargetSpan(text, type)]: a [span] of class [aura-target
    unscored] around a new text node.  ([isContentEditable] is inherited
    from where the span is put.) *)
Definition createTargetSpan (txt : string) (editable : bool) (s : State)
  : Node * State :=
  let (spanId, s1) := fresh s in
  let (textId, s2) := fresh s1 in
  (Element spanId "SPAN" "aura-target unscored" editable [TextNode textId txt], s2).

(** [if (!targetElements.has(id)) targetElements.set(id, []);
     targetElements.get(id)!.push(span)] *)
Definition trackElement (id : string) (span : nat)
    (te : list (string * list nat)) : list (string * list nat) :=
  let te1 := if OMap.has id te then te else OMap.set id [] te in
  match OMap.get id te1 with
  | Some els => OMap.set id (els ++ [span]) te1
  | None => te1
  end.

(** [if (!identifierData.has(id)) identifierData.set(id, {...})] *)
Definition initData (id : string) (m : Matcher.Match)
    (d : gmap string IdentifierInfo) : gmap string IdentifierInfo :=
  match d !! id with
  | Some _ => d
  | None =>
      <[id := mkInfo (Matcher.text m) (Matcher.type m) None "unscored"
                     None None None false]> d
  end.

(** One turn of the loop [for (const m of matches)] of [processTextNode],
    on [remaining], the fragments gathered so far and the state. *)
Definition spliceStep (editable : bool) (acc : string * list Node * State)
    (m : Matcher.Match) : string * list Node * State :=
  let '(remaining, fragments, s) := acc in
  let after :=
    JS.sliceFrom remaining (Matcher.index m + String.length (Matcher.text m)) in
  let '(fragments1, s1) :=
    if JS.truthy after
    then let (i, s') := fresh s in (TextNode i after :: fragments, s')
    else (fragments, s) in
  let '(span, s2) := createTargetSpan (Matcher.text m) editable s1 in
  let id := JS.toLowerCase (Matcher.text m) in
  let s3 := set_targetElements (trackElement id (nodeId span)) s2 in
  let s4 := set_identifierData (initData id m) s3 in
  let s5 := queueForScoring (Matcher.text m) (Matcher.type m) s4 in
  (JS.slice remaining 0 (Matcher.index m), span :: fragments1, s5).

(** [processTextNode(node)] *)
Definition processTextNode (node : nat) (s : State) : State :=
  if decide (node ∈ processedNodes s) then s else
  match docFindText node (doc s) with
  | None => s
  | Some (txt, parent) =>
      if JS.isBlank txt then s else
      match parent with
      | None => s
      | Some p =>
          if isSkippedTag (p_tagName p) then s
          else if classListContains (p_className p) "aura-target" then s
          else if p_isContentEditable p then s
          else
            match Matcher.collectMatches txt with
            | [] => s
            | matches =>
                let s1 := set_processedNodes (fun ps => {[node]} ∪ ps) s in
                let sorted := Matcher.sortMatches matches in
                let '(remaining, fragments, s2) :=
                  fold_left (spliceStep (p_isContentEditable p)) sorted
                            (txt, [], s1) in
                let '(fragments1, s3) :=
                  if JS.truthy remaining
                  then let (i, s') := fresh s2 in
                       (TextNode i remaining :: fragments, s')
                  else (fragments, s2) in
                set_doc (docReplaceText node fragments1) s3
            end
      end
  end.

(** [processBatch] over the nodes still to visit: fifty of them now, the
    rest in the next animation frame. *)
Definition processBatch (nodes : list nat) (s : State) : State :=
  let s1 := fold_left (fun st n => processTextNode n st) (firstn 50 nodes) s in
  match skipn 50 nodes with
  | [] => s1
  | rest =>
      set_sched (fun sc => mkSched (timers sc) (nextTimer sc) (clock sc)
                                   (frames sc ++ [rest])) s1
  end.

(** [scanDOM(root)] *)
Definition scanDOM (root : nat) (s : State) : State :=
  match docFindElement root (doc s) with
  | Some el => processBatch (walkText el) s
  | None => s
  end.

(** The next animation frame: the oldest pending [processBatch]. *)
Definition runFrame (s : State) : State :=
  match frames (sched s) with
  | [] => s
  | nodes :: rest =>
      processBatch nodes
        (set_sched (fun sc => mkSched (timers sc) (nextTimer sc) (clock sc) rest) s)
  end.

(** *** Reconciliation *)

(** The sweep of [processPendingNodes] over the entries [es] of the
    registry: detached markers leave their list, and an identifier left
    without markers leaves both maps. *)
Fixpoint sweep (isAttached : nat -> bool) (es : list (string * list nat))
    (acc : list (string * list nat) * gmap string IdentifierInfo)
  : list (string * list nat) * gmap string IdentifierInfo :=
  match es with
  | [] => acc
  | (id, elements) :: es' =>
      let connected := List.filter isAttached elements in
      sweep isAttached es'
        (if (length connected =? 0)%nat
         then (OMap.delete id (fst acc), delete id (snd acc))
         else if negb (length connected =? length elements)%nat
              then (OMap.set id connected (fst acc), snd acc)
              else acc)
  end.

(** [if (targetElements.size > 500)]: the first [size - 500] keys leave
    both maps. *)
Definition limitSize (acc : list (string * list nat) * gmap string IdentifierInfo)
  : list (string * list nat) * gmap string IdentifierInfo :=
  if (500 <? OMap.size (fst acc))%nat then
    let toRemove := firstn (OMap.size (fst acc) - 500) (OMap.keys (fst acc)) in
    fold_left (fun a key => (OMap.delete key (fst a), delete key (snd a)))
              toRemove acc
  else acc.

(** The housekeeping of a flush: sweep, then limit. *)
Definition housekeeping (s : State) : State :=
  let r := limitSize (sweep (attached (doc s)) (targetElements s)
                            (targetElements s, identifierData s)) in
  set_identifierData (fun _ => snd r) (set_targetElements (fun _ => fst r) s).

(** The kind of a pending node. *)
Definition isTextNode (id : nat) (s : State) : bool :=
  match docFindText id (doc s) with Some _ => true | None => false end.

Definition isElementNode (id : nat) (s : State) : bool :=
  match docFindElement id (doc s) with Some _ => true | None => false end.

(** [processPendingNodes] *)
Definition processPendingNodes (s : State) : State :=
  let nodes := pendingNodes s in
  let s1 := set_observerTimeout None (set_pendingNodes (fun _ => []) s) in
  let s2 := housekeeping s1 in
  fold_left
    (fun st node =>
       if isTextNode node st then processTextNode node st
       else if isElementNode node st then scanDOM node st
       else st)
    nodes s2.

(** The callback of the [MutationObserver], for the added nodes of the
    mutation records. *)
Definition onMutations (added : list nat) (s : State) : State :=
  let s1 := set_pendingNodes (fun p => p ++ added) s in
  let s2 := clearTimeout (observerTimeout s1) s1 in
  let (h, s3) := setTimeout CbProcessPendingNodes 200 s2 in
  set_observerTimeout (Some h) s3.

(** *** Hover *)

Definition set_hideTimeout (h : option nat) (s : State) : State :=
  set_hover (fun hv => mkHover (currentHover hv) (isTooltipHovered hv)
                               (isTargetHovered hv) h (view hv) (visible hv)
                               (anchor hv)) s.

(** [if (hideTimeout) { clearTimeout(hideTimeout); hideTimeout = null }] *)
Definition cancelHide (s : State) : State :=
  match hideTimeout (hover s) with
  | Some h => set_hideTimeout None (clearTimeout (Some h) s)
  | None => s
  end.

(** The [mouseenter] listener of the marker [span]. *)
Definition mouseenter (env : Env) (span : nat) (s : State) : State :=
  match docFindElement span (doc s) with
  | None => s
  | Some el =>
      let txt := textOf el in
      let s1 := set_hover (fun hv => mkHover (currentHover hv) (isTooltipHovered hv)
                                             true (hideTimeout hv) (view hv)
                                             (visible hv) (anchor hv)) s in
      let s2 := cancelHide s1 in
      let id := JS.toLowerCase txt in
      let s3 := set_hover (fun hv => mkHover (Some (span, id)) (isTooltipHovered hv)
                                             (isTargetHovered hv) (hideTimeout hv)
                                             (view hv) (visible hv) (anchor hv)) s2 in
      match identifierData s3 !! id with
      | Some data =>
          if fetched data then showTooltip span data s3
          else detach (processScoreQueue env) (showLoadingTooltip span txt s3)
      | None => detach (processScoreQueue env) (showLoadingTooltip span txt s3)
      end
  end.

(** The [mouseleave] listener of a marker ([delay] 200) and of the tooltip
    container ([delay] 150), after the flag is lowered. *)
Definition scheduleHide (delay : Z) (s : State) : State :=
  let s1 := clearTimeout (hideTimeout (hover s)) s in
  let (h, s2) := setTimeout CbHide delay s1 in
  set_hideTimeout (Some h) s2.

Definition mouseleave (s : State) : State :=
  scheduleHide 200
    (set_hover (fun hv => mkHover (currentHover hv) (isTooltipHovered hv)
                                  false (hideTimeout hv) (view hv)
                                  (visible hv) (anchor hv)) s).

Definition tooltipEnter (s : State) : State :=
  cancelHide
    (set_hover (fun hv => mkHover (currentHover hv) true
                                  (isTargetHovered hv) (hideTimeout hv) (view hv)
                                  (visible hv) (anchor hv)) s).

Definition tooltipLeave (s : State) : State :=
  scheduleHide 150
    (set_hover (fun hv => mkHover (currentHover hv) false
                                  (isTargetHovered hv) (hideTimeout hv) (view hv)
                                  (visible hv) (anchor hv)) s).

(** The callback of the hide timer. *)
Definition onHideTimer (s : State) : State :=
  let s1 :=
    if negb (isTooltipHovered (hover s)) && negb (isTargetHovered (hover s))
    then set_hover (fun hv => mkHover None (isTooltipHovered hv)
                                      (isTargetHovered hv) (hideTimeout hv)
                                      (view hv) (visible hv) (anchor hv))
                   (hideTooltip s)
    else s in
  set_hideTimeout None s1.

(** *** The event loop *)

(** The pending timer that fires first: the earliest due, the oldest among
    equals. *)
Fixpoint earliest (l : list Timer) : option Timer :=
  match l with
  | [] => None
  | t :: l' =>
      match earliest l' with
      | Some t' => if t_due t' <? t_due t then Some t' else Some t
      | None => Some t
      end
  end.

Definition runCallback (env : Env) (cb : Callback) (s : State) : State :=
  match cb with
  | CbProcessScoreQueue => detach (processScoreQueue env) s
  | CbHide => onHideTimer s
  | CbProcessPendingNodes => processPendingNodes s
  end.

(** Let the next timer fire: the clock moves to its due time (if that is
    later) and its callback runs.  [None] when no timer is pending. *)
Definition fireNext (env : Env) (s : State) : option State :=
  match earliest (timers (sched s)) with
  | None => None
  | Some t =>
      let s1 :=
        set_sched (fun sc => mkSched (dropTimer (t_id t) (timers sc)) (nextTimer sc)
                                     (Z.max (clock sc) (t_due t)) (frames sc)) s in
      Some (runCallback env (t_cb t) s1)
  end.

(** Time passes to [t] with no timer firing: possible only while every
    pending timer is due later. *)
Definition advanceTo (t : Z) (s : State) : option State :=
  if forallb (fun tm => t <? t_due tm) (timers (sched s)) && (clock (sched s) <=? t)
  then Some (set_sched (fun sc => mkSched (timers sc) (nextTimer sc) t (frames sc)) s)
  else None.

(** A page script state before anything was scanned. *)
Definition initial (d : Document) (next : nat) : State :=
  mkState d next ∅ ∅ [] [] None (mkSched [] 1 0 [])
          (mkHover None false false None ViewEmpty false None)
          true None false [] None [].

(** *** Vocabulary of the statements *)

(** What the sweep leaves of one entry of the registry. *)
Definition sweptEntry (isAttached : nat -> bool) (kv : string * list nat)
  : list (string * list nat) :=
  match List.filter isAttached (snd kv) with
  | [] => []
  | connected => [(fst kv, connected)]
  end.

Definition sweptList (isAttached : nat -> bool) (te : list (string * list nat))
  : list (string * list nat) :=
  flat_map (sweptEntry isAttached) te.

(** The identifiers the sweep drops: no marker of theirs is attached. *)
Definition droppedKeys (isAttached : nat -> bool) (te : list (string * list nat))
  : list string :=
  map fst (List.filter (fun kv => (length (List.filter isAttached (snd kv)) =? 0)%nat) te).

Definition deleteAll (ks : list string) (d : gmap string IdentifierInfo)
  : gmap string IdentifierInfo :=
  fold_left (fun m k => delete k m) ks d.

(** The state in which a flush starts to annotate its pending nodes. *)
Definition afterHousekeeping (s : State) : State :=
  housekeeping (set_observerTimeout None (set_pendingNodes (fun _ => []) s)).

(** The annotation of the pending nodes, the last part of a flush. *)
Definition annotatePending (nodes : list nat) (s : State) : State :=
  fold_left
    (fun st node =>
       if isTextNode node st then processTextNode node st
       else if isElementNode node st then scanDOM node st
       else st)
    nodes s.

(** What a score write leaves alone: the queue, the timers, the registry,
    the log of calls, the hovered marker. *)
Definition sameQueue (s s' : State) : Prop :=
  scoreQueue s' = scoreQueue s /\ sched s' = sched s
  /\ scoreTimeout s' = scoreTimeout s /\ targetElements s' = targetElements s
  /\ calls s' = calls s /\ overlayRoot s' = overlayRoot s
  /\ currentHover (hover s') = currentHover (hover s).

(** What processing one item leaves alone. *)
Definition sameQueueing (s s' : State) : Prop :=
  scoreQueue s' = scoreQueue s /\ sched s' = sched s
  /\ scoreTimeout s' = scoreTimeout s /\ targetElements s' = targetElements s.

(** The calls a computation adds: a non-empty run of calls, all made for
    the item [key]. *)
Definition addsCallsFor (key : string) (s s' : State) : Prop :=
  exists seg, calls s' = calls s ++ seg /\ seg <> []
              /\ Forall (fun c => c_key c = key) seg.

(** [item.identifier.toLowerCase()], the key of a queue item. *)
Definition keyOf (item : QItem) : string := JS.toLowerCase (q_identifier item).

(** The answer of [resolveName] in state [s]. *)
Definition resolution (env : Env) (s : State) (name : string) : option string :=
  match sendMessage env (length (calls s)) name with
  | Returned r => JS.orUndefined r
  | Threw => None
  end.

(** A record as the batcher leaves it for an item it could not score. *)
Definition unscoreable (d : IdentifierInfo) (resolved : option string) : IdentifierInfo :=
  mkInfo (identifier d) (type d) None "unscored" resolved
         (ethosName d) (avatarUrl d) true.

(** The calls of a cycle, item by item: one non-empty run of calls per item
    of the batch, in the order of the batch. *)
Definition callsPerItem (batch : list QItem) (segs : list (list Call)) : Prop :=
  Forall2 (fun item seg => seg <> [] /\ Forall (fun c => c_key c = keyOf item) seg)
          batch segs.

(** Identifiers enqueued at given times, no timer firing in between. *)
Definition enqueueAt (s : State) (x : Z * QItem) : option State :=
  match advanceTo (fst x) s with
  | Some s' => Some (queueForScoring (q_identifier (snd x)) (q_type (snd x)) s')
  | None => None
  end.

Fixpoint enqueueAll (xs : list (Z * QItem)) (s : State) : option State :=
  match xs with
  | [] => Some s
  | x :: xs' =>
      match enqueueAt s x with
      | Some s' => enqueueAll xs' s'
      | None => None
      end
  end.

(** The times [ts] do not decrease, start at [from] or later and end at
    [upto] or earlier. *)
Fixpoint inWindow (from upto : Z) (ts : list Z) : bool :=
  match ts with
  | [] => true
  | t :: ts' => (from <=? t) && (t <=? upto) && inWindow t upto ts'
  end.

(** The queue is empty and no timer is pending, or the one pending timer
    is the dispatch timer the script holds, due after [bound]. *)
Definition oneDispatchTimer (bound : Z) (s : State) : Prop :=
  (scoreQueue s = [] /\ timers (sched s) = [])
  \/ (scoreQueue s <> []
      /\ exists h due, scoreTimeout s = Some h /\ bound < due
                       /\ timers (sched s) = [mkTimer h due CbProcessScoreQueue]).

End Content.

(** ** The vault validator: [lib/crypto.ts] *)

Module Crypto.

(** The functions of the web platform the module calls.  They are not
    code of the extension: the module is modelled over any implementation
    of them.  Strings are sequences of code units below 256, here as
    everywhere in this development. *)
Record Platform := mkPlatform {
  CryptoKey : Type;
  (** [new TextEncoder().encode(s)] and [new TextDecoder().decode(b)] *)
  encode : string -> list Byte.byte;
  decode : list Byte.byte -> string;
  (** [importKey('raw', pw, 'PBKDF2', ...)] then [deriveKey] with the salt,
      the iteration count and SHA-256, for AES-GCM with 256 bits *)
  pbkdf2 : list Byte.byte -> list Byte.byte -> N -> CryptoKey;
  (** [crypto.subtle.encrypt({name: 'AES-GCM', iv}, key, data)] *)
  aesGcmEncrypt : CryptoKey -> list Byte.byte -> list Byte.byte -> list Byte.byte;
  (** [crypto.subtle.decrypt(...)]: [None] when it rejects *)
  aesGcmDecrypt : CryptoKey -> list Byte.byte -> list Byte.byte -> option (list Byte.byte);
  (** [btoa(String.fromCharCode(...bytes))]: [None] when the call throws a
      [RangeError], the bytes being more arguments than the engine passes
      to one call *)
  btoa : list Byte.byte -> option string;
  (** [atob(s).split('').map(c => c.charCodeAt(0))]; [None] when [atob]
      throws *)
  atob : string -> option (list Byte.byte)
}.

Section Vault.
Context (P : Platform).

Definition SALT_LENGTH : nat := 16.
Definition IV_LENGTH : nat := 12.
Definition VALIDATOR_STRING : string := "AURA_VAULT_V1".

Definition deriveKey (password : string) (salt : list Byte.byte) : CryptoKey P :=
  pbkdf2 P (encode P password) salt 100000%N.

(** [encrypt(plaintext, password)], where [salt] and [iv] are the bytes
    drawn by [crypto.getRandomValues]; [None] when it throws. *)
Definition encrypt (salt iv : list Byte.byte) (plaintext password : string)
  : option string :=
  let key := deriveKey password salt in
  let ciphertext := aesGcmEncrypt P key iv (encode P plaintext) in
  btoa P (salt ++ iv ++ ciphertext).

(** [decrypt(encryptedBase64, password)]; [None] when it throws. *)
Definition decrypt (encryptedBase64 password : string) : option string :=
  match atob P encryptedBase64 with
  | None => None
  | Some combined =>
      let salt := firstn SALT_LENGTH combined in
      let iv := firstn IV_LENGTH (skipn SALT_LENGTH combined) in
      let ciphertext := skipn (SALT_LENGTH + IV_LENGTH) combined in
      let key := deriveKey password salt in
      match aesGcmDecrypt P key iv ciphertext with
      | None => None
      | Some plaintext => Some (decode P plaintext)
      end
  end.

Definition createValidator (salt iv : list Byte.byte) (password : string)
  : option string :=
  encrypt salt iv VALIDATOR_STRING password.

(** [verifyPassword]: a throwing [decrypt] is [false]. *)
Definition verifyPassword (validator password : string) : bool :=
  match decrypt validator password with
  | Some decrypted => String.eqb decrypted VALIDATOR_STRING
  | None => false
  end.

(** What AES-GCM makes of the ciphertext of [plaintext] under the key of
    the password [p], when it is asked to decrypt it under the key of
    [q]. *)
Definition opened (salt iv : list Byte.byte) (plaintext p q : string)
  : option string :=
  option_map (decode P)
    (aesGcmDecrypt P (deriveKey q salt) iv
       (aesGcmEncrypt P (deriveKey p salt) iv (encode P plaintext))).

End Vault.

(** The character U+0000 as a string. *)
Definition NUL : string := String "000"%char EmptyString.

(** What the platform functions guarantee.

    Round trips: [TextDecoder] gives back the text [TextEncoder] encoded,
    [atob] the bytes [btoa] encoded, and AES-GCM the plaintext it
    encrypted under the same key and nonce. *)
Record Lawful (P : Platform) : Prop := mkLawful {
  decode_encode : forall s, decode P (encode P s) = s;
  atob_btoa : forall b s, btoa P b = Some s -> atob P s = Some b;
  gcm_roundtrip : forall k iv pt,
      aesGcmDecrypt P k iv (aesGcmEncrypt P k iv pt) = Some pt
}.

(** Sizes: a call with 1024 arguments is within what every engine
    passes; AES-GCM appends its tag of 16 bytes to the ciphertext; UTF-8
    takes at most three bytes for a code unit. *)
Record Sized (P : Platform) : Prop := mkSized {
  btoa_small : forall b, (length b <= 1024)%nat -> btoa P b <> None;
  gcm_length : forall k iv pt,
      length (aesGcmEncrypt P k iv pt) = (length pt + 16)%nat;
  encode_length : forall s, (length (encode P s) <= 3 * String.length s)%nat
}.

(** PBKDF2 runs HMAC-SHA-256 with the password as key, and HMAC fills a
    key shorter than its block of 64 bytes with zero bytes: a password of
    fewer than 64 bytes and the same password followed by a zero byte
    give the same key.  U+0000 is encoded as one zero byte. *)
Record ZeroPadded (P : Platform) : Prop := mkZeroPadded {
  pbkdf2_pad : forall pw salt n,
      (length pw < 64)%nat ->
      pbkdf2 P (pw ++ [Byte.x00]) salt n = pbkdf2 P pw salt n;
  encode_nul : forall s, encode P (s ++ NUL) = encode P s ++ [Byte.x00]
}.

(** A small platform that has these properties, to run the definitions
    on.  A key is the HMAC key block of the password bytes (filled with
    zero bytes up to 64; a longer password, which HMAC would hash first,
    is kept whole) followed by the salt.  A ciphertext is the plaintext
    followed by a tag of 16 bytes, the first 16 bytes of the key;
    decryption rejects a ciphertext whose tag is not that of the key.
    [btoa] passes up to 4096 bytes. *)
Module Toy.

Definition hmacKey (pw : list Byte.byte) : list Byte.byte :=
  pw ++ repeat Byte.x00 (64 - length pw).

Definition tag (k : list Byte.byte) : list Byte.byte :=
  firstn 16 (k ++ repeat Byte.x00 16).

Fixpoint sameBytes (a b : list Byte.byte) : bool :=
  match a, b with
  | [], [] => true
  | x :: a', y :: b' => Byte.eqb x y && sameBytes a' b'
  | _, _ => false
  end.

Definition unseal (k : list Byte.byte) (ct : list Byte.byte) : option (list Byte.byte) :=
  let n := (length ct - 16)%nat in
  if (16 <=? length ct)%nat && sameBytes (skipn n ct) (tag k)
  then Some (firstn n ct) else None.

Definition platform : Platform :=
  mkPlatform (list Byte.byte)
    list_byte_of_string
    string_of_list_byte
    (fun pw salt _ => hmacKey pw ++ salt)
    (fun k _ pt => pt ++ tag k)
    (fun k _ ct => unseal k ct)
    (fun b => if (length b <=? 4096)%nat then Some (string_of_list_byte b) else None)
    (fun s => Some (list_byte_of_string s)).

End Toy.

End Crypto.

(** ** Concrete pages, caches and collaborators *)

Module Scenario.
Import Content Dom.

Definition decimal (i : nat) : string := NilEmpty.string_of_uint (Nat.to_uint i).

(** A cache of [n] entries [k0], [k1], ... where entry [i] expires at
    [expiry i]. *)
Definition filled (n : nat) (expiry : nat -> Z)
  : list (string * EthosClient.CacheEntry unit) :=
  map (fun i => (("k" ++ decimal i)%string, EthosClient.mkEntry tt (expiry i))) (seq 0 n).

(** The strings of a list are pairwise different. *)
Fixpoint distinctb (l : list string) : bool :=
  match l with
  | [] => true
  | x :: l' => negb (existsb (String.eqb x) l') && distinctb l'
  end.

Definition addr40 : string := "0x52908400098527886E0F7030069857D2E4169EE7".

Definition addrKey : string := JS.toLowerCase addr40.

(** A page whose body holds one paragraph with one text node. *)
Definition page (t : string) : Document :=
  mkDocument (Element 0 "BODY" "" false [Element 1 "P" "" false [TextNode 2 t]]) [].

Definition emptyPage : State :=
  initial (mkDocument (Element 0 "BODY" "" false []) []) 1.

(** The score endpoint answers 1450. *)
Definition envScore : Env :=
  mkEnv (fun _ _ => Returned None)
        (fun _ _ => Returned (Some (mkScoreResponse 1450)))
        (fun _ _ => Returned None).

(** The score endpoint has no score and the profile carries 1450. *)
Definition envFallback : Env :=
  mkEnv (fun _ _ => Returned None)
        (fun _ _ => Returned None)
        (fun _ _ => Returned (Some (mkUser (Some "alice") None None (Some 1450)))).

(** Nothing resolves and every client call throws. *)
Definition envUnresolved : Env :=
  mkEnv (fun _ _ => Returned None) (fun _ _ => Threw) (fun _ _ => Threw).

(** A page with one address, scanned: the marker is element 3. *)
Definition scannedAddress : State :=
  scanDOM 0 (initial (page ("by " ++ addr40)%string) 3).

(** A page that tracks one name. *)
Definition oneName : State :=
  scanDOM 0 (initial (page "ask vitalik.eth") 3).

(** A flush whose pending node left the document before the flush ran: the
    element 3 was inserted into the page and removed again within the
    debounce window. *)
Definition removedBeforeFlush : State :=
  set_pendingNodes (fun _ => [3%nat])
    (initial
       (mkDocument
          (Element 0 "BODY" "" false [Element 1 "P" "" false [TextNode 2 "hello"]])
          [Element 3 "DIV" "" false [TextNode 4 "ping vitalik.eth"]])
       5).

(** A registry with one identifier whose only marker has left the document
    and one that keeps one of its two markers. *)
Definition afterRemoval : State :=
  set_identifierData
    (fun _ => {[ "gone.eth" := mkInfo "gone.eth" Matcher.ens (Some 1450) "established"
                                      None None None true;
                 "here.eth" := mkInfo "here.eth" Matcher.ens None "unscored"
                                      None None None false ]})
    (set_targetElements
       (fun _ => [("gone.eth", [10%nat]); ("here.eth", [3%nat; 11%nat])])
       (initial
          (mkDocument
             (Element 0 "BODY" "" false
                [Element 1 "P" "" false
                   [Element 3 "SPAN" "aura-target unscored" false [TextNode 4 "here.eth"]]])
             [])
          12)).

(** Forty-five names, enqueued one millisecond apart. *)
Definition fortyFive : list (Z * QItem) :=
  map (fun i => (Z.of_nat i, mkItem ("name" ++ decimal i ++ ".eth")%string Matcher.ens))
      (seq 0 45).

End Scenario.

(** ** Asynchronous code outside the batcher

    The remaining [async] functions are written over a state of their
    own.  A computation returns or throws; what it wrote before throwing
    stays written. *)

Module Eff.

Definition M (S A : Type) : Type := S -> Content.Outcome A * S.

Definition ret {S A : Type} (a : A) : M S A := fun s => (Content.Returned a, s).

(** [throw new Error(...)] *)
Definition throw {S A : Type} : M S A := fun s => (Content.Threw, s).

Definition bind {S A B : Type} (m : M S A) (f : A -> M S B) : M S B :=
  fun s =>
    match m s with
    | (Content.Returned a, s') => f a s'
    | (Content.Threw, s') => (Content.Threw, s')
    end.

(** [try { body } catch { handler }] *)
Definition tryCatch {S A : Type} (body handler : M S A) : M S A :=
  fun s =>
    match body s with
    | (Content.Returned a, s') => (Content.Returned a, s')
    | (Content.Threw, s') => handler s'
    end.

Definition modify {S : Type} (f : S -> S) : M S unit :=
  fun s => (Content.Returned tt, f s).

Definition read {S A : Type} (f : S -> A) : M S A :=
  fun s => (Content.Returned (f s), s).

(** [await p] for a promise that settles as [o]. *)
Definition settle {S A : Type} (o : Content.Outcome A) : M S A := fun s => (o, s).

Notation "'let!' x ':=' m 'in' k" := (bind m (fun x => k))
  (at level 10, x name, m at level 100, k at level 200).
Notation "'do!' m 'then' k" := (bind m (fun _ => k))
  (at level 10, m at level 100, k at level 200).

End Eff.

(** ** The client calls: [apiRequest], [getScoreByAddress],
    [getUserByAddress], [getUserByTwitter] of [lib/ethos-client.ts] *)

Module Client.
Import Eff.
Section Requests.

(** The JSON values that are truthy.  A response body is [None] when it
    is a falsy value ([null], [0], [false], the empty string). *)
Context {T : Type}.

Definition API_BASE : string := "https://api.ethos.network/api/v2".

(** What the code reads of a [Response]: [status], from which [ok] follows
    (a status from 200 to 299), and the promise of [response.json()]. *)
Record Response := mkResponse {
  status : Z;
  json : Content.Outcome (option T)
}.

Definition ok (r : Response) : bool := (200 <=? status r) && (status r <=? 299).

(** [fetch]: the answer to a request for [url], which may depend on the
    number of requests made before; [Threw] is a rejected promise. *)
Record Net := mkNet { fetch : nat -> string -> Content.Outcome Response }.

(** The module state: the cache, and the log of the URLs requested. *)
Record Client := mkClient {
  cache : list (string * EthosClient.CacheEntry T);
  requests : list string
}.

(** The values of [Date.now()] during one call: in [getFromCache], in the
    clean-up of [setCache], and when the entry is stored. *)
Record Times := mkTimes { atLookup : Z; atCleanup : Z; atStore : Z }.

(** The [error] field: ['not_found'], or [String(e)] for what was caught. *)
Inductive ApiError := not_found | thrown.

Record ApiResult := mkResult { r_data : option T; r_error : option ApiError }.

Definition doFetch (net : Net) (url : string) : M Client Response :=
  fun st => (fetch net (length (requests st)) url,
             mkClient (cache st) (requests st ++ [url])).

(** [apiRequest(endpoint)] *)
Definition apiRequest (net : Net) (endpoint : string) : M Client ApiResult :=
  tryCatch
    (let! response := doFetch net (API_BASE ++ endpoint)%string in
     if negb (ok response) then
       if status response =? 404 then ret (mkResult None (Some not_found))
       else throw
     else
       let! d := settle (json response) in
       ret (mkResult d None))
    (ret (mkResult None (Some thrown))).

(** [getFromCache] and [setCache] on the module state. *)
Definition cached (now : Z) (key : string) : M Client (option T) :=
  fun st =>
    let (r, c) := EthosClient.getFromCache now key (cache st) in
    (Content.Returned r, mkClient c (requests st)).

Definition remember (tm : Times) (key : string) (d : T) (ttl : Z) : M Client unit :=
  modify (fun st =>
            mkClient (EthosClient.setCache (atCleanup tm) (atStore tm) key d ttl (cache st))
                     (requests st)).

(** [result.data && !result.error] *)
Definition usable (result : ApiResult) : option T :=
  match r_data result, r_error result with
  | Some d, None => Some d
  | _, _ => None
  end.

Definition getScoreByAddress (net : Net) (tm : Times) (address : string)
  : M Client (option T) :=
  let key := ("score:" ++ JS.toLowerCase address)%string in
  let! hit := cached (atLookup tm) key in
  match hit with
  | Some c => ret (Some c)
  | None =>
      let! result := apiRequest net ("/score/address?address=" ++ address)%string in
      match usable result with
      | Some d => do! remember tm key d EthosClient.TTL_score then ret (Some d)
      | None => ret None
      end
  end.

Definition getUserByAddress (net : Net) (tm : Times) (address : string)
  : M Client (option T) :=
  let key := ("user:address:" ++ JS.toLowerCase address)%string in
  let! hit := cached (atLookup tm) key in
  match hit with
  | Some c => ret (Some c)
  | None =>
      let! result := apiRequest net ("/user/by/address/" ++ address)%string in
      match usable result with
      | Some d => do! remember tm key d EthosClient.TTL_user then ret (Some d)
      | None => ret None
      end
  end.

Definition getUserByTwitter (net : Net) (tm : Times) (handle : string)
  : M Client (option T) :=
  let key := ("user:twitter:" ++ JS.toLowerCase handle)%string in
  let! hit := cached (atLookup tm) key in
  match hit with
  | Some c => ret (Some c)
  | None =>
      let! result := apiRequest net ("/user/by/x/" ++ handle)%string in
      match usable result with
      | Some d => do! remember tm key d EthosClient.TTL_user then ret (Some d)
      | None => ret None
      end
  end.

(** [clearCache()] *)
Definition clearCache (st : Client) : Client :=
  mkClient (EthosClient.clearCache (cache st)) (requests st).

(** Vocabulary of the statements: the body a settled request carries for
    the callers (a 2xx response whose JSON parses to a truthy value), and
    the three functions as one scheme. *)
Definition payload (o : Content.Outcome Response) : option T :=
  match o with
  | Content.Returned r =>
      if ok r then
        match json r with
        | Content.Returned (Some d) => Some d
        | _ => None
        end
      else None
  | Content.Threw => None
  end.

Inductive Lookup := ScoreOf | UserOfAddress | UserOfTwitter.

Definition keyFor (l : Lookup) (arg : string) : string :=
  match l with
  | ScoreOf => "score:" ++ JS.toLowerCase arg
  | UserOfAddress => "user:address:" ++ JS.toLowerCase arg
  | UserOfTwitter => "user:twitter:" ++ JS.toLowerCase arg
  end%string.

Definition urlFor (l : Lookup) (arg : string) : string :=
  (API_BASE ++
   match l with
   | ScoreOf => "/score/address?address=" ++ arg
   | UserOfAddress => "/user/by/address/" ++ arg
   | UserOfTwitter => "/user/by/x/" ++ arg
   end)%string.

Definition ttlFor (l : Lookup) : Z :=
  match l with
  | ScoreOf => EthosClient.TTL_score
  | _ => EthosClient.TTL_user
  end.

Definition perform (l : Lookup) : Net -> Times -> string -> M Client (option T) :=
  match l with
  | ScoreOf => getScoreByAddress
  | UserOfAddress => getUserByAddress
  | UserOfTwitter => getUserByTwitter
  end.

End Requests.
Arguments Response : clear implicits.
Arguments Net : clear implicits.
Arguments Client : clear implicits.
Arguments ApiResult : clear implicits.
End Client.

(** ** The notes vault of the content script: [VAULT_KEYS] and [getNoteKey]
    of [lib/crypto.ts]; [loadVaultSession], [loadNoteForAddress],
    [saveNoteForAddress], [tryUnlockVault], the storage read of
    [showTooltip] and the vault messages of the content script *)

Module Vault.
Import Eff.

(** [VAULT_KEYS] *)
Definition VALIDATOR : string := "vault_validator".
Definition NOTE_PREFIX : string := "note_".

Definition getNoteKey (address : string) : string :=
  (NOTE_PREFIX ++ JS.toLowerCase address)%string.

(** [SESSION_TIMEOUT_MS = 60 * 60 * 1000] *)
Definition SESSION_TIMEOUT_MS : Z := 60 * 60 * 1000.

(** The value stored under [vaultSession] in [chrome.storage.local]. *)
Record Session := mkSession { s_key : string; s_expiresAt : Z }.

(** Whether the [n]-th call to [chrome.storage] resolves ([true]) or
    rejects. *)
Record Chrome := mkChrome { storageWorks : nat -> bool }.

(** The page script together with the extension storage it reads and
    writes: [chrome.storage.sync] (validator and notes, all strings), the
    [vaultSession] entry of [chrome.storage.local], the text of the
    [.aura-vault-error] element of the tooltip, and the number of storage
    calls made so far. *)
Record World := mkWorld {
  page : Content.State;
  sync : gmap string string;
  vaultSession : option Session;
  errorText : string;
  storageCalls : nat
}.

Definition set_page (f : Content.State -> Content.State) (w : World) : World :=
  mkWorld (f (page w)) (sync w) (vaultSession w) (errorText w) (storageCalls w).

Definition set_sync (f : gmap string string -> gmap string string) (w : World) : World :=
  mkWorld (page w) (f (sync w)) (vaultSession w) (errorText w) (storageCalls w).

Definition set_vaultSession (v : option Session) (w : World) : World :=
  mkWorld (page w) (sync w) v (errorText w) (storageCalls w).

Definition set_errorText (t : string) (w : World) : World :=
  mkWorld (page w) (sync w) (vaultSession w) t (storageCalls w).

Definition set_hasVaultSetup (b : bool) (s : Content.State) : Content.State :=
  Content.mkState (Content.doc s) (Content.nextNode s) (Content.processedNodes s)
    (Content.identifierData s) (Content.targetElements s) (Content.scoreQueue s)
    (Content.scoreTimeout s) (Content.sched s) (Content.hover s)
    (Content.overlayRoot s) (Content.vaultSessionKey s) b (Content.pendingNodes s)
    (Content.observerTimeout s) (Content.calls s).

Section WithPlatform.
Context (P : Crypto.Platform) (chrome : Chrome).

(** [await chrome.storage.<area>.<op>(...)]: the call is counted, then it
    rejects or takes effect. *)
Definition storageCall {A : Type} (f : World -> A * World) : M World A :=
  fun w =>
    let w' := mkWorld (page w) (sync w) (vaultSession w) (errorText w)
                      (S (storageCalls w)) in
    if storageWorks chrome (storageCalls w)
    then let (a, w'') := f w' in (Content.Returned a, w'')
    else (Content.Threw, w').

(** [(await chrome.storage.sync.get([key]))[key]] *)
Definition syncGet (key : string) : M World (option string) :=
  storageCall (fun w => (sync w !! key, w)).

(** [chrome.storage.sync.set({ [key]: value })] *)
Definition syncSet (key value : string) : M World unit :=
  storageCall (fun w => (tt, set_sync (fun m => <[key := value]> m) w)).

(** [chrome.storage.sync.remove([key])] *)
Definition syncRemove (key : string) : M World unit :=
  storageCall (fun w => (tt, set_sync (fun m => delete key m) w)).

Definition localGetSession : M World (option Session) :=
  storageCall (fun w => (vaultSession w, w)).

Definition localSetSession (v : Session) : M World unit :=
  storageCall (fun w => (tt, set_vaultSession (Some v) w)).

Definition localRemoveSession : M World unit :=
  storageCall (fun w => (tt, set_vaultSession None w)).

(** [vaultSessionKey = k] *)
Definition setKey (k : option string) : M World unit :=
  modify (set_page (Content.set_vaultSessionKey k)).

(** [loadVaultSession()], where [now] is [Date.now()] after the read. *)
Definition loadVaultSession (now : Z) : M World unit :=
  tryCatch
    (let! result := localGetSession in
     match result with
     | Some v =>
         if now <? s_expiresAt v then setKey (Some (s_key v))
         else do! setKey None then localRemoveSession
     | None => setKey None
     end)
    (ret tt).

(** [await decrypt(blob, key)] *)
Definition decrypt (blob key : string) : M World string :=
  match Crypto.decrypt P blob key with
  | Some s => ret s
  | None => throw
  end.

(** [await encrypt(content, key)], where [salt] and [iv] are the bytes
    [encrypt] draws. *)
Definition encrypt (salt iv : list Byte.byte) (content key : string) : M World string :=
  match Crypto.encrypt P salt iv content key with
  | Some blob => ret blob
  | None => throw
  end.

(** [loadNoteForAddress(address)] *)
Definition loadNoteForAddress (address : string) : M World string :=
  let! key := read (fun w => Content.vaultSessionKey (page w)) in
  match JS.orUndefined key with
  | None => ret ""
  | Some k =>
      let! found :=
        tryCatch
          (let noteKey := getNoteKey address in
           let! result := syncGet noteKey in
           match JS.orUndefined result with
           | Some blob => let! s := decrypt blob k in ret (Some s)
           | None => ret None
           end)
          (ret None) in
      match found with
      | Some s => ret s
      | None => ret ""
      end
  end.

(** [saveNoteForAddress(address, content)], where [salt] and [iv] are the
    bytes [encrypt] draws. *)
Definition saveNoteForAddress (salt iv : list Byte.byte) (address content : string)
  : M World bool :=
  let! key := read (fun w => Content.vaultSessionKey (page w)) in
  match JS.orUndefined key with
  | None => ret false
  | Some k =>
      tryCatch
        (let noteKey := getNoteKey address in
         do! (if negb (JS.isBlank content)
              then let! encrypted := encrypt salt iv content k in
                   syncSet noteKey encrypted
              else syncRemove noteKey)
         then ret true)
        (ret false)
  end.

(** [showTooltip(element, data)] with its read of the validator:
    [hasVaultSetup] is whether a validator is stored, [false] when the read
    rejects. *)
Definition showTooltip (element : nat) (data : Content.IdentifierInfo) : M World unit :=
  let! overlay := read (fun w => Content.overlayRoot (page w)) in
  if overlay then
    let! setup :=
      tryCatch
        (let! stored := syncGet VALIDATOR in
         ret (match JS.orUndefined stored with Some _ => true | None => false end))
        (ret false) in
    modify (set_page (fun s => Content.showTooltip element data (set_hasVaultSetup setup s)))
  else ret tt.

(** [if (errorEl) errorEl.textContent = msg] *)
Definition report (errorEl : bool) (msg : string) : M World unit :=
  if errorEl then modify (set_errorText msg) else ret tt.

(** [tryUnlockVault(passwordInput, errorEl, vaultUnlock, element, data)],
    where [password] is [passwordInput.value], [errorEl] tells whether the
    error element exists, and [now] is [Date.now()] when the session is
    stored. *)
Definition tryUnlockVault (now : Z) (password : string) (errorEl : bool)
    (element : nat) (data : Content.IdentifierInfo) : M World unit :=
  if negb (JS.truthy password) then report errorEl "Enter password"
  else
    tryCatch
      (let! result := syncGet VALIDATOR in
       match JS.orUndefined result with
       | Some validator =>
           if Crypto.verifyPassword P validator password then
             do! setKey (Some password) then
             do! localSetSession (mkSession password (now + SESSION_TIMEOUT_MS)) then
             do! modify (set_page (fun s =>
                   Content.cancelHide
                     (Content.set_hover
                        (fun hv => Content.mkHover (Content.currentHover hv) true true
                                     (Content.hideTimeout hv) (Content.view hv)
                                     (Content.visible hv) (Content.anchor hv)) s))) then
             showTooltip element data
           else report errorEl "Wrong password"
       | None => report errorEl "No vault set up"
       end)
      (report errorEl "Error unlocking").

(** The re-render of the vault messages:
    [if (currentHover) { const data = identifierData.get(...);
                         if (data) showTooltip(currentHover.element, data) }] *)
Definition rerenderHovered : M World unit :=
  let! s := read page in
  match Content.currentHover (Content.hover s) with
  | Some (element, id) =>
      match Content.identifierData s !! id with
      | Some data => showTooltip element data
      | None => ret tt
      end
  | None => ret tt
  end.

(** The [VAULT_LOCKED] branch of the message listener. *)
Definition onVaultLocked : M World unit :=
  do! setKey None then rerenderHovered.

(** The [VAULT_UNLOCKED] branch: taken when [message.sessionKey] is
    truthy. *)
Definition onVaultUnlocked (sessionKey : option string) : M World unit :=
  match JS.orUndefined sessionKey with
  | Some k => do! setKey (Some k) then rerenderHovered
  | None => ret tt
  end.

End WithPlatform.

(** Vocabulary of the statements: the vault is unlocked with the key [k];
    every storage call resolves. *)
Definition unlockedWith (k : string) (w : World) : Prop :=
  Content.vaultSessionKey (page w) = Some k /\ JS.truthy k = true.

Definition reliable : Chrome := mkChrome (fun _ => true).

(** The world after one more storage call. *)
Definition counted (w : World) : World :=
  mkWorld (page w) (sync w) (vaultSession w) (errorText w) (S (storageCalls w)).

(** [!!stored[key]] *)
Definition stored (o : option string) : bool :=
  match JS.orUndefined o with Some _ => true | None => false end.

End Vault.

(** ** More string primitives *)

Module Str.

Fixpoint dropWhile (f : ascii -> bool) (l : list ascii) : list ascii :=
  match l with
  | [] => []
  | c :: l' => if f c then dropWhile f l' else l
  end.

(** [s.trim()]: white space leaves both ends. *)
Definition trimChars (l : list ascii) : list ascii :=
  rev (dropWhile JS.isWhiteSpace (rev (dropWhile JS.isWhiteSpace l))).

Definition trim (s : string) : string := JS.ofChars (trimChars (JS.chars s)).

(** [s.startsWith(p)] *)
Definition startsWith (p s : string) : bool := String.prefix p s.

(** [s.includes(needle)] *)
Fixpoint includes (needle s : string) : bool :=
  String.prefix needle s
  || match s with
     | EmptyString => false
     | String _ s' => includes needle s'
     end.

(** The characters a pattern can take: those one of its atoms accepts. *)
Definition allowed (ci : bool) (atoms : list Matcher.Atom) (c : ascii) : bool :=
  existsb (fun a => match a with
                    | Matcher.WordBoundary => false
                    | Matcher.Lit l => Matcher.matchLit ci l c
                    | Matcher.Class ranges _ _ => Matcher.inClass ci ranges c
                    end) atoms.

(** The bound a pattern puts on its matches: the most characters a
    sequence of atoms can take; [None] when there is no bound. *)
Fixpoint maxLen (atoms : list Matcher.Atom) : option nat :=
  match atoms with
  | [] => Some 0%nat
  | Matcher.WordBoundary :: rest => maxLen rest
  | Matcher.Lit _ :: rest => option_map S (maxLen rest)
  | Matcher.Class _ _ hi :: rest =>
      match hi, maxLen rest with
      | Some h, Some m => Some (h + m)%nat
      | _, _ => None
      end
  end.

End Str.

(** ** The name resolver of the background worker: [resolveViaEnsData],
    [resolveViaCloudflare], [resolveName] and the [RESOLVE_NAME] branch of
    the message listener of [background/index.ts] *)

Module Background.
Import Eff.

(** A JSON field as far as the code tells values apart: missing (or the
    object that should hold it is [null]), a string, or another value,
    truthy or falsy. *)
Inductive Field := Absent | Text (s : string) | Other (truthy : bool).

(** The response of ensdata.net: [ok], and [data?.address] of the parsed
    body ([Threw] when [response.json()] rejects). *)
Record EnsResponse := mkEns { e_ok : bool; e_address : Content.Outcome Field }.

(** The response of the DNS-over-HTTPS endpoint: [ok], and the [data]
    string of every element of [data?.Answer || []] ([None] where an answer
    has none). *)
Record DnsResponse := mkDns { d_ok : bool; d_answers : Content.Outcome (list (option string)) }.

(** A request, by the service asked and the name put into the URL. *)
Inductive Request := ToEnsData (name : string) | ToCloudflare (name : string).

(** The two services: the answer to the [n]-th request overall. *)
Record Net := mkNet {
  ensData : nat -> string -> Content.Outcome EnsResponse;
  cloudflare : nat -> string -> Content.Outcome DnsResponse
}.

(** The log of the requests made. *)
Definition Log := list Request.

Definition fetchEnsData (net : Net) (name : string) : M Log EnsResponse :=
  fun log => (ensData net (length log) name, log ++ [ToEnsData name]).

Definition fetchCloudflare (net : Net) (name : string) : M Log DnsResponse :=
  fun log => (cloudflare net (length log) name, log ++ [ToCloudflare name]).

(** [address && address.startsWith('0x') && address.length === 42 ?
    address : null]; a truthy value that is no string has no [startsWith]
    and the call throws. *)
Definition checkedAddress (f : Field) : M Log (option string) :=
  match f with
  | Text a =>
      if JS.truthy a && Str.startsWith "0x" a && (String.length a =? 42)%nat
      then ret (Some a) else ret None
  | Other true => throw
  | Other false => ret None
  | Absent => ret None
  end.

Definition resolveViaEnsData (net : Net) (name : string) : M Log (option string) :=
  tryCatch
    (let normalized := Str.trim (JS.toLowerCase name) in
     let! response := fetchEnsData net normalized in
     if negb (e_ok response) then ret None
     else
       let! address := settle (e_address response) in
       checkedAddress address)
    (ret None).

(** [/a=(0x[a-fA-F0-9]{40})/] *)
Definition addressRecord : Matcher.RegExp :=
  Matcher.mkRegExp (Matcher.lits "a=" ++ Matcher.ethAddress) false.

(** [s.match(re)] for a regular expression without the [g] flag: the first
    match, as (index, text). *)
Definition firstMatch (re : Matcher.RegExp) (s : string) : option (nat * string) :=
  head (Matcher.execAll re s).

(** The loop over the answers: the first answer whose [data] is truthy,
    includes [a=0x] and matches gives [match[1]]. *)
Fixpoint firstAddress (answers : list (option string)) : option string :=
  match answers with
  | [] => None
  | answer :: rest =>
      match JS.orUndefined answer with
      | Some data =>
          if Str.includes "a=0x" data then
            match firstMatch addressRecord data with
            | Some (_, m) => Some (JS.sliceFrom m 2)
            | None => firstAddress rest
            end
          else firstAddress rest
      | None => firstAddress rest
      end
  end.

Definition resolveViaCloudflare (net : Net) (name : string) : M Log (option string) :=
  tryCatch
    (let normalized := Str.trim (JS.toLowerCase name) in
     let! response := fetchCloudflare net normalized in
     if negb (d_ok response) then ret None
     else
       let! answers := settle (d_answers response) in
       ret (firstAddress answers))
    (ret None).

(** [resolveName(name)] *)
Definition resolveName (net : Net) (name : string) : M Log (option string) :=
  if negb (JS.truthy name) then ret None
  else
    let normalized := Str.trim (JS.toLowerCase name) in
    if negb (Str.includes "." normalized) then ret None
    else
      let! address := resolveViaEnsData net normalized in
      match JS.orUndefined address with
      | Some a => ret (Some a)
      | None =>
          let! address := resolveViaCloudflare net normalized in
          match JS.orUndefined address with
          | Some a => ret (Some a)
          | None => ret None
          end
      end.

(** The [RESOLVE_NAME] branch of the listener: the [address] of the one
    response it sends. *)
Definition onResolveName (net : Net) (name : string) : M Log (option string) :=
  if negb (JS.truthy name) then ret None
  else tryCatch (resolveName net name) (ret None).

(** The shape of an address: 42 characters, the first two [0x]. *)
Definition addressLike (a : string) : Prop :=
  String.length a = 42%nat /\ Str.startsWith "0x" a = true.

End Background.

(** ** Circular vouches: [detectSybilFlags] of [hooks/useEthosProfile.ts] *)

Module Sybil.

Record Actor := mkActor { a_username : option string; a_name : option string }.

Record Vouch := mkVouch {
  authorProfileId : Z;
  subjectProfileId : Z;
  authorActor : Actor
}.

Inductive Suspicion := none | low | medium | high.

Record SybilFlags := mkFlags {
  hasCircularVouches : bool;
  circularVouchCount : nat;
  circularVouchPartners : list string;
  suspicionLevel : Suspicion
}.

(** [vouch.authorActor.username || vouch.authorActor.name || 'Unknown'] *)
Definition partnerName (vouch : Vouch) : string :=
  match JS.orElse (a_username (authorActor vouch))
                  (JS.orUndefined (a_name (authorActor vouch))) with
  | Some n => n
  | None => "Unknown"
  end.

(** One turn of the loop over [vouchesReceived], on [circularCount] and
    [partners]. *)
Definition countStep (givenSet : gset Z) (acc : nat * list string) (vouch : Vouch)
  : nat * list string :=
  if bool_decide (authorProfileId vouch ∈ givenSet)
  then (S (fst acc), snd acc ++ [partnerName vouch])
  else acc.

(** [circularCount / Math.max(totalReceived, 1)], compared with 0.5 and
    0.3.  Both numbers are array lengths, below 2^32, and for such numbers
    the quotient in double precision lies on the same side of the doubles
    0.5 and 0.3 as the exact quotient does of 1/2 and 3/10: the comparison
    is made on rationals. *)
Definition ratio (circularCount totalReceived : nat) : QArith_base.Q :=
  QArith_base.Qmake (Z.of_nat circularCount) (Pos.of_nat (Nat.max totalReceived 1)).

Definition half : QArith_base.Q := QArith_base.Qmake 1 2.
Definition threeTenths : QArith_base.Q := QArith_base.Qmake 3 10.

Definition detectSybilFlags (vouchesReceived vouchesGiven : list Vouch) (profileId : Z)
  : SybilFlags :=
  let givenSet : gset Z := list_to_set (map subjectProfileId vouchesGiven) in
  let '(circularCount, partners) :=
    fold_left (countStep givenSet) vouchesReceived (0%nat, []) in
  let totalReceived := length vouchesReceived in
  let level :=
    if (0 <? circularCount)%nat then
      let r := ratio circularCount totalReceived in
      if QArith_base.Qle_bool half r || (5 <=? circularCount)%nat then high
      else if QArith_base.Qle_bool threeTenths r || (3 <=? circularCount)%nat then medium
      else low
    else none in
  mkFlags (0 <? circularCount)%nat circularCount partners level.

(** A received vouch that answers a vouch given: its author is the
    subject of a vouch given. *)
Definition reciprocated (vouchesGiven : list Vouch) (vouch : Vouch) : bool :=
  existsb (fun g => Z.eqb (subjectProfileId g) (authorProfileId vouch)) vouchesGiven.

End Sybil.

(** ** Scores as a response carries them: [getScoreTier] of
    [types/ethos.ts], [getTierForScore] and [getScoreColor] of
    [lib/constants.ts] on any number, [null] and a missing score *)

Module Scores.

(** A JavaScript number: a finite one (every finite double is a rational),
    an infinity, or [NaN]. *)
Inductive Number := Finite (q : QArith_base.Q) | PosInfinity | NegInfinity | NaN.

(** What a [score] field typed [number | null] holds once the JSON of a
    response is parsed: [null], a number, or [undefined] when the field is
    missing. *)
Inductive Score := null | undefined | number (x : Number).

(** [ToNumber], as the comparisons apply it. *)
Definition toNumber (score : Score) : Number :=
  match score with
  | null => Finite (QArith_base.inject_Z 0)
  | undefined => NaN
  | number x => x
  end.

(** [x >= c] for an integer [c]. *)
Definition ge (x : Number) (c : Z) : bool :=
  match x with
  | Finite q => QArith_base.Qle_bool (QArith_base.inject_Z c) q
  | PosInfinity => true
  | NegInfinity => false
  | NaN => false
  end.

(** [x <= c] for an integer [c] or, as [None], [Infinity]. *)
Definition le (x : Number) (c : option Z) : bool :=
  match x, c with
  | NaN, _ => false
  | Finite q, Some c => QArith_base.Qle_bool q (QArith_base.inject_Z c)
  | PosInfinity, Some _ => false
  | NegInfinity, Some _ => true
  | _, None => true
  end.

(** [getScoreTier] of [types/ethos.ts] *)
Definition getScoreTier (score : Score) : string :=
  match score with
  | null => "unscored"
  | _ =>
      let x := toNumber score in
      if ge x 2400 then "renowned"
      else if ge x 2200 then "revered"
      else if ge x 2000 then "distinguished"
      else if ge x 1800 then "exemplary"
      else if ge x 1600 then "reputable"
      else if ge x 1400 then "established"
      else if ge x 1200 then "known"
      else if ge x 1000 then "neutral"
      else if ge x 800 then "questionable"
      else "untrusted"
  end.

(** [score >= t.min && score <= t.max] *)
Definition inTier (x : Number) (t : Tiers.ScoreTier) : bool :=
  ge x (Tiers.min t) && le x (Tiers.max t).

(** [getTierForScore] and [getScoreColor] of [lib/constants.ts] *)
Definition getTierForScore (score : Score) : option Tiers.ScoreTier :=
  match score with
  | null => None
  | _ =>
      match List.find (inTier (toNumber score)) Tiers.SCORE_TIERS with
      | Some t => Some t
      | None => Some Tiers.firstTier
      end
  end.

Definition getScoreColor (score : Score) : string :=
  match getTierForScore score with
  | Some t => Tiers.color t
  | None => Tiers.UNSCORED_COLOR
  end.

(** An integer score. *)
Definition integer (z : Z) : Score := number (Finite (QArith_base.inject_Z z)).

(** The number lies strictly between two rows of the table: above the
    [max] of one and below the [min] of the next. *)
Definition betweenRows (x : Number) : bool :=
  existsb (fun rows => negb (le x (Tiers.max (fst rows)))
                       && negb (ge x (Tiers.min (snd rows)))
                       && ge x (Tiers.min (fst rows)))
          (combine Tiers.SCORE_TIERS (tl Tiers.SCORE_TIERS)).

(** Where the row of a name starts; 0 for a name of no row. *)
Definition startOf (tierName : string) : Z :=
  match List.find (fun t => String.eqb (Tiers.name t) tierName) Tiers.SCORE_TIERS with
  | Some t => Tiers.min t
  | None => 0
  end.

End Scores.

(** ** The profile card: tier, colour and check mark of [HudCard] *)

Module HudCard.

(** [const tier = getScoreTier(user.score)] *)
Definition tier (score : Scores.Score) : string := Scores.getScoreTier score.

(** [const color = getScoreColor(user.score)] *)
Definition color (score : Scores.Score) : string := Scores.getScoreColor score.

Definition verifiedTiers : list string :=
  ["renowned"; "revered"; "distinguished"; "exemplary"; "reputable";
   "established"; "known"].

(** [verifiedTiers.includes(tier)] *)
Definition verified (score : Scores.Score) : bool :=
  existsb (String.eqb (tier score)) verifiedTiers.

End HudCard.

(** ** The security scan: [RiskShield], [checkGoPlus], [checkGoPlusChain]
    and [checkScamSniffer] *)

Module RiskShield.
Import Eff.

(** A JSON value as far as the flag tests tell values apart. *)
Inductive Json := JString (s : string) | JNumber (n : Z) | JOther.

(** [v === '1' || v === 1] *)
Definition isOne (v : Json) : bool :=
  match v with
  | JString s => String.eqb s "1"
  | JNumber n => n =? 1
  | JOther => false
  end.

(** The fields read from [data.result]. *)
Record Security := mkSecurity {
  malicious_address : Json;
  phishing_activities : Json;
  blacklist_doubt : Json;
  honeypot_related_address : Json;
  stealing_attack : Json;
  fake_kyc : Json;
  blackmail_activities : Json;
  sanctioned : Json;
  money_laundering : Json;
  cybercrime : Json;
  financial_crime : Json
}.

(** The response of the address-security service: [ok], and [data.result]
    of the parsed body: [Threw] when [response.json()] rejects or [data]
    has no properties to read, [None] when [result] is falsy or no
    object. *)
Record GoPlusResponse := mkGoPlus {
  g_ok : bool;
  g_result : Content.Outcome (option Security)
}.

(** The response of the blacklist: [ok], and the parsed body as a list of
    strings ([Threw] when it cannot be parsed or mapped as one). *)
Record ListResponse := mkList {
  l_ok : bool;
  l_body : Content.Outcome (list string)
}.

(** The two services, by URL. *)
Record Net := mkNet {
  goPlus : string -> Content.Outcome GoPlusResponse;
  scamSniffer : string -> Content.Outcome ListResponse
}.

Inductive ScanStatus := idle | scanning | safe | danger | error.

Record RiskShieldResult := mkResult {
  r_status : ScanStatus;
  r_address : string;
  goPlusFlags : list string;
  scamSnifferBlacklisted : bool;
  r_timestamp : Z
}.

(** What [runScan] stores under the cache key. *)
Record CacheData := mkCache {
  c_status : ScanStatus;
  c_timestamp : Z;
  c_goPlusFlags : list string;
  c_scamSnifferMatch : bool
}.

(** The state of the component, [chrome.storage.local] and the URLs
    fetched so far. *)
Record Shield := mkShield {
  status : ScanStatus;
  result : option RiskShieldResult;
  local : gmap string CacheData;
  requests : list string
}.

Definition set_status (v : ScanStatus) (sh : Shield) : Shield :=
  mkShield v (result sh) (local sh) (requests sh).

Definition set_result (v : option RiskShieldResult) (sh : Shield) : Shield :=
  mkShield (status sh) v (local sh) (requests sh).

Definition set_local (f : gmap string CacheData -> gmap string CacheData)
    (sh : Shield) : Shield :=
  mkShield (status sh) (result sh) (f (local sh)) (requests sh).

Definition fetchGoPlus (net : Net) (url : string) : M Shield GoPlusResponse :=
  fun sh => (goPlus net url,
             mkShield (status sh) (result sh) (local sh) (requests sh ++ [url])).

Definition fetchList (net : Net) (url : string) : M Shield ListResponse :=
  fun sh => (scamSniffer net url,
             mkShield (status sh) (result sh) (local sh) (requests sh ++ [url])).

Definition CHAINS : list (N * string) :=
  [ (1, "Ethereum"); (56, "BSC"); (137, "Polygon"); (42161, "Arbitrum");
    (8453, "Base"); (10, "Optimism") ]%N.

(** What the checks return: [isDangerous], and [flags] where given. *)
Record Check := mkCheck { isDangerous : bool; flags : option (list string) }.

(** [if (v === '1' || v === 1) flags.push(label)] *)
Definition flag (v : Json) (label : string) : list string :=
  if isOne v then [label] else [].

Definition flagsOf (result : Security) : list string :=
  flag (malicious_address result) "Malicious"
  ++ flag (phishing_activities result) "Phishing"
  ++ flag (blacklist_doubt result) "Blacklisted"
  ++ flag (honeypot_related_address result) "Honeypot"
  ++ flag (stealing_attack result) "Stealing"
  ++ flag (fake_kyc result) "Fake KYC"
  ++ flag (blackmail_activities result) "Blackmail"
  ++ flag (sanctioned result) "Sanctioned"
  ++ flag (money_laundering result) "Money Laundering"
  ++ flag (cybercrime result) "Cybercrime"
  ++ flag (financial_crime result) "Financial Crime".

(** A chain id as it is printed into the URL. *)
Definition decimal (chainId : N) : string :=
  NilEmpty.string_of_uint (N.to_uint chainId).

Definition chainUrl (address : string) (chainId : N) : string :=
  ("https://api.gopluslabs.io/api/v1/address_security/" ++ address
   ++ "?chain_id=" ++ decimal chainId)%string.

Definition checkGoPlusChain (net : Net) (address : string) (chainId : N)
    (chainName : string) : M Shield Check :=
  tryCatch
    (let url := chainUrl address chainId in
     let! response := fetchGoPlus net url in
     if negb (g_ok response) then ret (mkCheck false None)
     else
       let! result := settle (g_result response) in
       match result with
       | None => ret (mkCheck false None)
       | Some result =>
           let flags := flagsOf result in
           if (0 <? length flags)%nat then ret (mkCheck true (Some flags))
           else ret (mkCheck false None)
       end)
    (ret (mkCheck false None)).

(** [Promise.all(l.map(f))]: the calls are started in the order of the
    list, and the results are in that order. *)
Fixpoint all {A B : Type} (f : A -> M Shield B) (l : list A) : M Shield (list B) :=
  match l with
  | [] => ret []
  | x :: l' =>
      let! y := f x in
      let! ys := all f l' in
      ret (y :: ys)
  end.

(** [[...new Set(l)]]: the elements in the order of their first
    occurrence. *)
Definition unique (l : list string) : list string :=
  fold_left (fun seen x => if existsb (String.eqb x) seen then seen else seen ++ [x])
            l [].

(** [if (result.isDangerous && result.flags) allFlags.push(...result.flags)] *)
Definition pushFlags (allFlags : list string) (result : Check) : list string :=
  if isDangerous result then
    match flags result with
    | Some fl => allFlags ++ fl
    | None => allFlags
    end
  else allFlags.

Definition checkGoPlus (net : Net) (address : string) : M Shield Check :=
  let! results :=
    all (fun chain => checkGoPlusChain net address (fst chain) (snd chain)) CHAINS in
  let allFlags := fold_left pushFlags results [] in
  let uniqueFlags := unique allFlags in
  if (0 <? length uniqueFlags)%nat then ret (mkCheck true (Some uniqueFlags))
  else ret (mkCheck false None).

Definition SCAM_URL : string :=
  "https://raw.githubusercontent.com/scamsniffer/scam-database/main/blacklist/address.json".

Definition checkScamSniffer (net : Net) (address : string) : M Shield bool :=
  tryCatch
    (let! response := fetchList net SCAM_URL in
     if negb (l_ok response) then ret false
     else
       let! blacklist := settle (l_body response) in
       let normalizedBlacklist := map JS.toLowerCase blacklist in
       if existsb (String.eqb (JS.toLowerCase address)) normalizedBlacklist
       then ret true else ret false)
    (ret false).

(** [address?.toLowerCase() || ''] *)
Definition normalizedAddress (address : string) : string := JS.toLowerCase address.

Definition cacheKey (address : string) : string :=
  ("riskshield:" ++ normalizedAddress address)%string.

(** [chrome.storage.local.set({ [cacheKey]: cacheData })]; the call throws
    when the storage is not there to be called. *)
Definition localSet (storageWorks : bool) (key : string) (d : CacheData)
  : M Shield unit :=
  if storageWorks then modify (set_local (fun l => <[key := d]> l)) else throw.

(** [runScan]; [now1] and [now2] are its two readings of the clock. *)
Definition runScan (net : Net) (storageWorks : bool) (now1 now2 : Z)
    (address : string) : M Shield unit :=
  if negb (JS.truthy address) || negb (String.length address =? 42)%nat then ret tt
  else
    do! modify (set_status scanning) then
    tryCatch
      (let! goPlusResult := checkGoPlus net (normalizedAddress address) in
       let! scamSnifferResult := checkScamSniffer net (normalizedAddress address) in
       let '(finalStatus, fl) :=
         if isDangerous goPlusResult
         then (danger, match flags goPlusResult with Some f => f | None => [] end)
         else (safe, []) in
       let finalStatus := if scamSnifferResult then danger else finalStatus in
       let newResult :=
         mkResult finalStatus (normalizedAddress address) fl scamSnifferResult now1 in
       let cacheData := mkCache finalStatus now2 fl scamSnifferResult in
       do! localSet storageWorks (cacheKey address) cacheData then
       do! modify (set_status finalStatus) then
       modify (set_result (Some newResult)))
      (modify (set_status error)).

(** The effect that runs when the component is shown for [address]: a scan
    stored less than 24 hours ago is shown again. *)
Definition restore (now : Z) (address : string) (sh : Shield) : Shield :=
  if JS.truthy address && (String.length address =? 42)%nat then
    match local sh !! cacheKey address with
    | Some cached =>
        if now - c_timestamp cached <? 86400000 then
          set_result
            (Some (mkResult (c_status cached) (normalizedAddress address)
                            (c_goPlusFlags cached) (c_scamSnifferMatch cached)
                            (c_timestamp cached)))
            (set_status (c_status cached) sh)
        else sh
    | None => sh
    end
  else sh.

(** The state after fetching [urls]. *)
Definition asked (urls : list string) (sh : Shield) : Shield :=
  mkShield (status sh) (result sh) (local sh) (requests sh ++ urls).

(** What a check answers that found the flags [fl]. *)
Definition verdict (fl : list string) : Check :=
  if (0 <? length fl)%nat then mkCheck true (Some fl) else mkCheck false None.

(** The URLs of one scan. *)
Definition scanUrls (address : string) : list string :=
  map (fun chain => chainUrl (normalizedAddress address) (fst chain)) CHAINS ++ [SCAM_URL].

(** The flags of the record a chain answers with for the address; none
    when it does not answer with one. *)
Definition chainFlags (net : Net) (address : string) (chain : N * string)
  : list string :=
  match goPlus net (chainUrl address (fst chain)) with
  | Content.Returned response =>
      if g_ok response then
        match g_result response with
        | Content.Returned (Some result) => flagsOf result
        | _ => []
        end
      else []
  | Content.Threw => []
  end.

(** The blacklist is delivered and holds the address, in any case of
    letters. *)
Definition blacklisted (net : Net) (address : string) : bool :=
  match scamSniffer net SCAM_URL with
  | Content.Returned response =>
      if l_ok response then
        match l_body response with
        | Content.Returned blacklist =>
            existsb (fun a => String.eqb (JS.toLowerCase a) (JS.toLowerCase address))
                    blacklist
        | Content.Threw => false
        end
      else false
  | Content.Threw => false
  end.

End RiskShield.

(** ** The lookup of the popup: [handleLookup] of [popup/index.tsx] *)

Module Popup.
Import Eff.

Record Popup := mkPopup {
  input : string;
  address : option string;
  resolving : bool;
  inputError : option string
}.

Definition setAddress (v : option string) (p : Popup) : Popup :=
  mkPopup (input p) v (resolving p) (inputError p).

Definition setResolving (v : bool) (p : Popup) : Popup :=
  mkPopup (input p) (address p) v (inputError p).

Definition setInputError (v : option string) (p : Popup) : Popup :=
  mkPopup (input p) (address p) (resolving p) v.

(** [/^0x[a-fA-F0-9]{40}$/.test(addr)]: the pattern matches at the start
    and the match ends where the string ends. *)
Definition isValidAddress (addr : string) : bool :=
  match Matcher.matchAtoms false Matcher.ethAddress None (JS.chars addr) with
  | Some n => (n =? String.length addr)%nat
  | None => false
  end.

Definition isENSName (name : string) : bool :=
  Str.includes ".eth" name || Str.includes ".base.eth" name.

Definition quoted (s : string) : string :=
  (String "034"%char s ++ String "034"%char EmptyString)%string.

(** [handleLookup]; [sendMessage name] is how
    [chrome.runtime.sendMessage({ type: 'RESOLVE_NAME', name })] settles,
    as [response?.address]. *)
Definition handleLookup (sendMessage : string -> Content.Outcome (option string))
  : M Popup unit :=
  let! input := read input in
  let trimmed := JS.toLowerCase (Str.trim input) in
  if negb (JS.truthy trimmed) then ret tt
  else
    do! modify (setInputError None) then
    if isENSName trimmed then
      do! modify (setResolving true) then
      do! tryCatch
            (let! response := settle (sendMessage trimmed) in
             match JS.orUndefined response with
             | Some a => modify (setAddress (Some a))
             | None =>
                 do! modify (setInputError
                       (Some ("Could not resolve " ++ quoted trimmed
                              ++ ". Name not found.")%string)) then
                 modify (setAddress None)
             end)
            (do! modify (setInputError
                   (Some ("Failed to resolve " ++ quoted trimmed
                          ++ ". Please try again.")%string)) then
             modify (setAddress None)) then
      modify (setResolving false)
    else if isValidAddress trimmed then modify (setAddress (Some trimmed))
    else
      do! modify (setInputError
            (Some "Invalid input. Please enter a valid address (0x...), ENS (name.eth), or Basename (name.base.eth).")) then
      modify (setAddress None).

(** The message answered by the listener of the background worker, whose
    requests so far are [log]. *)
Definition viaBackground (net : Background.Net) (log : Background.Log) (name : string)
  : Content.Outcome (option string) :=
  fst (Background.onResolveName net name log).

End Popup.

(** ** Vocabulary for the statements about annotation *)

Module Page.
Import Dom.

(** The identities of the nodes at and below a node. *)
Fixpoint nodeIds (n : Node) : list nat :=
  match n with
  | TextNode i _ => [i]
  | Element i _ _ _ kids => i :: flat_map nodeIds kids
  end.

(** Every node of the document has an identity of its own. *)
Definition uniqueIds (d : Document) : Prop :=
  List.NoDup (flat_map nodeIds (roots d)).

(** The text a list of sibling nodes renders. *)
Definition textOfAll (l : list Node) : string :=
  fold_right (fun k acc => (textOf k ++ acc)%string) EmptyString l.

(** No two matches reported for a text overlap. *)
Definition disjointMatches (txt : string) : Prop :=
  ForallOrdPairs (fun a b => ~ Matcher.spansOverlap a b) (Matcher.collectMatches txt).

(** A match is the text found at its index, and is not empty. *)
Definition foundIn (txt : string) (m : Matcher.Match) : Prop :=
  Matcher.text m = JS.slice txt (Matcher.index m) (Matcher.spanEnd m)
  /\ (Matcher.spanEnd m <= String.length txt)%nat
  /\ (0 < String.length (Matcher.text m))%nat.

(** [a] lies wholly after [b] in the text. *)
Definition after (a b : Matcher.Match) : Prop :=
  (Matcher.spanEnd b <= Matcher.index a)%nat.

(** The order of [matches.sort((a, b) => b.index - a.index)]. *)
Definition byIndexDesc (a b : Matcher.Match) : Prop :=
  (Matcher.index b <= Matcher.index a)%nat.

End Page.

(** ** Vocabulary for the statements about timers *)

Module Timers.
Import Content.

(** The pending hide timers are the one the script holds in [hideTimeout]. *)
Definition hideHeld (s : State) : Prop :=
  Forall (fun t => t_cb t = CbHide -> hideTimeout (hover s) = Some (t_id t))
         (timers (sched s)).

(** The pending flush timers are the one the script holds in
    [observerTimeout]. *)
Definition flushHeld (s : State) : Prop :=
  Forall (fun t => t_cb t = CbProcessPendingNodes -> observerTimeout s = Some (t_id t))
         (timers (sched s)).

Definition isFlush (t : Timer) : bool :=
  match t_cb t with CbProcessPendingNodes => true | _ => false end.

Definition isHide (t : Timer) : bool :=
  match t_cb t with CbHide => true | _ => false end.

(** What a cleared handle leaves of the timers. *)
Definition cleared (h : option nat) (l : list Timer) : list Timer :=
  match h with Some h => dropTimer h l | None => l end.

End Timers.

(** ** Concrete inputs for the client and the vault *)

Module Cases.

(** A network that is down, and one whose every answer is the body 1450. *)
Definition netDown : Client.Net Z := Client.mkNet (fun _ _ => Content.Threw).

Definition netScore : Client.Net Z :=
  Client.mkNet (fun _ _ =>
    Content.Returned (Client.mkResponse 200 (Content.Returned (Some 1450)))).

Definition freshClient : Client.Client Z := Client.mkClient [] [].

Definition atZero : Client.Times := Client.mkTimes 0 0 0.

Definition salt16 : list Byte.byte := repeat Byte.x2a 16.
Definition iv12 : list Byte.byte := repeat Byte.x07 12.

(** An empty page with the session key [key] and the notes [notes]. *)
Definition world (key : option string) (notes : gmap string string) : Vault.World :=
  Vault.mkWorld (Content.set_vaultSessionKey key Scenario.emptyPage) notes None "" 0.

(** A vault created with the password [hunter2]. *)
Definition vaultOf : gmap string string :=
  match Crypto.createValidator Crypto.Toy.platform salt16 iv12 "hunter2" with
  | Some validator => {[ Vault.VALIDATOR := validator ]}
  | None => ∅
  end.

(** ensdata.net knows every name as the address [addrKey]; the DNS
    endpoint is never reached. *)
Definition netEns : Background.Net :=
  Background.mkNet
    (fun _ _ => Content.Returned
                  (Background.mkEns true
                     (Content.Returned (Background.Text Scenario.addrKey))))
    (fun _ _ => Content.Threw).

(** A storage whose second call rejects, and a text of 4100 characters. *)
Definition secondCallFails : Vault.Chrome :=
  Vault.mkChrome (fun n => negb (n =? 1)%nat).

Definition longText : string := JS.ofChars (repeat "a"%char 4100).

Definition someRecord : Content.IdentifierInfo :=
  Content.mkInfo Scenario.addr40 Matcher.eth None "unscored" None None None true.

(** No security service can be reached; and the services where only the
    blacklist answers, and holds [addr40]. *)
Definition shieldDown : RiskShield.Net :=
  RiskShield.mkNet (fun _ => Content.Threw) (fun _ => Content.Threw).

Definition shieldListed : RiskShield.Net :=
  RiskShield.mkNet
    (fun _ => Content.Threw)
    (fun _ => Content.Returned
                (RiskShield.mkList true (Content.Returned [Scenario.addr40]))).

Definition idleShield : RiskShield.Shield :=
  RiskShield.mkShield RiskShield.idle None ∅ [].

End Cases.

(** * Properties *)

(** ** Score tiers *)

Section TierFacts.
Import Tiers.

Lemma getTierForScore_name (s : Z) :
  tierName (getTierForScore (Some s)) = getScoreTier (Some s).
Proof.
  unfold getTierForScore, getScoreTier, SCORE_TIERS, inTier; simpl.
  repeat match goal with
         | |- context [if ?b then _ else _] => destruct b eqn:?
         end; simpl; try reflexivity; lia.
Qed.

(** C2.  Both classifiers are total functions of the score that agree with
    the breakpoint table: [getTierForScore] (named the way its callers name
    it) and [getScoreTier] give the same tier for every score, a score
    inside a row of the table gets that row, the four boundary values fall
    as the table says, every score of 2400 or more is renowned, and a null
    score is unscored, which is the name of no row. *)
Theorem tier_table_exact :
  (forall score, tierName (getTierForScore score) = getScoreTier score)
  /\ (forall s t, In t SCORE_TIERS -> inTier s t = true ->
                  getTierForScore (Some s) = Some t /\ getScoreTier (Some s) = name t)
  /\ getScoreTier (Some 1199) = "neutral"
  /\ getScoreTier (Some 1200) = "known"
  /\ getScoreTier (Some 2399) = "revered"
  /\ getScoreTier (Some 2400) = "renowned"
  /\ (forall s, 2400 <= s ->
                getScoreTier (Some s) = "renowned"
                /\ tierName (getTierForScore (Some s)) = "renowned")
  /\ getScoreTier None = "unscored"
  /\ getTierForScore None = None
  /\ (forall t, In t SCORE_TIERS -> name t <> "unscored").
Proof.
  assert (Hagree : forall score, tierName (getTierForScore score) = getScoreTier score).
  { intros [s|]; [apply getTierForScore_name | reflexivity]. }
  split; [exact Hagree|].
  split.
  { intros s t Hin Hs.
    assert (Hfind : getTierForScore (Some s) = Some t).
    { unfold getTierForScore, SCORE_TIERS in *. simpl in Hin.
      unfold inTier in *.
      repeat (destruct Hin as [<- | Hin]; [simpl in *; 
        repeat match goal with
               | |- context [if ?b then _ else _] => destruct b eqn:?
               end; simpl; try reflexivity; lia |]).
      destruct Hin. }
    split; [exact Hfind|].
    rewrite <- Hagree, Hfind. reflexivity. }
  repeat split; try reflexivity.
  - unfold getScoreTier. destruct (s >=? 2400) eqn:E; [reflexivity | lia].
  - rewrite Hagree. unfold getScoreTier.
    destruct (s >=? 2400) eqn:E; [reflexivity | lia].
  - intros t Hin. unfold SCORE_TIERS in Hin. simpl in Hin.
    repeat (destruct Hin as [<- | Hin]; [simpl; discriminate |]).
    destruct Hin.
Qed.

Lemma tier_table_exact_witness :
  getScoreTier (Some 5000) = "renowned"
  /\ getTierForScore (Some 1450)
     = Some (mkTier "established" 1400 (Some 1599) "#D0BCFF" "ESTABLISHED").
Proof.
  destruct tier_table_exact as (_ & Hrow & _ & _ & _ & _ & Hge & _).
  split.
  - apply (Hge 5000). lia.
  - apply (Hrow 1450). 
    + unfold SCORE_TIERS. simpl. tauto.
    + reflexivity.
Defined.

End TierFacts.

(** ** HTML escaping *)

Section EscapeFacts.
Import Dom.

Lemma chars_app (a b : string) :
  JS.chars (a ++ b)%string = JS.chars a ++ JS.chars b.
Proof.
  induction a as [|c a IH]; simpl; [reflexivity|].
  unfold JS.chars in *. simpl. now rewrite IH.
Qed.

Lemma string_app_assoc (a b c : string) :
  ((a ++ b) ++ c)%string = (a ++ (b ++ c))%string.
Proof. induction a as [|x a IH]; simpl; [reflexivity | now rewrite IH]. Qed.

Lemma replaceAll_app (c : ascii) (r a b : string) :
  JS.replaceAll c r (a ++ b)%string
  = (JS.replaceAll c r a ++ JS.replaceAll c r b)%string.
Proof.
  induction a as [|d a IH]; simpl; [reflexivity|].
  destruct (Ascii.eqb d c); rewrite IH.
  - now rewrite string_app_assoc.
  - reflexivity.
Qed.

(** A replacement pass leaves no occurrence of the replaced character,
    unless the replacement text brings one. *)
Lemma replaceAll_occurs (c : ascii) (r s : string) (x : ascii) :
  occurs x (JS.replaceAll c r s) ->
  (x <> c /\ occurs x s) \/ occurs x r.
Proof.
  unfold occurs. induction s as [|d s IH]; simpl; [tauto|].
  destruct (Ascii.eqb_spec d c) as [->|Hne].
  - rewrite chars_app, List.in_app_iff. intros [H|H]; [now right|].
    destruct (IH H) as [[? ?]|?]; [left; split; [assumption|now right] | now right].
  - unfold JS.chars. simpl. intros [<-|H].
    + left. split; [assumption | now left].
    + destruct (IH H) as [[? ?]|?]; [left; split; [assumption|now right] | now right].
Qed.

Lemma escapeHtml_cons (c : ascii) (s : string) :
  escapeHtml (String c s) = (entityOf c ++ escapeHtml s)%string.
Proof.
  unfold escapeHtml, entityOf.
  change (String c s) with (String c EmptyString ++ s)%string.
  rewrite !replaceAll_app.
  f_equal.
  destruct (Ascii.eqb_spec c "&") as [->|H1]; [reflexivity|].
  destruct (Ascii.eqb_spec c "<") as [->|H2]; [reflexivity|].
  destruct (Ascii.eqb_spec c ">") as [->|H3]; [reflexivity|].
  destruct (Ascii.eqb_spec c "034") as [->|H4]; [reflexivity|].
  destruct (Ascii.eqb_spec c "'") as [->|H5]; [reflexivity|].
  simpl.
  repeat match goal with
         | |- context [Ascii.eqb c ?d] =>
             destruct (Ascii.eqb_spec c d); [congruence|]; simpl
         end.
  reflexivity.
Qed.

Lemma escapeHtml_each (s : string) : escapeHtml s = escapeEach s.
Proof.
  induction s as [|c s IH]; [reflexivity|].
  rewrite escapeHtml_cons, IH. reflexivity.
Qed.

Lemma entityOf_safe (c x : ascii) :
  occurs x (entityOf c) -> unsafeChar x = false.
Proof.
  unfold entityOf, occurs.
  destruct (Ascii.eqb_spec c "&"); [simpl; intuition (subst; reflexivity)|].
  destruct (Ascii.eqb_spec c "<"); [simpl; intuition (subst; reflexivity)|].
  destruct (Ascii.eqb_spec c ">"); [simpl; intuition (subst; reflexivity)|].
  destruct (Ascii.eqb_spec c "034"); [simpl; intuition (subst; reflexivity)|].
  destruct (Ascii.eqb_spec c "'"); [simpl; intuition (subst; reflexivity)|].
  simpl. intros [<-|[]]. unfold unsafeChar.
  repeat match goal with
         | |- context [Ascii.eqb c ?d] =>
             destruct (Ascii.eqb_spec c d); [congruence|]; simpl
         end.
  reflexivity.
Qed.

Lemma escapeHtml_safe (s : string) (x : ascii) :
  occurs x (escapeHtml s) -> unsafeChar x = false.
Proof.
  rewrite escapeHtml_each. unfold occurs.
  induction s as [|c s IH]; simpl; [tauto|].
  rewrite chars_app, List.in_app_iff. intros [H|H]; [|auto].
  now apply (entityOf_safe c).
Qed.

(** C10.  [escapeHtml] replaces every character by its entity (an
    ampersand by [&amp;], and no entity is escaped twice), so its result
    holds none of the characters [<], [>], double quote and single quote;
    and every piece of record text that [showTooltip] interpolates (title,
    subtitle, [title] attribute, avatar source, note address) is such a
    result. *)
Theorem escapeHtml_no_markup :
  (forall s, escapeHtml s = escapeEach s)
  /\ (forall s, ~ occurs "<" (escapeHtml s) /\ ~ occurs ">" (escapeHtml s)
                /\ ~ occurs "034" (escapeHtml s) /\ ~ occurs "'" (escapeHtml s))
  /\ (forall data st x,
         unsafeChar x = true ->
         let c := Content.render data st in
         ~ occurs x (Content.tc_title c)
         /\ (forall sub, Content.tc_subtitle c = Some sub -> ~ occurs x sub)
         /\ ~ occurs x (Content.tc_titleAttr c)
         /\ (forall src, Content.tc_avatar c = Some src -> ~ occurs x src)
         /\ ~ occurs x (Content.tc_noteAddress c)).
Proof.
  split; [exact escapeHtml_each|].
  split.
  - intros s. repeat split; intros H; apply escapeHtml_safe in H; discriminate.
  - intros data st x Hx c.
    assert (Hsafe : forall s, ~ occurs x (escapeHtml s)).
    { intros s H. apply escapeHtml_safe in H. congruence. }
    subst c. unfold Content.render. simpl.
    repeat split; try apply Hsafe.
    + intros sub Hsub.
      destruct (JS.orUndefined (Content.ethosName data)); [|discriminate].
      destruct (JS.truthy _); simpl in Hsub; [|discriminate].
      injection Hsub as <-. apply Hsafe.
    + intros src Hsrc.
      destruct (JS.orUndefined (Content.avatarUrl data)); [|discriminate].
      destruct (Content.isHttpUrl s); [|discriminate].
      injection Hsrc as <-. apply Hsafe.
Qed.

Lemma escapeHtml_no_markup_witness :
  ~ occurs "<"
      (Content.tc_title
         (Content.render
            (Content.mkInfo "<img src=x onerror='a()'>.eth" Matcher.ens None
                            "unscored" None (Some "<b>bob</b>") None true)
            (Content.initial (mkDocument (Element 0 "BODY" "" false []) []) 1))).
Proof.
  destruct escapeHtml_no_markup as (_ & _ & H).
  apply H. reflexivity.
Defined.

End EscapeFacts.

(** ** Insertion-ordered maps *)

Section OMapFacts.
Context {V : Type}.
Implicit Types (m : list (string * V)) (k : string).

Lemma omap_delete_filter m k :
  OMap.wf m -> OMap.delete k m = List.filter (fun kv => negb (OMap.keyIs k kv)) m.
Proof.
  unfold OMap.wf, OMap.keys, OMap.keyIs. induction m as [|[k' v] m IH]; simpl; [reflexivity|].
  intros Hnd. inversion Hnd as [|? ? Hnotin Hnd']; subst.
  destruct (String.eqb_spec k' k) as [->|Hne]; simpl.
  - symmetry. apply List.forallb_filter_id. apply List.forallb_forall.
    intros [k2 v2] Hin. simpl.
    destruct (String.eqb_spec k2 k) as [->|]; [|reflexivity].
    exfalso. apply Hnotin. apply List.in_map_iff. exists (k, v2). split; [reflexivity|assumption].
  - f_equal. apply IH. assumption.
Qed.

Lemma omap_keys_filter (P : string * V -> bool) m :
  OMap.wf m -> OMap.wf (List.filter P m).
Proof.
  unfold OMap.wf, OMap.keys. induction m as [|kv m IH]; simpl; [auto|].
  intros Hnd. inversion Hnd as [|? ? Hnotin Hnd']; subst.
  destruct (P kv); simpl; [|auto].
  constructor; [|auto].
  intros Hin. apply Hnotin. apply List.in_map_iff in Hin as (x & Hx & Hin).
  apply List.filter_In in Hin as [Hin _]. apply List.in_map_iff. eauto.
Qed.

Lemma omap_wf_delete m k : OMap.wf m -> OMap.wf (OMap.delete k m).
Proof. intros H. rewrite omap_delete_filter by assumption. now apply omap_keys_filter. Qed.

Lemma omap_get_In m k v : OMap.get k m = Some v -> List.In (k, v) m.
Proof.
  induction m as [|[k' v'] m IH]; simpl; [discriminate|].
  destruct (String.eqb_spec k' k) as [->|Hne].
  - intros [= ->]. now left.
  - intros H. right. auto.
Qed.

Lemma omap_In_get m k v : OMap.wf m -> List.In (k, v) m -> OMap.get k m = Some v.
Proof.
  unfold OMap.wf, OMap.keys. induction m as [|[k' v'] m IH]; simpl; [tauto|].
  intros Hnd. inversion Hnd as [|? ? Hnotin Hnd']; subst.
  intros [[= -> ->]|Hin].
  - now rewrite String.eqb_refl.
  - destruct (String.eqb_spec k' k) as [->|Hne]; [|auto].
    exfalso. apply Hnotin. apply List.in_map_iff. exists (k, v). auto.
Qed.

Lemma omap_get_None m k : OMap.get k m = None <-> ~ List.In k (OMap.keys m).
Proof.
  unfold OMap.keys. induction m as [|[k' v'] m IH]; simpl; [tauto|].
  destruct (String.eqb_spec k' k) as [->|Hne].
  - split; [discriminate | intros H; exfalso; apply H; now left].
  - rewrite IH. tauto.
Qed.

Lemma omap_size_set m k v :
  OMap.size (OMap.set k v m)
  = if OMap.has k m then OMap.size m else S (OMap.size m).
Proof.
  unfold OMap.size, OMap.has. induction m as [|[k' v'] m IH]; simpl; [reflexivity|].
  destruct (String.eqb k' k); simpl; [reflexivity|].
  rewrite IH. destruct (OMap.get k m); reflexivity.
Qed.

Lemma omap_get_set_eq m k v : OMap.get k (OMap.set k v m) = Some v.
Proof.
  induction m as [|[k' v'] m IH]; simpl.
  - now rewrite String.eqb_refl.
  - destruct (String.eqb k' k) eqn:E; simpl.
    + now rewrite String.eqb_refl.
    + now rewrite E.
Qed.

Lemma omap_get_set_ne m k k' v : k <> k' -> OMap.get k' (OMap.set k v m) = OMap.get k' m.
Proof.
  intros Hne. induction m as [|[k2 v2] m IH]; simpl.
  - destruct (String.eqb_spec k k'); [contradiction|reflexivity].
  - destruct (String.eqb_spec k2 k) as [->|]; simpl.
    + destruct (String.eqb_spec k k'); [contradiction|reflexivity].
    + now rewrite IH.
Qed.

Lemma omap_keys_set_has m k v :
  OMap.has k m = true -> OMap.keys (OMap.set k v m) = OMap.keys m.
Proof.
  unfold OMap.has, OMap.keys. induction m as [|[k' v'] m IH]; simpl; [discriminate|].
  destruct (String.eqb_spec k' k) as [->|]; simpl; [reflexivity|].
  intros H. now rewrite IH.
Qed.

Lemma omap_keys_set_new m k v :
  OMap.has k m = false -> OMap.keys (OMap.set k v m) = OMap.keys m ++ [k].
Proof.
  unfold OMap.has, OMap.keys. induction m as [|[k' v'] m IH]; simpl; [reflexivity|].
  destruct (String.eqb_spec k' k) as [->|]; simpl; [discriminate|].
  intros H. now rewrite IH.
Qed.

Lemma omap_wf_set m k v : OMap.wf m -> OMap.wf (OMap.set k v m).
Proof.
  intros Hwf. unfold OMap.wf. destruct (OMap.has k m) eqn:E.
  - now rewrite omap_keys_set_has.
  - rewrite omap_keys_set_new by assumption.
    apply List.NoDup_app; [assumption | repeat constructor; simpl; tauto |].
    intros x Hx [->|[]]. unfold OMap.has in E.
    destruct (OMap.get x m) eqn:G; [discriminate|].
    apply omap_get_None in G. contradiction.
Qed.

End OMapFacts.

(** ** Distinct strings *)

Section DistinctFacts.
Import Scenario.

Lemma distinctb_NoDup (l : list string) : distinctb l = true -> List.NoDup l.
Proof.
  induction l as [|x l IH]; simpl; [constructor|].
  intros H. apply andb_true_iff in H as [Hx Hl]. constructor; [|auto].
  intros Hin. apply negb_true_iff in Hx.
  assert (existsb (String.eqb x) l = true); [|congruence].
  apply List.existsb_exists. exists x. split; [assumption | apply String.eqb_refl].
Qed.

End DistinctFacts.

(** ** The response cache *)

Section CacheFacts.
Import EthosClient.
Context {T : Type}.
Implicit Types (cache : list (string * CacheEntry T)).

Lemma delete_middle (a b : list (string * CacheEntry T)) k v :
  ~ List.In k (OMap.keys a) -> OMap.delete k (a ++ (k, v) :: b) = a ++ b.
Proof.
  unfold OMap.keys. induction a as [|[k' v'] a IH]; simpl; intros Hk.
  - now rewrite String.eqb_refl.
  - destruct (String.eqb_spec k' k) as [->|]; [tauto|].
    f_equal. apply IH. tauto.
Qed.

Lemma deleteExpired_suffix now (es pre : list (string * CacheEntry T)) :
  OMap.wf (pre ++ es) ->
  deleteExpired now es (List.filter (live now) pre ++ es)
  = List.filter (live now) (pre ++ es).
Proof.
  revert pre. induction es as [|[k v] es IH]; intros pre Hwf; simpl.
  - now rewrite !List.app_nil_r.
  - assert (Hk : ~ List.In k (OMap.keys (List.filter (live now) pre))).
    { unfold OMap.wf, OMap.keys in *. rewrite List.map_app in Hwf. simpl in Hwf.
      apply List.NoDup_remove_2 in Hwf. intros Hin. apply Hwf.
      apply List.in_or_app. left. apply List.in_map_iff in Hin as (x & <- & Hx).
      apply List.filter_In in Hx as [Hx _]. now apply List.in_map. }
    replace (pre ++ (k, v) :: es) with ((pre ++ [(k, v)]) ++ es) in *
      by now rewrite <- List.app_assoc.
    rewrite <- (IH (pre ++ [(k, v)]) Hwf).
    rewrite List.filter_app. simpl.
    change (live now (k, v)) with (negb (now >? expiresAt v)).
    destruct (now >? expiresAt v); simpl.
    + rewrite delete_middle by assumption. now rewrite List.app_nil_r.
    + now rewrite <- List.app_assoc.
Qed.

Lemma deleteExpired_filter now cache :
  OMap.wf cache -> deleteExpired now cache cache = List.filter (live now) cache.
Proof. intros Hwf. exact (deleteExpired_suffix now cache [] Hwf). Qed.

Lemma insertByExpiry_perm x (l : list (string * CacheEntry T)) :
  Permutation (insertByExpiry x l) (x :: l).
Proof.
  induction l as [|y l IH]; simpl; [reflexivity|].
  destruct (expiresAt (snd x) <=? expiresAt (snd y)); [reflexivity|].
  rewrite IH. apply perm_swap.
Qed.

Lemma sortByExpiry_perm (l : list (string * CacheEntry T)) :
  Permutation (sortByExpiry l) l.
Proof.
  induction l as [|x l IH]; simpl; [reflexivity|].
  rewrite insertByExpiry_perm. now constructor.
Qed.

Lemma insertByExpiry_sorted x (l : list (string * CacheEntry T)) :
  StronglySorted expiresNoLater l -> StronglySorted expiresNoLater (insertByExpiry x l).
Proof.
  induction 1 as [|y l Hs IH Hall]; simpl; [repeat constructor|].
  destruct (Z.leb_spec (expiresAt (snd x)) (expiresAt (snd y))) as [Hle|Hgt].
  - constructor; [now constructor|].
    constructor; [exact Hle|].
    eapply List.Forall_impl; [|exact Hall]. unfold expiresNoLater. intros; lia.
  - constructor; [assumption|].
    rewrite List.Forall_forall. intros z Hz.
    apply (Permutation_in _ (insertByExpiry_perm x l)) in Hz as [<-|Hz].
    + unfold expiresNoLater. lia.
    + rewrite List.Forall_forall in Hall. auto.
Qed.

Lemma sortByExpiry_sorted (l : list (string * CacheEntry T)) :
  StronglySorted expiresNoLater (sortByExpiry l).
Proof.
  induction l as [|x l IH]; simpl; [constructor | now apply insertByExpiry_sorted].
Qed.

Lemma sorted_app_le (a b : list (string * CacheEntry T)) x y :
  StronglySorted expiresNoLater (a ++ b) -> List.In x a -> List.In y b -> expiresNoLater x y.
Proof.
  induction a as [|z a IH]; simpl; [tauto|].
  intros Hs [->|Hx] Hy.
  - apply StronglySorted_inv in Hs as [_ Hall]. rewrite List.Forall_forall in Hall.
    apply Hall. apply List.in_or_app. now right.
  - apply StronglySorted_inv in Hs as [Hs _]. auto.
Qed.

Lemma perm_filter (P : string * CacheEntry T -> bool) (l l' : list (string * CacheEntry T)) :
  Permutation l l' -> Permutation (List.filter P l) (List.filter P l').
Proof.
  induction 1 as [|x l l' _ IH|x y l|l l' l'' _ IH1 _ IH2]; simpl.
  - constructor.
  - destruct (P x); [now constructor | assumption].
  - destruct (P x), (P y); try reflexivity. apply perm_swap.
  - etransitivity; eassumption.
Qed.

Lemma filter_none (P : string * CacheEntry T -> bool) (l : list (string * CacheEntry T)) :
  (forall x, List.In x l -> P x = false) -> List.filter P l = [].
Proof.
  induction l as [|x l IH]; simpl; intros H; [reflexivity|].
  rewrite (H x) by now left. apply IH. intros y Hy. apply H. now right.
Qed.

Lemma deleteKeys_filter (victims : list (string * CacheEntry T)) cache :
  OMap.wf cache ->
  deleteKeys victims cache
  = List.filter (fun kv => negb (inKeys (OMap.keys victims) kv)) cache.
Proof.
  unfold deleteKeys. revert cache.
  induction victims as [|[k v] victims IH]; intros cache Hwf; simpl.
  - symmetry. apply List.forallb_filter_id. apply List.forallb_forall. reflexivity.
  - rewrite IH by now apply omap_wf_delete.
    rewrite omap_delete_filter by assumption.
    clear. induction cache as [|[k' v'] cache IHc]; simpl; [reflexivity|].
    unfold OMap.keyIs at 1. simpl.
    destruct (String.eqb k' k); simpl; [assumption|].
    destruct (inKeys _ _); simpl; now rewrite IHc.
Qed.

Lemma inKeys_spec (ks : list string) (kv : string * CacheEntry T) :
  inKeys ks kv = true <-> List.In (fst kv) ks.
Proof.
  unfold inKeys. rewrite List.existsb_exists. split.
  - intros (x & Hx & E). apply String.eqb_eq in E. now subst.
  - intros H. exists (fst kv). split; [assumption | apply String.eqb_refl].
Qed.

(** Dropping the keys of a prefix of a permutation of the cache keeps
    exactly the rest of that permutation. *)
Lemma evict_prefix cache (sorted : list (string * CacheEntry T)) n :
  OMap.wf cache -> Permutation sorted cache ->
  Permutation (deleteKeys (firstn n sorted) cache) (skipn n sorted).
Proof.
  intros Hwf Hperm. rewrite deleteKeys_filter by assumption.
  set (P := fun kv => negb (inKeys (OMap.keys (firstn n sorted)) kv)).
  rewrite <- (perm_filter P _ _ Hperm).
  assert (Hnd : List.NoDup (map fst sorted)).
  { eapply Permutation_NoDup; [|exact Hwf]. symmetry. now apply Permutation_map. }
  rewrite <- (List.firstn_skipn n sorted) at 1. rewrite <- (List.firstn_skipn n sorted) in Hnd.
  rewrite List.filter_app.
  assert (H1 : List.filter P (firstn n sorted) = []).
  { apply filter_none. intros kv Hin. subst P. simpl.
    apply negb_false_iff. apply inKeys_spec. now apply List.in_map. }
  assert (H2 : List.filter P (skipn n sorted) = skipn n sorted).
  { apply List.forallb_filter_id. apply List.forallb_forall. intros kv Hin. subst P. simpl.
    apply negb_true_iff. destruct (inKeys _ kv) eqn:E; [|reflexivity].
    apply inKeys_spec in E. rewrite List.map_app in Hnd.
    exfalso. revert Hnd E. generalize (firstn n sorted) as a.
    intros a Hnd E. apply (List.in_map fst) in Hin.
    induction a as [|z a IHa]; simpl in *; [tauto|].
    inversion Hnd as [|? ? Hz Hnd']; subst. destruct E as [E|E]; [|auto].
    apply Hz. apply List.in_or_app. right. unfold OMap.keys in *. congruence. }
  rewrite H1, H2. reflexivity.
Qed.

(** [getFromCache] expires lazily: an entry past its time is reported
    absent and deleted, a live one is returned and kept. *)
Lemma getFromCache_lazy now key cache (e : CacheEntry T) :
  OMap.get key cache = Some e ->
  getFromCache now key cache
  = if now >? expiresAt e then (None, OMap.delete key cache) else (Some (data e), cache).
Proof. intros H. unfold getFromCache. now rewrite H. Qed.

Lemma cleanup_wf now cache : OMap.wf cache -> OMap.wf (cleanup now cache).
Proof.
  intros Hwf. unfold cleanup.
  destruct (500 <? OMap.size cache)%nat; [|assumption].
  rewrite deleteExpired_filter by assumption.
  destruct (500 <? _)%nat; [|now apply omap_keys_filter].
  rewrite deleteKeys_filter by now apply omap_keys_filter.
  now repeat apply omap_keys_filter.
Qed.

(** C4, as amended.  A put into a cache of at most 500 entries evicts
    nothing.  A put into a cache that already holds more than 500 entries
    first deletes every expired entry; if more than 500 are left, it deletes
    entries of smallest [expiresAt] until exactly 500 are left, and what
    stays keeps its order.  The entry is stored after that, so a put leaves
    at most 501 entries. *)
Theorem setCache_trims_then_stores now now' key d ttl cache :
  OMap.wf cache ->
  let kept := cleanup now cache in
  let unexpired := List.filter (live now) cache in
  ((OMap.size cache <= 500)%nat -> kept = cache)
  /\ ((500 < OMap.size cache)%nat ->
      ((OMap.size unexpired <= 500)%nat -> kept = unexpired)
      /\ ((500 < OMap.size unexpired)%nat ->
          OMap.size kept = 500%nat
          /\ exists victims,
               Permutation unexpired (victims ++ kept)
               /\ (forall e e', List.In e victims -> List.In e' kept ->
                                expiresAt (snd e) <= expiresAt (snd e'))
               /\ kept = List.filter
                           (fun kv => negb (inKeys (OMap.keys victims) kv))
                           unexpired))
  /\ setCache now now' key d ttl cache = OMap.set key (mkEntry d (now' + ttl)) kept
  /\ OMap.get key (setCache now now' key d ttl cache) = Some (mkEntry d (now' + ttl))
  /\ (OMap.size (setCache now now' key d ttl cache) <= 501)%nat
  /\ OMap.wf (setCache now now' key d ttl cache).
Proof.
  intros Hwf kept unexpired.
  assert (Hgate : (OMap.size cache <= 500)%nat -> kept = cache).
  { intros Hle. subst kept. unfold cleanup.
    destruct (Nat.ltb_spec 500 (OMap.size cache)); [lia | reflexivity]. }
  assert (Hover : (500 < OMap.size cache)%nat ->
      ((OMap.size unexpired <= 500)%nat -> kept = unexpired)
      /\ ((500 < OMap.size unexpired)%nat ->
          OMap.size kept = 500%nat
          /\ exists victims,
               Permutation unexpired (victims ++ kept)
               /\ (forall e e', List.In e victims -> List.In e' kept ->
                                expiresAt (snd e) <= expiresAt (snd e'))
               /\ kept = List.filter
                           (fun kv => negb (inKeys (OMap.keys victims) kv))
                           unexpired)).
  { intros Hgt. subst kept. unfold cleanup.
    destruct (Nat.ltb_spec 500 (OMap.size cache)); [|lia].
    rewrite deleteExpired_filter by assumption. fold unexpired.
    assert (Hwfu : OMap.wf unexpired) by now apply omap_keys_filter.
    split.
    - intros Hle. destruct (Nat.ltb_spec 500 (OMap.size unexpired)); [lia | reflexivity].
    - intros Hgt'. destruct (Nat.ltb_spec 500 (OMap.size unexpired)); [|lia].
      set (n := (OMap.size unexpired - 500)%nat).
      pose proof (evict_prefix unexpired (sortByExpiry unexpired) n Hwfu
                    (sortByExpiry_perm unexpired)) as Hkept.
      split.
      + unfold OMap.size. rewrite (Permutation_length Hkept), List.length_skipn.
        rewrite (Permutation_length (sortByExpiry_perm unexpired)).
        subst n. unfold OMap.size in *. lia.
      + exists (firstn n (sortByExpiry unexpired)). repeat split.
        * rewrite Hkept, List.firstn_skipn. symmetry. apply sortByExpiry_perm.
        * intros e e' He He'.
          apply (Permutation_in _ Hkept) in He'.
          apply (sorted_app_le (firstn n (sortByExpiry unexpired))
                               (skipn n (sortByExpiry unexpired))); try assumption.
          rewrite List.firstn_skipn. apply sortByExpiry_sorted.
        * now apply deleteKeys_filter. }
  assert (Hsize : (OMap.size kept <= 500)%nat).
  { destruct (Nat.le_gt_cases (OMap.size cache) 500) as [Hle|Hgt].
    - now rewrite Hgate.
    - destruct (Hover Hgt) as [H1 H2].
      destruct (Nat.le_gt_cases (OMap.size unexpired) 500) as [Hle'|Hgt'].
      + now rewrite H1.
      + destruct (H2 Hgt') as [-> _]. lia. }
  split; [exact Hgate|]. split; [exact Hover|].
  unfold setCache. fold kept.
  split; [reflexivity|]. split; [apply omap_get_set_eq|]. split.
  - rewrite omap_size_set. destruct (OMap.has key kept); lia.
  - apply omap_wf_set. now apply cleanup_wf.
Qed.

End CacheFacts.

(** ** The response cache at its ceiling *)

Section CacheInstances.
Import Scenario.

(** C4 as stated fails.  A put of a new key into a cache of 501 entries, all
    unexpired, leaves 501 entries, not 500; and a put of a new key into a
    cache of 500 entries, all expired, goes over the ceiling and deletes
    none of them. *)
Lemma setCache_exceeds_ceiling :
  let unexpired := filled 501 (fun i => 1000 + Z.of_nat i) in
  let expired := filled 500 (fun _ => 10) in
  OMap.size (EthosClient.setCache 100 100 "new" tt EthosClient.TTL_score unexpired) = 501%nat
  /\ OMap.size (EthosClient.setCache 100 100 "new" tt EthosClient.TTL_score expired) = 501%nat
  /\ OMap.get "k0" (EthosClient.setCache 100 100 "new" tt EthosClient.TTL_score expired)
     = Some (EthosClient.mkEntry tt 10).
Proof. vm_compute. repeat split. Qed.

Lemma setCache_trims_then_stores_witness :
  let cache := filled 503 (fun i => if (i <? 2)%nat then 10 else 2000 - Z.of_nat i) in
  OMap.size (EthosClient.cleanup 100 cache) = 500%nat
  /\ OMap.get "k502" (EthosClient.cleanup 100 cache) = None
  /\ OMap.size (EthosClient.setCache 100 100 "new" tt EthosClient.TTL_score cache) = 501%nat.
Proof.
  intros cache.
  assert (Hwf : OMap.wf cache) by (apply distinctb_NoDup; vm_compute; reflexivity).
  destruct (setCache_trims_then_stores 100 100 "new" tt EthosClient.TTL_score cache Hwf)
    as (_ & Hover & _ & _ & _ & _).
  destruct Hover as [_ Htrim]; [vm_compute; lia|].
  destruct Htrim as (Hsize & _); [vm_compute; lia|].
  split; [exact Hsize|]. split; vm_compute; reflexivity.
Defined.

End CacheInstances.

(** ** The identifier matcher *)

Section MatcherFacts.
Import Matcher Scenario.

(** The patterns on sample texts: case is ignored in names but not in the
    [0x] of an address; a name-service label needs three characters; an
    underscore is a word character, so no boundary lies next to it; a
    basename wins over the name-service candidate inside it. *)
Example matches_of_a_sentence :
  collectMatches "see vitalik.eth, Foo.Base.Eth and a-b.ETH"
  = [mkMatch "Foo.Base.Eth" 17 base; mkMatch "vitalik.eth" 4 ens;
     mkMatch "a-b.ETH" 34 ens].
Proof. reflexivity. Qed.

Example no_match_without_boundary :
  collectMatches "AB.eth x_y.eth .eth abc.ethx abc.eth_ -ab.eth" = [].
Proof. reflexivity. Qed.

Example address_needs_lower_x :
  collectMatches ("0X" ++ "52908400098527886E0F7030069857D2E4169EE7")%string = [].
Proof. reflexivity. Qed.

Example address_inside_longer_run :
  collectMatches ("x" ++ addr40 ++ "ff")%string = [mkMatch addr40 1 eth].
Proof. reflexivity. Qed.

Example basename_hides_ens_candidate :
  collectMatches "alice.base.eth.limo" = [mkMatch "alice.base.eth" 0 base].
Proof. reflexivity. Qed.

Example matches_in_reverse_order :
  sortMatches (collectMatches "a1.base.eth then bob.eth")
  = [mkMatch "bob.eth" 17 ens; mkMatch "a1.base.eth" 0 base].
Proof. reflexivity. Qed.

Lemma execLoop_from re inp : forall prev pos skip m,
  List.In m (execLoop re prev inp pos skip) -> (pos + skip <= fst m)%nat.
Proof.
  induction inp as [|c inp IH]; intros prev pos skip m; simpl.
  - destruct skip; simpl; [|tauto].
    destruct (matchAtoms _ _ _ _); simpl; [|tauto].
    intros [<-|[]]. simpl. lia.
  - destruct skip as [|skip].
    + destruct (matchAtoms _ _ _ _); simpl.
      * intros [<-|H]; [simpl; lia|]. apply IH in H. lia.
      * intros H. apply IH in H. lia.
    + intros H. apply IH in H. lia.
Qed.

(** Successive matches of one global regular expression never overlap:
    each starts at or after the end of the one before. *)
Lemma execLoop_ordered re inp : forall prev pos skip,
  ForallOrdPairs (fun a b => (fst a + snd a <= fst b)%nat)
                 (execLoop re prev inp pos skip).
Proof.
  induction inp as [|c inp IH]; intros prev pos skip; simpl.
  - destruct skip; simpl; [|constructor].
    destruct (matchAtoms _ _ _ _); repeat constructor.
  - destruct skip as [|skip]; [|apply IH].
    destruct (matchAtoms _ _ _ _); [|apply IH].
    constructor; [|apply IH].
    rewrite List.Forall_forall. intros m Hm. apply execLoop_from in Hm. simpl. lia.
Qed.

Lemma FOP_map {A B} (f : A -> B) (R : B -> B -> Prop) (l : list A) :
  ForallOrdPairs (fun a b => R (f a) (f b)) l -> ForallOrdPairs R (map f l).
Proof.
  induction 1 as [|a l Hall _ IH]; simpl; constructor; [|assumption].
  rewrite List.Forall_forall in *. intros b Hb.
  apply List.in_map_iff in Hb as (x & <- & Hx). auto.
Qed.

Lemma FOP_app {A} (R : A -> A -> Prop) (l1 l2 : list A) :
  ForallOrdPairs R l1 -> ForallOrdPairs R l2 ->
  (forall a b, List.In a l1 -> List.In b l2 -> R a b) ->
  ForallOrdPairs R (l1 ++ l2).
Proof.
  induction 1 as [|a l1 Hall _ IH]; simpl; intros H2 Hx; [assumption|].
  constructor.
  - rewrite List.Forall_forall in *. intros b Hb.
    apply List.in_app_or in Hb as [Hb|Hb]; [auto | apply Hx; [now left | assumption]].
  - apply IH; [assumption|]. intros a' b Ha' Hb. apply Hx; [now right | assumption].
Qed.

Lemma FOP_impl {A} (R S : A -> A -> Prop) (l : list A) :
  (forall a b, List.In a l -> List.In b l -> R a b -> S a b) ->
  ForallOrdPairs R l -> ForallOrdPairs S l.
Proof.
  intros HRS. induction 1 as [|a l Hall _ IH]; constructor.
  - rewrite List.Forall_forall in *. intros b Hb.
    apply HRS; [now left | now right | auto].
  - apply IH. intros x y Hx Hy. apply HRS; now right.
Qed.

Lemma length_ofChars (l : list ascii) : String.length (JS.ofChars l) = length l.
Proof. unfold JS.ofChars. induction l; simpl; congruence. Qed.

Lemma length_slice (s : string) (a b : nat) : (String.length (JS.slice s a b) <= b - a)%nat.
Proof. unfold JS.slice. rewrite length_ofChars. apply List.firstn_le_length. Qed.

(** The matches of one pattern, as [Match] records of one type, are
    pairwise disjoint. *)
Lemma execAll_disjoint re ty txt :
  ForallOrdPairs (fun a b => (spanEnd a <= index b)%nat)
    (map (fun c => mkMatch (snd c) (fst c) ty) (execAll re txt)).
Proof.
  unfold execAll. rewrite List.map_map. apply FOP_map. simpl.
  eapply FOP_impl; [|apply execLoop_ordered].
  intros a b _ _ H. unfold spanEnd. simpl.
  pose proof (length_slice txt (fst a) (fst a + snd a)). simpl in H. lia.
Qed.

Lemma overlaps_spec i t m :
  spansOverlap (mkMatch t i ens) m -> overlaps i t m = true.
Proof.
  unfold spansOverlap, overlaps, spanEnd. simpl. intros [H1 H2].
  destruct (Nat.le_gt_cases (index m) i) as [Hle|Hgt].
  - apply orb_true_iff. left. apply andb_true_iff. split.
    + now apply Nat.leb_le.
    + now apply Nat.ltb_lt.
  - apply orb_true_iff. right. apply andb_true_iff. split.
    + apply Nat.leb_le. lia.
    + now apply Nat.ltb_lt.
Qed.

Lemma spansOverlap_sym a b : spansOverlap a b -> spansOverlap b a.
Proof. unfold spansOverlap. tauto. Qed.

Lemma ensStep_keeps (l : list Match) (c : nat * string) :
  ForallOrdPairs onlyEthBase l -> ForallOrdPairs onlyEthBase (ensStep l c).
Proof.
  intros Hl. unfold ensStep.
  destruct (endsWith _ _); [assumption|].
  destruct (existsb _ l) eqn:E; [assumption|].
  apply FOP_app; [assumption | repeat constructor |].
  intros a b Ha [<-|[]] Hov. exfalso.
  apply spansOverlap_sym, overlaps_spec in Hov.
  assert (existsb (overlaps (fst c) (snd c)) l = true); [|congruence].
  apply List.existsb_exists. eauto.
Qed.

Lemma fold_ensStep_keeps (cs : list (nat * string)) (l : list Match) :
  ForallOrdPairs onlyEthBase l -> ForallOrdPairs onlyEthBase (fold_left ensStep cs l).
Proof.
  revert l. induction cs as [|c cs IH]; intros l Hl; simpl; [assumption|].
  apply IH. now apply ensStep_keeps.
Qed.

(** What holds of the match collection on every text: matches of the same
    pattern are disjoint, and a name-service match overlaps no other match;
    the only overlap left open is an address with a basename. *)
Lemma collectMatches_overlaps (txt : string) :
  ForallOrdPairs onlyEthBase (collectMatches txt).
Proof.
  unfold collectMatches. apply fold_ensStep_keeps.
  apply FOP_app.
  - eapply FOP_impl; [|apply execAll_disjoint].
    intros a b _ _ H [H1 H2]. unfold spanEnd in *. lia.
  - eapply FOP_impl; [|apply execAll_disjoint].
    intros a b _ _ H [H1 H2]. unfold spanEnd in *. lia.
  - intros a b Ha Hb _.
    apply List.in_map_iff in Ha as (x & <- & _).
    apply List.in_map_iff in Hb as (y & <- & _). split; reflexivity.
Qed.

Lemma matchAtoms_length ci atoms : forall prev inp n,
  matchAtoms ci atoms prev inp = Some n -> (minLen atoms <= n <= length inp)%nat.
Proof.
  induction atoms as [|a rest IH]; intros prev inp n; simpl.
  - intros [= <-]. lia.
  - destruct a as [|l|ranges lo hi].
    + destruct (xorb _ _); [apply IH | discriminate].
    + destruct inp as [|c inp]; [discriminate|].
      destruct (matchLit ci l c); [|discriminate].
      destruct (matchAtoms ci rest (Some c) inp) as [m|] eqn:E; simpl; [|discriminate].
      intros [= <-]. apply IH in E. simpl. lia.
    + enough (Hrep : forall inp count prev n,
                 (fix rep (count : nat) (prev : option ascii) (inp : list ascii)
                      {struct inp} : option nat :=
                    let stop := if (lo <=? count)%nat then matchAtoms ci rest prev inp else None in
                    match inp with
                    | c :: inp' =>
                        if inClass ci ranges c && belowMax count hi then
                          match rep (S count) (Some c) inp' with
                          | Some n => Some (S n)
                          | None => stop
                          end
                        else stop
                    | [] => stop
                    end) count prev inp = Some n ->
                 ((lo - count) + minLen rest <= n <= length inp)%nat).
      { intros H. apply Hrep in H. lia. }
      clear prev inp n. induction inp as [|c inp IHinp]; intros count prev n.
      * destruct (Nat.leb_spec lo count) as [Hlo|Hlo]; [|discriminate].
        intros Hm. apply IH in Hm. simpl in *. lia.
      * assert (Hstop : (if (lo <=? count)%nat then matchAtoms ci rest prev (c :: inp) else None) = Some n ->
                        (lo - count + minLen rest <= n <= length (c :: inp))%nat).
        { destruct (Nat.leb_spec lo count) as [Hlo|Hlo]; [|discriminate].
          intros Hm. apply IH in Hm. lia. }
        destruct (inClass ci ranges c && belowMax count hi); [|exact Hstop].
        match goal with
        | |- context [match ?r with Some _ => _ | None => _ end] => destruct r as [m|] eqn:E
        end; [|exact Hstop].
        intros [= <-]. apply IHinp in E. simpl. lia.
Qed.

Lemma skipn_cons_S {A} (l : list A) p c r : skipn p l = c :: r -> skipn (S p) l = r.
Proof.
  revert l. induction p as [|p IH]; intros [|x l]; simpl; try discriminate.
  - now intros [= _ ->].
  - intros H. apply IH in H. destruct l; simpl in *; assumption.
Qed.

(** Every pair the loop returns is a match of the pattern at that index. *)
Lemma execLoop_sound re (txt : list ascii) : forall inp prev pos skip i n,
  inp = skipn pos txt ->
  List.In (i, n) (execLoop re prev inp pos skip) ->
  exists prev', matchAtoms (ignoreCase re) (source re) prev' (skipn i txt) = Some n.
Proof.
  induction inp as [|c inp IH]; intros prev pos skip i n Hinp; simpl.
  - destruct skip; simpl; [|tauto].
    destruct (matchAtoms _ _ _ _) eqn:E; simpl; [|tauto].
    intros [[= <- <-]|[]]. rewrite <- Hinp. eauto.
  - symmetry in Hinp. pose proof (skipn_cons_S _ _ _ _ Hinp) as Hnext. symmetry in Hnext.
    destruct skip as [|skip]; [|now apply IH].
    destruct (matchAtoms _ _ _ _) eqn:E; simpl; [|now apply IH].
    intros [[= <- <-]|H]; [|now apply IH in H].
    rewrite Hinp. eauto.
Qed.

Lemma length_chars (s : string) : length (JS.chars s) = String.length s.
Proof. unfold JS.chars. induction s; simpl; congruence. Qed.

(** A reported match is at least as long as its pattern demands. *)
Lemma execAll_length re txt i t :
  List.In (i, t) (execAll re txt) -> (minLen (source re) <= String.length t)%nat.
Proof.
  unfold execAll. intros H. apply List.in_map_iff in H as ([i' n] & [= <- <-] & Hin).
  simpl. apply (execLoop_sound re (JS.chars txt)) in Hin as (prev' & Hm); [|reflexivity].
  apply matchAtoms_length in Hm. unfold JS.slice. rewrite length_ofChars.
  rewrite List.firstn_length_le; lia.
Qed.

Lemma fold_ensStep_In cs : forall l m,
  List.In m (fold_left ensStep cs l) -> List.In m l \/ type m = ens.
Proof.
  induction cs as [|c cs IH]; intros l m; simpl; [tauto|].
  intros H. apply IH in H as [H|H]; [|now right].
  unfold ensStep in H. destruct (endsWith _ _); [now left|].
  destruct (existsb _ l); [now left|].
  apply List.in_app_or in H as [H|[<-|[]]]; [now left | now right].
Qed.

Lemma FOP_In {A} (R : A -> A -> Prop) (l : list A) a b :
  ForallOrdPairs R l -> List.In a l -> List.In b l -> a = b \/ R a b \/ R b a.
Proof.
  induction 1 as [|x l Hall _ IH]; simpl; [tauto|].
  rewrite List.Forall_forall in Hall.
  intros [->|Ha] [->|Hb]; auto.
Qed.

(** A candidate of the broad family that overlaps an accepted match is
    dropped whole. *)
Lemma ensStep_discards (matches : list Match) (c : nat * string) (m : Match) :
  List.In m matches -> spansOverlap (mkMatch (snd c) (fst c) ens) m ->
  ensStep matches c = matches.
Proof.
  intros Hin Hov. unfold ensStep. destruct (endsWith _ _); [reflexivity|].
  replace (existsb _ matches) with true; [reflexivity|].
  symmetry. apply List.existsb_exists. exists m. split; [assumption|].
  now apply overlaps_spec.
Qed.

(** On every text: a name-service match overlaps no other reported match,
    and the span of a basename match is never reported as a name-service
    match as well. *)
Lemma ens_match_disjoint (txt : string) (a e : Match) :
  List.In a (collectMatches txt) -> List.In e (collectMatches txt) ->
  type e = ens -> a <> e -> ~ spansOverlap a e.
Proof.
  intros Ha He Hty Hne Hov.
  destruct (FOP_In _ _ a e (collectMatches_overlaps txt) Ha He) as [?|[H|H]];
    [contradiction | |].
  - destruct (H Hov) as [_ Hb]. congruence.
  - destruct (H (spansOverlap_sym _ _ Hov)) as [Ha' _]. congruence.
Qed.

Lemma basename_not_ens (txt : string) (b e : Match) :
  List.In b (collectMatches txt) -> List.In e (collectMatches txt) ->
  type b = base -> type e = ens ->
  ~ (index b = index e /\ text b = text e).
Proof.
  intros Hb He Htb Hte [Hi Ht].
  assert (Hlen : (10 <= String.length (text b))%nat).
  { unfold collectMatches in Hb. apply fold_ensStep_In in Hb as [Hb|Hb]; [|congruence].
    apply List.in_app_or in Hb as [Hb|Hb];
      apply List.in_map_iff in Hb as ([i t] & <- & Hin); simpl in *; [discriminate|].
    apply execAll_length in Hin. exact Hin. }
  apply (ens_match_disjoint txt b e Hb He Hte); [congruence|].
  unfold spansOverlap, spanEnd. rewrite <- Hi, <- Ht. lia.
Qed.

(** C1, at the input on which the code departs from it.  For an address
    directly followed by [.base.eth], the address pattern and the basename
    pattern both match from index 0; both matches are kept, so two
    reported spans overlap, and the splice that follows writes the text
    twice into the page. *)
Theorem address_basename_overlap :
  let txt := (addr40 ++ ".base.eth")%string in
  collectMatches txt = [mkMatch addr40 0 eth; mkMatch txt 0 base]
  /\ spansOverlap (mkMatch addr40 0 eth) (mkMatch txt 0 base)
  /\ Dom.textOf (Dom.body (Content.doc (Content.scanDOM 0 (Content.initial (page txt) 3))))
     = (txt ++ txt)%string.
Proof.
  vm_compute. repeat split; lia.
Qed.

End MatcherFacts.

(** ** Score writes, item by item *)

Section BatcherFacts.
Import Content Dom.

Lemma sameQueue_refl s : sameQueue s s.
Proof. repeat split. Qed.

Lemma sameQueue_trans s1 s2 s3 : sameQueue s1 s2 -> sameQueue s2 s3 -> sameQueue s1 s3.
Proof. unfold sameQueue. intuition congruence. Qed.

Lemma paintMarkers_same id t s : sameQueue s (paintMarkers id t s).
Proof.
  unfold paintMarkers. generalize (match OMap.get id (targetElements s) with
                                   | Some els => els | None => [] end).
  intros els. revert s. induction els as [|el els IH]; intros s; simpl.
  - apply sameQueue_refl.
  - eapply sameQueue_trans; [|apply IH]. repeat split.
Qed.

Lemma paintMarkers_data id t s :
  identifierData (paintMarkers id t s) = identifierData s.
Proof.
  unfold paintMarkers. generalize (match OMap.get id (targetElements s) with
                                   | Some els => els | None => [] end).
  intros els. revert s. induction els as [|el els IH]; intros s; simpl; [reflexivity|].
  now rewrite IH.
Qed.

Lemma paintMarkers_hover id t s : hover (paintMarkers id t s) = hover s.
Proof.
  unfold paintMarkers. generalize (match OMap.get id (targetElements s) with
                                   | Some els => els | None => [] end).
  intros els. revert s. induction els as [|el els IH]; intros s; simpl; [reflexivity|].
  now rewrite IH.
Qed.

Lemma showTooltip_same el d s : sameQueue s (showTooltip el d s).
Proof. unfold showTooltip. destruct (overlayRoot s); repeat split. Qed.

Lemma showTooltip_data el d s : identifierData (showTooltip el d s) = identifierData s.
Proof. unfold showTooltip. destruct (overlayRoot s); reflexivity. Qed.

Lemma updateScore_same key sc s : sameQueue s (updateScore key sc s).
Proof.
  unfold updateScore.
  destruct (identifierData s !! JS.toLowerCase key) as [d|]; simpl.
  - rewrite paintMarkers_hover. simpl.
    destruct (currentHover (hover s)) as [[el hid]|].
    + destruct (String.eqb hid (JS.toLowerCase key)); simpl.
      * eapply sameQueue_trans; [|apply showTooltip_same].
        eapply sameQueue_trans; [|apply paintMarkers_same]. repeat split.
      * eapply sameQueue_trans; [|apply paintMarkers_same]. repeat split.
    + eapply sameQueue_trans; [|apply paintMarkers_same]. repeat split.
  - rewrite paintMarkers_hover.
    destruct (currentHover (hover s)) as [[el hid]|]; apply paintMarkers_same.
Qed.

Lemma setResolved_same key r s : sameQueue s (setResolved key r s).
Proof. unfold setResolved. destruct (identifierData s !! key); repeat split. Qed.

Lemma applyProfile_same key u s : sameQueue s (applyProfile key u s).
Proof.
  unfold applyProfile. destruct (identifierData s !! key) as [d|]; [|apply sameQueue_refl].
  destruct (score d), (u_score u); try (repeat split; fail).
  eapply sameQueue_trans; [|apply paintMarkers_same]. repeat split.
Qed.

Lemma sameQueue_queueing s s' : sameQueue s s' -> sameQueueing s s'.
Proof. unfold sameQueue, sameQueueing. tauto. Qed.


(** The [try] block with its [catch] always returns, makes one or two
    calls for the item, and leaves the queue and the timers alone. *)
Lemma scoreAndProfile_returns env key addr s :
  exists s', scoreAndProfile env key addr s = (Returned tt, s')
             /\ sameQueueing s s'
             /\ exists seg, calls s' = calls s ++ mkCall key CallScore addr :: seg
                            /\ Forall (fun c => c_key c = key) seg.
Proof.
  unfold scoreAndProfile, tryCatch, bind, call, modify, ret.
  destruct (getScoreByAddress env (length (calls s)) addr) as [sr|].
  - set (s1 := updateScore key (option_map sr_score sr) (logCall (mkCall key CallScore addr) s)).
    assert (H1 : sameQueue (logCall (mkCall key CallScore addr) s) s1) by apply updateScore_same.
    assert (Hc1 : calls s1 = calls s ++ [mkCall key CallScore addr]).
    { destruct H1 as (_ & _ & _ & _ & -> & _). reflexivity. }
    assert (Hq1 : sameQueueing s s1).
    { apply sameQueue_queueing in H1. unfold sameQueueing in *. simpl in H1. exact H1. }
    destruct (getUserByAddress env (length (calls s1)) addr) as [[u|]|].
    + eexists. split; [reflexivity|]. split.
      * pose proof (applyProfile_same key u (logCall (mkCall key CallUser addr) s1)) as H2.
        apply sameQueue_queueing in H2. unfold sameQueueing in *. simpl in H2.
        intuition congruence.
      * exists [mkCall key CallUser addr].
        pose proof (applyProfile_same key u (logCall (mkCall key CallUser addr) s1)) as H2.
        destruct H2 as (_ & _ & _ & _ & -> & _). simpl. rewrite Hc1.
        rewrite <- List.app_assoc. split; [reflexivity | repeat constructor].
    + eexists. split; [reflexivity|]. split.
      * unfold sameQueueing in *. simpl. exact Hq1.
      * exists [mkCall key CallUser addr]. simpl. rewrite Hc1.
        rewrite <- List.app_assoc. split; [reflexivity | repeat constructor].
    + eexists. split; [reflexivity|]. split.
      * pose proof (updateScore_same key None (logCall (mkCall key CallUser addr) s1)) as H2.
        apply sameQueue_queueing in H2. unfold sameQueueing in *. simpl in H2.
        intuition congruence.
      * exists [mkCall key CallUser addr].
        pose proof (updateScore_same key None (logCall (mkCall key CallUser addr) s1)) as H2.
        destruct H2 as (_ & _ & _ & _ & -> & _). simpl. rewrite Hc1.
        rewrite <- List.app_assoc. split; [reflexivity | repeat constructor].
  - eexists. split; [reflexivity|]. split.
    + pose proof (updateScore_same key None (logCall (mkCall key CallScore addr) s)) as H2.
      apply sameQueue_queueing in H2. exact H2.
    + exists []. 
      pose proof (updateScore_same key None (logCall (mkCall key CallScore addr) s)) as H2.
      destruct H2 as (_ & _ & _ & _ & -> & _). split; [reflexivity | constructor].
Qed.

Lemma lowerChar_idem c : JS.lowerChar (JS.lowerChar c) = JS.lowerChar c.
Proof. destruct c as [[] [] [] [] [] [] [] []]; reflexivity. Qed.

Lemma toLowerCase_idem s : JS.toLowerCase (JS.toLowerCase s) = JS.toLowerCase s.
Proof. induction s as [|c s IH]; simpl; [reflexivity|]. now rewrite lowerChar_idem, IH. Qed.

Lemma resolveName_spec env key name s :
  resolveName env key name s
  = (Returned (resolution env s name), logCall (mkCall key CallResolve name) s).
Proof.
  unfold resolveName, resolution, tryCatch, bind, call, ret.
  destruct (sendMessage env (length (calls s)) name); reflexivity.
Qed.

Lemma updateScore_data key sc s d :
  identifierData s !! JS.toLowerCase key = Some d ->
  identifierData (updateScore key sc s) !! JS.toLowerCase key
  = Some (mkInfo (identifier d) (type d) sc (Tiers.tierName (Tiers.getTierForScore sc))
                 (resolvedAddress d) (ethosName d) (avatarUrl d) true).
Proof.
  intros Hd. unfold updateScore. rewrite Hd. simpl.
  rewrite paintMarkers_hover. simpl.
  assert (Hp : forall t, identifierData
              (paintMarkers (JS.toLowerCase key) t
                 (set_identifierData
                    (fun m => <[JS.toLowerCase key :=
                       mkInfo (identifier d) (type d) sc (Tiers.tierName (Tiers.getTierForScore sc))
                              (resolvedAddress d) (ethosName d) (avatarUrl d) true]> m) s))
              !! JS.toLowerCase key
            = Some (mkInfo (identifier d) (type d) sc (Tiers.tierName (Tiers.getTierForScore sc))
                           (resolvedAddress d) (ethosName d) (avatarUrl d) true)).
  { intros t. rewrite paintMarkers_data. simpl. apply lookup_insert_eq. }
  destruct (currentHover (hover s)) as [[el hid]|]; [|apply Hp].
  destruct (String.eqb hid (JS.toLowerCase key)); simpl; [|apply Hp].
  rewrite showTooltip_data. apply Hp.
Qed.

Lemma processItem_returns env item s :
  exists s', processItem env item s = (Returned tt, s')
             /\ sameQueueing s s'
             /\ addsCallsFor (keyOf item) s s'.
Proof.
  unfold processItem. fold (keyOf item).
  assert (Hscore : forall addr s0,
             exists s', scoreAndProfile env (keyOf item) addr s0 = (Returned tt, s')
                        /\ sameQueueing s0 s' /\ addsCallsFor (keyOf item) s0 s').
  { intros addr s0.
    destruct (scoreAndProfile_returns env (keyOf item) addr s0) as (s' & E & Hq & seg & Hc & Hk).
    exists s'. split; [assumption|]. split; [assumption|].
    exists (mkCall (keyOf item) CallScore addr :: seg).
    split; [assumption|]. split; [discriminate|]. now constructor. }
  assert (Hname :
    exists s', (let* resolved := resolveName env (keyOf item) (q_identifier item) in
                match resolved with
                | Some r => run modify (setResolved (keyOf item) r) then
                            scoreAndProfile env (keyOf item) r
                | None => modify (updateScore (keyOf item) None)
                end) s = (Returned tt, s')
               /\ sameQueueing s s' /\ addsCallsFor (keyOf item) s s').
  { unfold bind at 1. rewrite resolveName_spec.
    set (s1 := logCall (mkCall (keyOf item) CallResolve (q_identifier item)) s).
    destruct (resolution env s (q_identifier item)) as [r|].
    - unfold bind, modify.
      destruct (Hscore r (setResolved (keyOf item) r s1)) as (s' & E & Hq & seg & Hc & Hne & Hk).
      exists s'. split; [assumption|].
      pose proof (setResolved_same (keyOf item) r s1) as Hs.
      split.
      + apply sameQueue_queueing in Hs. unfold sameQueueing in *. simpl in Hs.
        intuition congruence.
      + exists (mkCall (keyOf item) CallResolve (q_identifier item) :: seg).
        destruct Hs as (_ & _ & _ & _ & Hcs & _). rewrite Hc, Hcs. simpl.
        rewrite <- List.app_assoc. split; [reflexivity|]. split; [discriminate|].
        now constructor.
    - unfold modify. eexists. split; [reflexivity|].
      pose proof (updateScore_same (keyOf item) None s1) as Hs.
      split.
      + apply sameQueue_queueing in Hs. exact Hs.
      + exists [mkCall (keyOf item) CallResolve (q_identifier item)].
        destruct Hs as (_ & _ & _ & _ & -> & _). split; [reflexivity|].
        split; [discriminate | repeat constructor]. }
  destruct (q_type item); [apply Hscore | exact Hname | exact Hname].
Qed.

Lemma forEach_processItem env batch : forall s,
  exists s' segs,
    forEach (processItem env) batch s = (Returned tt, s')
    /\ sameQueueing s s'
    /\ calls s' = calls s ++ concat segs
    /\ callsPerItem batch segs.
Proof.
  induction batch as [|item batch IH]; intros s; simpl.
  - exists s, []. split; [reflexivity|]. split; [repeat split|].
    split; [now rewrite List.app_nil_r | constructor].
  - unfold bind.
    destruct (processItem_returns env item s) as (s1 & -> & Hq1 & seg & Hc1 & Hne & Hk).
    destruct (IH s1) as (s' & segs & -> & Hq & Hc & Hper).
    exists s', (seg :: segs). split; [reflexivity|]. split.
    + unfold sameQueueing in *. intuition congruence.
    + split.
      * rewrite Hc, Hc1. simpl. now rewrite List.app_assoc.
      * constructor; [now split | assumption].
Qed.

(** One dispatch cycle: it returns, it takes the first thirty items off
    the queue and processes them in order, and it arms the timer again
    exactly when items are left. *)
Lemma processScoreQueue_cycle env s :
  scoreQueue s <> [] ->
  exists s' segs,
    processScoreQueue env s = (Returned tt, s')
    /\ scoreQueue s' = skipn 30 (scoreQueue s)
    /\ calls s' = calls s ++ concat segs
    /\ callsPerItem (firstn 30 (scoreQueue s)) segs
    /\ targetElements s' = targetElements s
    /\ clock (sched s') = clock (sched s)
    /\ timers (sched s')
       = timers (sched s)
         ++ match skipn 30 (scoreQueue s) with
            | [] => []
            | _ => [mkTimer (nextTimer (sched s)) (clock (sched s) + 150) CbProcessScoreQueue]
            end.
Proof.
  intros Hne. unfold processScoreQueue.
  destruct (scoreQueue s) as [|q0 qs] eqn:Eq; [contradiction|]. rewrite <- Eq.
  unfold bind, modify.
  destruct (forEach_processItem env (firstn 30 (scoreQueue s)) (set_scoreQueue (skipn 30) s))
    as (s1 & segs & -> & (Hq & Hs & Ht & Hte) & Hc & Hper).
  simpl in Hq, Hs, Ht, Hte, Hc.
  destruct (scoreQueue s1) as [|q1 qs1] eqn:E1.
  - exists s1, segs. rewrite <- Hq. rewrite E1.
    repeat split; try assumption; try congruence.
    rewrite Hs. now rewrite List.app_nil_r.
  - eexists _, segs. split; [reflexivity|]. simpl. rewrite <- Hq, Hs.
    repeat split; try assumption.
Qed.

Lemma processScoreQueue_returns env s :
  exists s', processScoreQueue env s = (Returned tt, s').
Proof.
  destruct (scoreQueue s) as [|q qs] eqn:E.
  - exists s. unfold processScoreQueue. now rewrite E.
  - destruct (processScoreQueue_cycle env s) as (s' & segs & H & _); [congruence|].
    eauto.
Qed.

Lemma keyOf_lower item : JS.toLowerCase (keyOf item) = keyOf item.
Proof. apply toLowerCase_idem. Qed.

Lemma updateScore_none_marks key s d :
  JS.toLowerCase key = key ->
  identifierData s !! key = Some d ->
  identifierData (updateScore key None s) !! key
  = Some (unscoreable d (resolvedAddress d))
  /\ calls (updateScore key None s) = calls s.
Proof.
  intros Hk Hd. split.
  - pose proof (updateScore_data key None s d) as H. rewrite Hk in H.
    exact (H Hd).
  - now destruct (updateScore_same key None s) as (_ & _ & _ & _ & -> & _).
Qed.

Lemma unresolved_item env item s d :
  q_type item <> Matcher.eth ->
  identifierData s !! keyOf item = Some d ->
  resolution env s (q_identifier item) = None ->
  exists s', processItem env item s = (Returned tt, s')
             /\ identifierData s' !! keyOf item = Some (unscoreable d (resolvedAddress d))
             /\ calls s' = calls s ++ [mkCall (keyOf item) CallResolve (q_identifier item)].
Proof.
  intros Hty Hd Hres. unfold processItem. fold (keyOf item).
  assert (Hgoal :
    exists s', (let* resolved := resolveName env (keyOf item) (q_identifier item) in
                match resolved with
                | Some r => run modify (setResolved (keyOf item) r) then
                            scoreAndProfile env (keyOf item) r
                | None => modify (updateScore (keyOf item) None)
                end) s = (Returned tt, s')
               /\ identifierData s' !! keyOf item = Some (unscoreable d (resolvedAddress d))
               /\ calls s' = calls s ++ [mkCall (keyOf item) CallResolve (q_identifier item)]).
  { unfold bind. rewrite resolveName_spec, Hres. unfold modify.
    eexists. split; [reflexivity|].
    apply (updateScore_none_marks (keyOf item)
             (logCall (mkCall (keyOf item) CallResolve (q_identifier item)) s) d);
      [apply keyOf_lower | exact Hd]. }
  destruct (q_type item); [contradiction | exact Hgoal | exact Hgoal].
Qed.

Lemma scoreAndProfile_throwing env key addr s d :
  JS.toLowerCase key = key ->
  identifierData s !! key = Some d ->
  getScoreByAddress env (length (calls s)) addr = Threw ->
  exists s', scoreAndProfile env key addr s = (Returned tt, s')
             /\ identifierData s' !! key = Some (unscoreable d (resolvedAddress d)).
Proof.
  intros Hk Hd Hthrow. unfold scoreAndProfile, tryCatch, bind, call, modify.
  rewrite Hthrow. eexists. split; [reflexivity|].
  now apply (updateScore_none_marks key (logCall (mkCall key CallScore addr) s) d).
Qed.

Lemma throwing_address_item env item s d :
  q_type item = Matcher.eth ->
  identifierData s !! keyOf item = Some d ->
  getScoreByAddress env (length (calls s)) (q_identifier item) = Threw ->
  exists s', processItem env item s = (Returned tt, s')
             /\ identifierData s' !! keyOf item = Some (unscoreable d (resolvedAddress d)).
Proof.
  intros Hty Hd Hthrow. unfold processItem. rewrite Hty. fold (keyOf item).
  apply scoreAndProfile_throwing; [apply keyOf_lower | assumption | assumption].
Qed.

Lemma throwing_name_item env item s d r :
  q_type item <> Matcher.eth ->
  identifierData s !! keyOf item = Some d ->
  resolution env s (q_identifier item) = Some r ->
  getScoreByAddress env (S (length (calls s))) r = Threw ->
  exists s', processItem env item s = (Returned tt, s')
             /\ identifierData s' !! keyOf item = Some (unscoreable d (Some r)).
Proof.
  intros Hty Hd Hres Hthrow. unfold processItem. fold (keyOf item).
  assert (Hgoal :
    exists s', (let* resolved := resolveName env (keyOf item) (q_identifier item) in
                match resolved with
                | Some r => run modify (setResolved (keyOf item) r) then
                            scoreAndProfile env (keyOf item) r
                | None => modify (updateScore (keyOf item) None)
                end) s = (Returned tt, s')
               /\ identifierData s' !! keyOf item = Some (unscoreable d (Some r))).
  { unfold bind at 1. rewrite resolveName_spec, Hres. unfold bind, modify.
    set (s1 := setResolved (keyOf item) r
                 (logCall (mkCall (keyOf item) CallResolve (q_identifier item)) s)).
    assert (Hd1 : identifierData s1 !! keyOf item
                  = Some (mkInfo (identifier d) (type d) (score d) (tier d) (Some r)
                                 (ethosName d) (avatarUrl d) (fetched d))).
    { subst s1. unfold setResolved. simpl. rewrite Hd. simpl. apply lookup_insert_eq. }
    assert (Hc1 : length (calls s1) = S (length (calls s))).
    { subst s1. unfold setResolved. simpl. rewrite Hd. simpl.
      rewrite List.length_app. simpl. lia. }
    destruct (scoreAndProfile_throwing env (keyOf item) r s1 _ (keyOf_lower item) Hd1)
      as (s' & E & Hrec); [now rewrite Hc1|].
    exists s'. split; [exact E | exact Hrec]. }
  destruct (q_type item); [contradiction | exact Hgoal | exact Hgoal].
Qed.

(** C5.  A dispatch cycle never throws and processes every item of its
    batch in order, whatever the collaborators do.  A name whose
    resolution gives nothing gets its record marked fetched, with no score
    and tier unscored, and no score fetch is made for it (its only call is
    the resolution).  An item whose score fetch throws (an address, or a
    name that was resolved) gets its record marked the same way. *)
Theorem batcher_failures_are_terminal (env : Env) (s : State) :
  (exists s' segs,
      processScoreQueue env s = (Returned tt, s')
      /\ calls s' = calls s ++ concat segs
      /\ callsPerItem (firstn 30 (scoreQueue s)) segs)
  /\ (forall item d,
        q_type item <> Matcher.eth ->
        identifierData s !! keyOf item = Some d ->
        resolution env s (q_identifier item) = None ->
        exists s', processItem env item s = (Returned tt, s')
                   /\ identifierData s' !! keyOf item
                      = Some (unscoreable d (resolvedAddress d))
                   /\ calls s' = calls s
                                 ++ [mkCall (keyOf item) CallResolve (q_identifier item)])
  /\ (forall item d,
        q_type item = Matcher.eth ->
        identifierData s !! keyOf item = Some d ->
        getScoreByAddress env (length (calls s)) (q_identifier item) = Threw ->
        exists s', processItem env item s = (Returned tt, s')
                   /\ identifierData s' !! keyOf item
                      = Some (unscoreable d (resolvedAddress d)))
  /\ (forall item d r,
        q_type item <> Matcher.eth ->
        identifierData s !! keyOf item = Some d ->
        resolution env s (q_identifier item) = Some r ->
        getScoreByAddress env (S (length (calls s))) r = Threw ->
        exists s', processItem env item s = (Returned tt, s')
                   /\ identifierData s' !! keyOf item = Some (unscoreable d (Some r))).
Proof.
  split.
  { destruct (scoreQueue s) as [|q qs] eqn:E.
    - exists s, []. unfold processScoreQueue. rewrite E. simpl.
      split; [reflexivity|]. split; [now rewrite List.app_nil_r | constructor].
    - destruct (processScoreQueue_cycle env s) as (s' & segs & H & _ & Hc & Hper & _);
        [congruence|].
      exists s', segs. rewrite E in Hper. auto. }
  split; [intros; now apply unresolved_item|].
  split; [intros; now apply throwing_address_item|].
  intros; now apply throwing_name_item.
Qed.

End BatcherFacts.

(** ** Failing collaborators *)

Section FailureInstances.
Import Content Dom Scenario.

Lemma batcher_failures_are_terminal_witness :
  let item := mkItem "vitalik.eth" Matcher.ens in
  exists s',
    processItem envUnresolved item oneName = (Returned tt, s')
    /\ identifierData s' !! "vitalik.eth"
       = Some (mkInfo "vitalik.eth" Matcher.ens None "unscored" None None None true)
    /\ calls s' = [mkCall "vitalik.eth" CallResolve "vitalik.eth"].
Proof.
  intros item.
  destruct (batcher_failures_are_terminal envUnresolved oneName) as (_ & Hname & _ & _).
  destruct (Hname item
              (mkInfo "vitalik.eth" Matcher.ens None "unscored" None None None false))
    as (s' & E & Hrec & Hcalls).
  - discriminate.
  - vm_compute. reflexivity.
  - reflexivity.
  - exists s'. split; [exact E|]. split; [exact Hrec | exact Hcalls].
Defined.

End FailureInstances.

(** ** Debounce and dispatch *)

Section DebounceFacts.
Import Content Dom.

Lemma dropTimer_self h due cb : dropTimer h [mkTimer h due cb] = [].
Proof. unfold dropTimer. simpl. now rewrite Nat.eqb_refl. Qed.

Lemma queueForScoring_present ident ty s :
  List.In (JS.toLowerCase ident) (map keyOf (scoreQueue s)) ->
  queueForScoring ident ty s = s.
Proof.
  intros Hin. unfold queueForScoring.
  replace (existsb _ (scoreQueue s)) with true; [reflexivity|].
  symmetry. apply List.existsb_exists.
  apply List.in_map_iff in Hin as (q & Hq & Hin). exists q. split; [assumption|].
  apply String.eqb_eq. exact Hq.
Qed.

Lemma queueForScoring_new ident ty s bound :
  ~ List.In (JS.toLowerCase ident) (map keyOf (scoreQueue s)) ->
  oneDispatchTimer bound s ->
  bound < clock (sched s) + 150 ->
  let s' := queueForScoring ident ty s in
  scoreQueue s' = scoreQueue s ++ [mkItem ident ty]
  /\ oneDispatchTimer bound s'
  /\ clock (sched s') = clock (sched s)
  /\ calls s' = calls s.
Proof.
  intros Hnew Hinv Hb. unfold queueForScoring.
  replace (existsb _ (scoreQueue s)) with false.
  2:{ symmetry. apply not_true_is_false. intros H. apply Hnew.
      apply List.existsb_exists in H as (q & Hin & E). apply String.eqb_eq in E.
      apply List.in_map_iff. exists q. split; assumption. }
  cbv zeta. simpl scoreTimeout.
  assert (Ht : forall q, timers (sched (clearTimeout (scoreTimeout s)
                  (set_scoreQueue q s))) = []).
  { intros q. destruct Hinv as [[_ Ht]|(_ & h & due & Hh & _ & Ht)].
    - destruct (scoreTimeout s); simpl; [|assumption].
      rewrite Ht. reflexivity.
    - rewrite Hh. simpl. rewrite Ht. apply dropTimer_self. }
  specialize (Ht (fun q => q ++ [mkItem ident ty])).
  destruct (scoreTimeout s) as [h0|]; unfold setTimeout; simpl in *.
  - rewrite Ht. simpl. split; [reflexivity|]. split; [|split; reflexivity].
    right. split; [simpl; destruct (scoreQueue s); simpl; discriminate|]. simpl. eauto.
  - rewrite Ht. simpl. split; [reflexivity|]. split; [|split; reflexivity].
    right. split; [simpl; destruct (scoreQueue s); simpl; discriminate|]. simpl. eauto.
Qed.

Lemma enqueueAll_spec bound upto : forall xs s from,
  upto < bound -> bound < from + 150 ->
  oneDispatchTimer bound s ->
  clock (sched s) <= from ->
  inWindow from upto (map fst xs) = true ->
  List.NoDup (map keyOf (scoreQueue s ++ map snd xs)) ->
  exists s', enqueueAll xs s = Some s'
             /\ scoreQueue s' = scoreQueue s ++ map snd xs
             /\ oneDispatchTimer bound s'
             /\ calls s' = calls s.
Proof.
  induction xs as [|[t [ident ty]] xs IH]; intros s from Hub Hbf Hinv Hclk Hwin Hnd.
  - exists s. simpl. rewrite List.app_nil_r. auto.
  - simpl in Hwin. apply andb_true_iff in Hwin as [Hwin Hrest].
    apply andb_true_iff in Hwin as [Hfrom Hupto].
    apply Z.leb_le in Hfrom, Hupto.
    simpl. unfold enqueueAt. simpl.
    assert (Hadv : advanceTo t s
                   = Some (set_sched (fun sc => mkSched (timers sc) (nextTimer sc) t (frames sc)) s)).
    { unfold advanceTo.
      replace (forallb _ _) with true.
      - replace (clock (sched s) <=? t) with true; [reflexivity|].
        symmetry. apply Z.leb_le. lia.
      - symmetry. destruct Hinv as [[_ ->]|(_ & h & due & _ & Hdue & ->)]; [reflexivity|].
        simpl. rewrite andb_true_r. apply Z.ltb_lt. lia. }
    rewrite Hadv.
    set (s1 := set_sched _ s).
    assert (Hinv1 : oneDispatchTimer bound s1).
    { destruct Hinv as [[Hq Ht]|(Hq & h & due & Hh & Hdue & Ht)].
      - left. subst s1. simpl. rewrite Ht. auto.
      - right. subst s1. simpl. rewrite Ht. split; [assumption|]. eauto. }
    assert (Hnew : ~ List.In (JS.toLowerCase ident) (map keyOf (scoreQueue s1))).
    { subst s1. simpl. rewrite List.map_app in Hnd. simpl in Hnd.
      apply List.NoDup_remove_2 in Hnd. intros Hin. apply Hnd.
      apply List.in_or_app. now left. }
    destruct (queueForScoring_new ident ty s1 bound Hnew Hinv1) as (Hq2 & Hinv2 & Hc2 & Hcalls2).
    { subst s1. simpl. lia. }
    destruct (IH (queueForScoring ident ty s1) t) as (s' & E & Hq & Hinv' & Hcalls);
      try assumption; try lia.
    + rewrite Hc2. subst s1. simpl. lia.
    + rewrite Hq2. subst s1. simpl. rewrite <- List.app_assoc. exact Hnd.
    + exists s'. split; [exact E|]. split.
      * rewrite Hq, Hq2. subst s1. simpl. now rewrite <- List.app_assoc.
      * split; [assumption|]. rewrite Hcalls, Hcalls2. reflexivity.
Qed.

(** The dispatch timer fires: one cycle of [processScoreQueue]. *)
Lemma fire_dispatch env s h due :
  scoreQueue s <> [] ->
  timers (sched s) = [mkTimer h due CbProcessScoreQueue] ->
  exists s' segs,
    fireNext env s = Some s'
    /\ scoreQueue s' = skipn 30 (scoreQueue s)
    /\ calls s' = calls s ++ concat segs
    /\ callsPerItem (firstn 30 (scoreQueue s)) segs
    /\ match skipn 30 (scoreQueue s) with
       | [] => timers (sched s') = []
       | _ => exists h' due', timers (sched s') = [mkTimer h' due' CbProcessScoreQueue]
       end.
Proof.
  intros Hq Ht. unfold fireNext. rewrite Ht. simpl.
  unfold detach.
  set (s0 := set_sched _ s).
  destruct (processScoreQueue_cycle env s0) as (s' & segs & E & Hq' & Hc & Hper & _ & _ & Ht');
    [subst s0; simpl; assumption|].
  exists s', segs. rewrite E. simpl. split; [reflexivity|].
  subst s0. simpl in *. rewrite Ht, dropTimer_self in Ht'. simpl in Ht'.
  repeat split; try assumption.
  destruct (skipn 30 (scoreQueue s)); [assumption | eauto].
Qed.

Lemma callsPerItem_length batch segs : callsPerItem batch segs -> length segs = length batch.
Proof. induction 1; simpl; congruence. Qed.

(** C3.  From a state with an empty queue and no pending timer, 45
    identifiers that differ from one another up to case, enqueued within 50
    ms, are all queued in order and nothing is dispatched meanwhile; the
    timer then fires exactly twice: the first cycle processes the first 30
    items one after the other in enqueue order and leaves 15 queued, the
    second processes those 15 in order and leaves none, and no timer is
    pending afterwards.  An identifier that is already queued, up to case,
    is not queued again. *)
Theorem forty_five_in_two_cycles (env : Env) (s0 : State) (t0 : Z)
    (xs : list (Z * QItem)) :
  scoreQueue s0 = [] -> timers (sched s0) = [] -> clock (sched s0) <= t0 ->
  length xs = 45%nat ->
  List.NoDup (map (fun x => keyOf (snd x)) xs) ->
  inWindow t0 (t0 + 50) (map fst xs) = true ->
  (exists s45 s1 s2 segs1 segs2,
      enqueueAll xs s0 = Some s45
      /\ scoreQueue s45 = map snd xs
      /\ calls s45 = calls s0
      /\ fireNext env s45 = Some s1
      /\ fireNext env s1 = Some s2
      /\ fireNext env s2 = None
      /\ calls s1 = calls s45 ++ concat segs1
      /\ callsPerItem (firstn 30 (map snd xs)) segs1 /\ length segs1 = 30%nat
      /\ scoreQueue s1 = skipn 30 (map snd xs)
      /\ calls s2 = calls s1 ++ concat segs2
      /\ callsPerItem (skipn 30 (map snd xs)) segs2 /\ length segs2 = 15%nat
      /\ scoreQueue s2 = [])
  /\ (forall s ident ty,
        List.In (JS.toLowerCase ident) (map keyOf (scoreQueue s)) ->
        queueForScoring ident ty s = s).
Proof.
  intros Hq0 Ht0 Hclk Hlen Hnd Hwin.
  split; [|intros; now apply queueForScoring_present].
  destruct (enqueueAll_spec (t0 + 100) (t0 + 50) xs s0 t0) as (s45 & E & Hq & Hinv & Hc);
    try lia; try assumption.
  { left. auto. }
  { rewrite Hq0. simpl. now rewrite List.map_map. }
  rewrite Hq0 in Hq. simpl in Hq.
  assert (Hlen' : length (scoreQueue s45) = 45%nat) by now rewrite Hq, List.length_map.
  destruct Hinv as [[Hnil _]|(Hne & h & due & _ & _ & Ht)].
  { rewrite Hnil in Hlen'. discriminate. }
  destruct (fire_dispatch env s45 h due Hne Ht) as (s1 & segs1 & F1 & Hq1 & Hc1 & Hper1 & Ht1).
  assert (Hlen1 : length (scoreQueue s1) = 15%nat).
  { rewrite Hq1, List.length_skipn. lia. }
  destruct (skipn 30 (scoreQueue s45)) as [|q1 rest1] eqn:Es.
  { rewrite Hq1 in Hlen1. discriminate. }
  destruct Ht1 as (h1 & due1 & Ht1).
  assert (Hne1 : scoreQueue s1 <> []) by (rewrite Hq1; discriminate).
  destruct (fire_dispatch env s1 h1 due1 Hne1 Ht1) as (s2 & segs2 & F2 & Hq2 & Hc2 & Hper2 & Ht2).
  assert (Hs2 : skipn 30 (scoreQueue s1) = []).
  { apply List.skipn_all2. lia. }
  rewrite Hs2 in Ht2, Hq2.
  assert (Hper2' : callsPerItem (scoreQueue s1) segs2).
  { rewrite List.firstn_all2 in Hper2 by lia. exact Hper2. }
  exists s45, s1, s2, segs1, segs2.
  rewrite Hq in *. rewrite Es.
  split; [exact E|]. split; [reflexivity|]. split; [exact Hc|].
  split; [exact F1|]. split; [exact F2|].
  split; [unfold fireNext; now rewrite Ht2|].
  split; [exact Hc1|]. split; [exact Hper1|].
  split.
  { rewrite (callsPerItem_length _ _ Hper1), List.length_firstn, List.length_map. lia. }
  split; [exact Hq1|]. split; [exact Hc2|].
  split; [now rewrite <- Hq1|].
  split; [|exact Hq2].
  rewrite (callsPerItem_length _ _ Hper2'). exact Hlen1.
Qed.

End DebounceFacts.

(** ** Forty-five identifiers *)

Section DebounceInstances.
Import Content Dom Scenario.

Lemma forty_five_in_two_cycles_witness :
  exists s45 s1 s2,
    enqueueAll fortyFive emptyPage = Some s45
    /\ fireNext envUnresolved s45 = Some s1
    /\ fireNext envUnresolved s1 = Some s2
    /\ fireNext envUnresolved s2 = None
    /\ length (scoreQueue s1) = 15%nat
    /\ scoreQueue s2 = [].
Proof.
  assert (Hclock : clock (sched emptyPage) <= 0) by (vm_compute; discriminate).
  assert (Hdistinct : List.NoDup (map (fun x => keyOf (snd x)) fortyFive))
    by (apply distinctb_NoDup; vm_compute; reflexivity).
  destruct (forty_five_in_two_cycles envUnresolved emptyPage 0 fortyFive
              eq_refl eq_refl Hclock eq_refl Hdistinct eq_refl)
    as [(s45 & s1 & s2 & segs1 & segs2 & E & _ & _ & F1 & F2 & F3 & _ & _ & _ & Hq1 & _ & _ & _ & Hq2) _].
  exists s45, s1, s2. repeat split; try assumption.
  rewrite Hq1. reflexivity.
Defined.

End DebounceInstances.

(** ** Score writes and the open tooltip *)

Section TooltipFacts.
Import Content Dom Scenario.

Lemma getTierForScore_in_table (z : Z) :
  exists t, Tiers.getTierForScore (Some z) = Some t /\ List.In t Tiers.SCORE_TIERS.
Proof.
  unfold Tiers.getTierForScore.
  destruct (List.find (Tiers.inTier z) Tiers.SCORE_TIERS) as [t|] eqn:E.
  - exists t. split; [reflexivity|]. now apply List.find_some in E.
  - exists Tiers.firstTier. split; [reflexivity | now left].
Qed.

Lemma tierLabel_of_score (sc : option Z) :
  match List.find (fun t => String.eqb (Tiers.name t)
                              (Tiers.tierName (Tiers.getTierForScore sc)))
                  Tiers.SCORE_TIERS with
  | Some t => Tiers.label t
  | None => "UNSCORED"
  end = Tiers.getScoreLabel sc.
Proof.
  destruct sc as [z|]; [|reflexivity].
  unfold Tiers.getScoreLabel.
  destruct (getTierForScore_in_table z) as (t & -> & Hin).
  unfold Tiers.SCORE_TIERS in Hin. simpl in Hin.
  repeat (destruct Hin as [<-|Hin]; [reflexivity|]). destruct Hin.
Qed.

(** Induction on document trees. *)
Lemma Node_forall_ind (P : Node -> Prop) :
  (forall i t, P (TextNode i t)) ->
  (forall i tag cls ce kids, Forall P kids -> P (Element i tag cls ce kids)) ->
  forall n, P n.
Proof.
  intros Htext Helem. fix IH 1. intros [i t|i tag cls ce kids].
  - apply Htext.
  - apply Helem. induction kids as [|k kids IHk]; constructor; [apply IH | exact IHk].
Qed.


Lemma findElement_id id n e : findElement id n = Some e -> nodeId e = id.
Proof.
  revert e. induction n as [i t|i tag cls ce kids IHkids] using Node_forall_ind;
    intros e; simpl; [discriminate|].
  destruct (Nat.eqb_spec i id) as [->|Hne]; [now intros [= <-]|].
  induction IHkids as [|k kids Hk _ IHrest]; [discriminate|].
  destruct (findElement id k) as [r|] eqn:E; [intros [= <-]; auto | exact IHrest].
Qed.

Lemma findElement_setClassName id id' cls n :
  findElement id (setClassName id' cls n)
  = option_map (setClassName id' cls) (findElement id n).
Proof.
  induction n as [i t|i tag c ce kids IHkids] using Node_forall_ind; simpl; [reflexivity|].
  destruct (Nat.eqb i id); [reflexivity|].
  induction IHkids as [|k kids Hk _ IHrest]; simpl; [reflexivity|].
  rewrite Hk. destruct (findElement id k); simpl; [reflexivity | exact IHrest].
Qed.

Lemma docFindElement_setClassName id id' cls d :
  docFindElement id (docSetClassName id' cls d)
  = option_map (setClassName id' cls) (docFindElement id d).
Proof.
  unfold docFindElement, docSetClassName, roots, firstSome. simpl.
  rewrite findElement_setClassName.
  destruct (findElement id (body d)); simpl; [reflexivity|].
  induction (detached d) as [|r rs IH]; simpl; [reflexivity|].
  rewrite findElement_setClassName.
  destruct (findElement id r); simpl; [reflexivity | exact IH].
Qed.

Lemma classOf_setClassName id cls e :
  classOf (setClassName id cls e)
  = match classOf e with
    | Some c => Some (if Nat.eqb (nodeId e) id then cls else c)
    | None => None
    end.
Proof. destruct e; reflexivity. Qed.

(** [el.className = cls] for each element of a list: every listed element
    of the document ends with the class [cls]. *)
Lemma paint_fold cls (els : list nat) : forall s el e,
  docFindElement el (doc s) = Some e ->
  (List.In el els \/ classOf e = Some cls) ->
  exists e', docFindElement el
               (doc (fold_left (fun st x => set_doc (docSetClassName x cls) st) els s))
             = Some e'
             /\ classOf e' = Some cls.
Proof.
  induction els as [|x els IH]; intros s el e Hfind Hor; simpl.
  - destruct Hor as [[]|Hc]. eauto.
  - apply (IH _ el (setClassName x cls e)).
    + simpl. rewrite docFindElement_setClassName, Hfind. reflexivity.
    + rewrite classOf_setClassName.
      assert (Hid : nodeId e = el).
      { unfold docFindElement, firstSome, roots in Hfind. simpl in Hfind.
        destruct (findElement el (body (doc s))) eqn:E.
        - injection Hfind as <-. now apply findElement_id in E.
        - induction (detached (doc s)) as [|r rs IHr]; simpl in Hfind; [discriminate|].
          destruct (findElement el r) eqn:Er; [|auto].
          injection Hfind as <-. now apply findElement_id in Er. }
      assert (Hel : exists c, classOf e = Some c).
      { destruct e as [i t|i tag c ce kids]; simpl; [|eauto].
        exfalso. clear -Hfind.
        assert (Hno : forall n, findElement el n <> Some (TextNode i t)).
        { induction n as [j u|j tag cls ce kids IHkids] using Node_forall_ind; simpl;
            [discriminate|].
          destruct (Nat.eqb j el); [discriminate|].
          induction IHkids as [|k kids Hk _ IHrest]; [discriminate|].
          destruct (findElement el k) eqn:E; [congruence | exact IHrest]. }
        unfold docFindElement, firstSome, roots in Hfind. simpl in Hfind.
        destruct (findElement el (body (doc s))) eqn:E; [apply (Hno (body (doc s))); congruence|].
        induction (detached (doc s)) as [|r rs IHr]; simpl in Hfind; [discriminate|].
        destruct (findElement el r) eqn:Er; [apply (Hno r); congruence | auto]. }
      destruct Hel as [c Hc]. rewrite Hc, Hid.
      destruct Hor as [[->|Hin]|Hcls].
      * right. now rewrite Nat.eqb_refl.
      * now left.
      * right. rewrite Hc in Hcls. injection Hcls as ->. now destruct (Nat.eqb el x).
Qed.

(** [paintMarkers] gives the tier class to every registered marker of the
    identifier that is in the document (or in a subtree the script still
    holds). *)
Lemma paintMarkers_paints id tierName s els el e :
  OMap.get id (targetElements s) = Some els -> List.In el els ->
  docFindElement el (doc s) = Some e ->
  exists e', docFindElement el (doc (paintMarkers id tierName s)) = Some e'
             /\ classOf e' = Some ("aura-target " ++ tierName)%string.
Proof.
  intros Hget Hin Hfind. unfold paintMarkers. rewrite Hget.
  apply (paint_fold _ els s el e Hfind). now left.
Qed.

(** The profile write leaves the tooltip as it was. *)
Lemma applyProfile_hover key u s : hover (applyProfile key u s) = hover s.
Proof.
  unfold applyProfile. destruct (identifierData s !! key) as [d|]; [|reflexivity].
  destruct (score d), (u_score u); try reflexivity.
  now rewrite paintMarkers_hover.
Qed.

Lemma showTooltip_doc el d s : doc (showTooltip el d s) = doc s.
Proof. unfold showTooltip. destruct (overlayRoot s); reflexivity. Qed.

(** Every score write of [updateScore] repaints the registered markers of
    the identifier with the class of the new tier. *)
Lemma updateScore_paints key sc s els el e :
  OMap.get (JS.toLowerCase key) (targetElements s) = Some els -> List.In el els ->
  docFindElement el (doc s) = Some e ->
  exists e', docFindElement el (doc (updateScore key sc s)) = Some e'
             /\ classOf e'
                = Some ("aura-target " ++ Tiers.tierName (Tiers.getTierForScore sc))%string.
Proof.
  intros Hget Hin Hfind. unfold updateScore.
  set (id := JS.toLowerCase key) in *.
  set (t := Tiers.tierName (Tiers.getTierForScore sc)).
  assert (Hp : forall s0, targetElements s0 = targetElements s -> doc s0 = doc s ->
               exists e', docFindElement el (doc (paintMarkers id t s0)) = Some e'
                          /\ classOf e' = Some ("aura-target " ++ t)%string).
  { intros s0 Ht Hd. apply (paintMarkers_paints id t s0 els el e); congruence. }
  destruct (identifierData s !! id) as [d|]; simpl.
  - rewrite paintMarkers_hover. simpl.
    destruct (currentHover (hover s)) as [[hel hid]|]; [|now apply Hp].
    destruct (String.eqb hid id); simpl; [|now apply Hp].
    rewrite showTooltip_doc. now apply Hp.
  - rewrite paintMarkers_hover.
    destruct (currentHover (hover s)) as [[hel hid]|]; now apply Hp.
Qed.

(** The fallback of the profile write repaints them too. *)
Lemma applyProfile_paints key u s d us els el e :
  identifierData s !! key = Some d -> score d = None -> u_score u = Some us ->
  OMap.get key (targetElements s) = Some els -> List.In el els ->
  docFindElement el (doc s) = Some e ->
  exists e', docFindElement el (doc (applyProfile key u s)) = Some e'
             /\ classOf e'
                = Some ("aura-target "
                        ++ Tiers.tierName (Tiers.getTierForScore (Some us)))%string.
Proof.
  intros Hd Hs Hu Hget Hin Hfind. unfold applyProfile. rewrite Hd, Hs, Hu.
  now apply (paintMarkers_paints key _ _ els el e).
Qed.

(** A score written by [updateScore] reaches the open tooltip: when the
    hovered marker targets the identifier, the tooltip is rendered again
    from the record just written. *)
Lemma updateScore_rerenders key sc s d el :
  overlayRoot s = true ->
  currentHover (hover s) = Some (el, JS.toLowerCase key) ->
  identifierData s !! JS.toLowerCase key = Some d ->
  exists c, view (hover (updateScore key sc s)) = ViewFull c
            /\ visible (hover (updateScore key sc s)) = true
            /\ tc_scoreDisplay c = sc
            /\ tc_tierLabel c = Tiers.getScoreLabel sc.
Proof.
  intros Ho Hh Hd. unfold updateScore. rewrite Hd. simpl.
  rewrite paintMarkers_hover. simpl. rewrite Hh, String.eqb_refl. simpl.
  unfold showTooltip.
  match goal with
  | |- context [overlayRoot ?p] =>
      replace (overlayRoot p) with true
  end.
  2:{ match goal with
      | |- _ = overlayRoot (paintMarkers ?i ?t ?s0) =>
          destruct (paintMarkers_same i t s0) as (_ & _ & _ & _ & _ & -> & _)
      end. simpl. now rewrite Ho. }
  eexists. split; [reflexivity|]. split; [reflexivity|]. split; [reflexivity|].
  unfold render. cbn [tc_tierLabel tier]. apply tierLabel_of_score.
Qed.

(** The hover scenario of the claim, where the score endpoint answers:
    the marker is hovered before any fetch, the cycle it starts writes
    score 1450, and the tooltip it leaves open shows 1450 and
    ESTABLISHED. *)
Lemma hover_scenario_score_endpoint :
  let s := mouseenter envScore 3 scannedAddress in
  fetched <$> (identifierData scannedAddress !! addrKey) = Some false
  /\ view (hover (showLoadingTooltip 3 addr40 scannedAddress))
     = ViewLoading "0x52908400...169EE7"
  /\ (exists c, view (hover s) = ViewFull c
                /\ tc_scoreDisplay c = Some 1450 /\ tc_tierLabel c = "ESTABLISHED")
  /\ (tier <$> (identifierData s !! addrKey)) = Some "established".
Proof.
  vm_compute. split; [reflexivity|]. split; [reflexivity|].
  split; [eexists; repeat split|reflexivity].
Qed.

(** C6, at the input on which the code departs from it.  The marker of an
    address is hovered; the score endpoint has no score and the profile
    endpoint answers with a name and the score 1450.  The fallback writes
    score 1450 and tier established into the record and repaints the
    marker, but the tooltip that is open on that marker still shows what
    [updateScore] rendered before: no score, UNSCORED, and no name. *)
Theorem fallback_score_leaves_tooltip_stale :
  let s := mouseenter envFallback 3 scannedAddress in
  currentHover (hover s) = Some (3%nat, addrKey)
  /\ identifierData s !! addrKey
     = Some (mkInfo addr40 Matcher.eth (Some 1450) "established" None
                    (Some "alice") None true)
  /\ docFindElement 3 (doc s)
     = Some (Element 3 "SPAN" "aura-target established" false [TextNode 4 addr40])
  /\ exists c, view (hover s) = ViewFull c
               /\ visible (hover s) = true
               /\ tc_scoreDisplay c = None
               /\ tc_tierLabel c = "UNSCORED"
               /\ tc_title c = "0x52908400...E4169EE7".
Proof.
  vm_compute. repeat split. eexists. repeat split.
Qed.

End TooltipFacts.

(** ** Scanning again *)

Section RescanFacts.
Import Content Dom Scenario.

Lemma processTextNode_processed node s :
  node ∈ processedNodes s -> processTextNode node s = s.
Proof. intros H. unfold processTextNode. now destruct (decide (node ∈ processedNodes s)). Qed.

Lemma processTextNode_guarded node s txt p :
  docFindText node (doc s) = Some (txt, Some p) ->
  isSkippedTag (p_tagName p) = true
  \/ classListContains (p_className p) "aura-target" = true ->
  processTextNode node s = s.
Proof.
  intros Hf Hg. unfold processTextNode.
  destruct (decide (node ∈ processedNodes s)); [reflexivity|].
  rewrite Hf. destruct (JS.isBlank txt); [reflexivity|].
  destruct (isSkippedTag (p_tagName p)); [reflexivity|].
  destruct Hg as [Hg|Hg]; [discriminate|]. now rewrite Hg.
Qed.

(** Whatever tier a marker is painted with, it carries the marker
    class. *)
Lemma marker_class_kept (tierName : string) :
  classListContains ("aura-target " ++ tierName)%string "aura-target" = true.
Proof. reflexivity. Qed.

(** A text node without a match is left alone. *)
Lemma processTextNode_no_match node s txt parent :
  docFindText node (doc s) = Some (txt, parent) ->
  Matcher.collectMatches txt = [] ->
  processTextNode node s = s.
Proof.
  intros Hf Hm. unfold processTextNode.
  destruct (decide (node ∈ processedNodes s)); [reflexivity|].
  rewrite Hf. destruct (JS.isBlank txt); [reflexivity|].
  destruct parent as [p|]; [|reflexivity].
  destruct (isSkippedTag (p_tagName p)); [reflexivity|].
  destruct (classListContains (p_className p) "aura-target"); [reflexivity|].
  destruct (p_isContentEditable p); [reflexivity|].
  now rewrite Hm.
Qed.

(** C7, at the input on which the code departs from it.  The text is an
    address directly followed by [abc.eth].  The first scan wraps the
    address and drops the name-service candidate, which overlaps it; the
    text left over, [abc.eth], is a new text node.  A second scan of the
    same root matches that node on its own and adds a second marker. *)
Theorem rescan_adds_marker :
  let s1 := scanDOM 0 (initial (page (addr40 ++ "abc.eth")%string) 3) in
  let s2 := scanDOM 0 s1 in
  body (doc s1)
  = Element 0 "BODY" "" false
      [Element 1 "P" "" false
         [Element 4 "SPAN" "aura-target unscored" false [TextNode 5 addr40];
          TextNode 3 "abc.eth"]]
  /\ markers (body (doc s1)) = [4%nat]
  /\ frames (sched s1) = []
  /\ body (doc s2)
     = Element 0 "BODY" "" false
         [Element 1 "P" "" false
            [Element 4 "SPAN" "aura-target unscored" false [TextNode 5 addr40];
             Element 6 "SPAN" "aura-target unscored" false [TextNode 7 "abc.eth"]]]
  /\ markers (body (doc s2)) = [4%nat; 6%nat].
Proof.
  vm_compute. repeat split.
Qed.

End RescanFacts.

(** ** Reconciliation: the housekeeping of a flush *)

Section SweepFacts.
Import Content Dom.
Implicit Types (te : list (string * list nat)) (d : gmap string IdentifierInfo).

Lemma omap_delete_middle {V} (a b : list (string * V)) k v :
  ~ List.In k (OMap.keys a) -> OMap.delete k (a ++ (k, v) :: b) = a ++ b.
Proof.
  unfold OMap.keys. induction a as [|[k' v'] a IH]; simpl; intros Hk.
  - now rewrite String.eqb_refl.
  - destruct (String.eqb_spec k' k) as [->|]; [tauto|].
    f_equal. apply IH. tauto.
Qed.

Lemma omap_set_middle {V} (a b : list (string * V)) k v v' :
  ~ List.In k (OMap.keys a) -> OMap.set k v' (a ++ (k, v) :: b) = a ++ (k, v') :: b.
Proof.
  unfold OMap.keys. induction a as [|[k2 v2] a IH]; simpl; intros Hk.
  - now rewrite String.eqb_refl.
  - destruct (String.eqb_spec k2 k) as [->|]; [tauto|].
    f_equal. apply IH. tauto.
Qed.

Lemma sweptList_keys isAttached te k :
  List.In k (OMap.keys (sweptList isAttached te)) -> List.In k (OMap.keys te).
Proof.
  unfold sweptList, OMap.keys. induction te as [|[k' els] te IH]; simpl; [tauto|].
  rewrite List.map_app, List.in_app_iff. intros [H|H]; [left|right; auto].
  unfold sweptEntry in H. simpl in H.
  destruct (List.filter isAttached els); simpl in H; tauto.
Qed.

Lemma sweptList_app isAttached (a b : list (string * list nat)) :
  sweptList isAttached (a ++ b) = sweptList isAttached a ++ sweptList isAttached b.
Proof. unfold sweptList. apply List.flat_map_app. Qed.

Lemma filter_same_length {A} (P : A -> bool) (l : list A) :
  length (List.filter P l) = length l -> List.filter P l = l.
Proof.
  intros H. apply List.forallb_filter_id. now apply List.filter_length_forallb.
Qed.

Lemma sweptList_snoc isAttached (pre : list (string * list nat)) kv :
  sweptList isAttached (pre ++ [kv])
  = sweptList isAttached pre ++ sweptEntry isAttached kv.
Proof. rewrite sweptList_app. unfold sweptList at 2. simpl. now rewrite List.app_nil_r. Qed.

Lemma sweep_suffix isAttached (es pre : list (string * list nat)) d :
  OMap.wf (pre ++ es) ->
  sweep isAttached es (sweptList isAttached pre ++ es, d)
  = (sweptList isAttached (pre ++ es), deleteAll (droppedKeys isAttached es) d).
Proof.
  revert pre d. induction es as [|[k els] es IH]; intros pre d Hwf.
  - simpl. now rewrite !List.app_nil_r.
  - assert (Hk : ~ List.In k (OMap.keys (sweptList isAttached pre))).
    { unfold OMap.wf, OMap.keys in Hwf. rewrite List.map_app in Hwf. simpl in Hwf.
      apply List.NoDup_remove_2 in Hwf. intros Hin. apply Hwf.
      apply List.in_or_app. left. now apply sweptList_keys in Hin. }
    replace (pre ++ (k, els) :: es) with ((pre ++ [(k, els)]) ++ es) in *
      by now rewrite <- List.app_assoc.
    simpl sweep. unfold droppedKeys. simpl List.filter.
    destruct (Nat.eqb_spec (length (List.filter isAttached els)) 0) as [E0|E0].
    + simpl fst. simpl snd. rewrite omap_delete_middle by assumption.
      specialize (IH (pre ++ [(k, els)]) (delete k d) Hwf).
      rewrite sweptList_snoc in IH. unfold sweptEntry in IH. simpl in IH.
      apply List.length_zero_iff_nil in E0. rewrite E0 in IH.
      rewrite List.app_nil_r in IH. exact IH.
    + specialize (IH (pre ++ [(k, els)]) d Hwf).
      rewrite sweptList_snoc in IH. unfold sweptEntry in IH. simpl in IH.
      destruct (List.filter isAttached els) as [|e c] eqn:Ec; [simpl in E0; lia|].
      rewrite <- List.app_assoc in IH. simpl in IH.
      destruct (Nat.eqb_spec (length (e :: c)) (length els)) as [El|El]; simpl negb; cbv iota.
      * rewrite <- Ec in El. apply filter_same_length in El.
        rewrite Ec in El. rewrite <- El in IH |- *. exact IH.
      * simpl fst. simpl snd. rewrite omap_set_middle by assumption. exact IH.
Qed.

Lemma sweep_spec isAttached te d :
  OMap.wf te ->
  sweep isAttached te (te, d)
  = (sweptList isAttached te, deleteAll (droppedKeys isAttached te) d).
Proof. intros Hwf. exact (sweep_suffix isAttached te [] d Hwf). Qed.

Lemma deleteAll_gone ks d k : List.In k ks -> deleteAll ks d !! k = None.
Proof.
  unfold deleteAll. revert d. induction ks as [|k' ks IH]; intros d; simpl; [tauto|].
  intros [->|Hin]; [|auto].
  clear IH. generalize (delete k d), (lookup_delete_eq d k).
  induction ks as [|k2 ks IH]; intros m Hm; simpl; [assumption|].
  apply IH. destruct (decide (k2 = k)) as [->|Hne].
  - apply lookup_delete_eq.
  - now rewrite lookup_delete_ne.
Qed.

Lemma deleteAll_kept ks d k : ~ List.In k ks -> deleteAll ks d !! k = d !! k.
Proof.
  unfold deleteAll. revert d. induction ks as [|k' ks IH]; intros d; simpl; [reflexivity|].
  intros Hnin. rewrite IH by tauto. apply lookup_delete_ne. tauto.
Qed.

Lemma limit_fold {V} (m : list (string * V)) d n :
  fold_left (fun a key => (OMap.delete key (fst a), delete key (snd a)))
            (firstn n (OMap.keys m)) (m, d)
  = (skipn n m, deleteAll (firstn n (OMap.keys m)) d).
Proof.
  unfold deleteAll. revert m d. induction n as [|n IH]; intros m d; [reflexivity|].
  destruct m as [|[k v] m]; [reflexivity|].
  simpl. rewrite String.eqb_refl. apply IH.
Qed.

Lemma limitSize_spec te d :
  limitSize (te, d)
  = if (500 <? OMap.size te)%nat
    then (skipn (OMap.size te - 500) te,
          deleteAll (firstn (OMap.size te - 500) (OMap.keys te)) d)
    else (te, d).
Proof.
  unfold limitSize. simpl. destruct (500 <? OMap.size te)%nat; [|reflexivity].
  apply limit_fold.
Qed.

Lemma sweptList_wf isAttached te : OMap.wf te -> OMap.wf (sweptList isAttached te).
Proof.
  unfold OMap.wf, OMap.keys, sweptList. induction te as [|[k els] te IH]; simpl; [auto|].
  intros Hnd. inversion Hnd as [|? ? Hk Hnd']; subst.
  unfold sweptEntry at 1. simpl.
  destruct (List.filter isAttached els); simpl; [auto|].
  constructor; [|auto]. intros Hin. apply Hk.
  now apply (sweptList_keys isAttached te k).
Qed.

Lemma sweptList_get isAttached te id els :
  OMap.wf te ->
  OMap.get id (sweptList isAttached te) = Some els ->
  els <> [] /\ exists els0, OMap.get id te = Some els0 /\ els = List.filter isAttached els0.
Proof.
  intros Hwf Hget. apply omap_get_In in Hget.
  unfold sweptList in Hget. apply List.in_flat_map in Hget as ([k els0] & Hin & Hsw).
  unfold sweptEntry in Hsw. simpl in Hsw.
  destruct (List.filter isAttached els0) as [|e c] eqn:E; [destruct Hsw|].
  destruct Hsw as [[= <- <-]|[]].
  split; [discriminate|]. exists els0. split; [|now rewrite E].
  now apply omap_In_get.
Qed.

Lemma sweptList_dropped isAttached te id els0 :
  OMap.wf te ->
  OMap.get id te = Some els0 -> List.filter isAttached els0 = [] ->
  OMap.get id (sweptList isAttached te) = None
  /\ List.In id (droppedKeys isAttached te).
Proof.
  intros Hwf Hget Hnone. split.
  - destruct (OMap.get id (sweptList isAttached te)) as [els|] eqn:G; [|reflexivity].
    apply sweptList_get in G as (Hne & els' & Hget' & ->); [|assumption].
    rewrite Hget in Hget'. injection Hget' as <-. now rewrite Hnone in Hne.
  - unfold droppedKeys. apply List.in_map_iff. exists (id, els0). split; [reflexivity|].
    apply List.filter_In. split; [now apply omap_get_In|].
    simpl. now rewrite Hnone.
Qed.

Lemma In_skipn {A} (n : nat) (l : list A) (x : A) : List.In x (skipn n l) -> List.In x l.
Proof.
  intros H. rewrite <- (List.firstn_skipn n l). apply List.in_or_app. now right.
Qed.

Lemma In_firstn {A} (n : nat) (l : list A) (x : A) : List.In x (firstn n l) -> List.In x l.
Proof.
  intros H. rewrite <- (List.firstn_skipn n l). apply List.in_or_app. now left.
Qed.

Lemma omap_wf_skipn {V} (m : list (string * V)) n : OMap.wf m -> OMap.wf (skipn n m).
Proof.
  unfold OMap.wf, OMap.keys. rewrite <- (List.firstn_skipn n m) at 1.
  rewrite List.map_app. apply List.NoDup_app_remove_l.
Qed.

Lemma omap_firstn_skipn_disjoint {V} (m : list (string * V)) n k :
  OMap.wf m -> List.In k (firstn n (OMap.keys m)) -> ~ List.In k (OMap.keys (skipn n m)).
Proof.
  unfold OMap.wf, OMap.keys. intros Hwf Hin Hin'.
  rewrite <- (List.firstn_skipn n m), List.map_app in Hwf.
  rewrite List.firstn_map in Hin.
  revert Hwf Hin Hin'. generalize (map fst (firstn n m)) (map fst (skipn n m)).
  intros a b. induction a as [|x a IH]; simpl; [tauto|].
  intros Hnd [->|Hin] Hb; inversion Hnd as [|? ? Hx Hnd']; subst.
  - apply Hx. apply List.in_or_app. now right.
  - now apply IH.
Qed.

(** C8, as amended.  The housekeeping with which every flush begins leaves
    in each marker list exactly the elements that are attached to the
    document, in their order, and no empty list; an identifier whose
    markers are all gone is in neither the registry nor the record map;
    if more than 500 identifiers are left, the earliest inserted ones are
    dropped from both maps until 500 are left; the record of every
    identifier that stays is untouched.  The flush then annotates its
    pending nodes in that state, and a flush without pending nodes ends in
    it. *)
Theorem flush_housekeeping (s : State) :
  OMap.wf (targetElements s) ->
  let isAttached := attached (doc s) in
  let s' := afterHousekeeping s in
  let swept := sweptList isAttached (targetElements s) in
  (forall id els, OMap.get id (targetElements s') = Some els ->
     els <> []
     /\ Forall (fun el => isAttached el = true) els
     /\ exists els0, OMap.get id (targetElements s) = Some els0
                     /\ els = List.filter isAttached els0)
  /\ (forall id els0, OMap.get id (targetElements s) = Some els0 ->
        List.filter isAttached els0 = [] ->
        OMap.get id (targetElements s') = None /\ identifierData s' !! id = None)
  /\ (OMap.size (targetElements s') <= 500)%nat
  /\ targetElements s' = skipn (OMap.size swept - 500) swept
  /\ (forall id, List.In id (firstn (OMap.size swept - 500) (OMap.keys swept)) ->
        OMap.get id (targetElements s') = None /\ identifierData s' !! id = None)
  /\ (forall id, OMap.has id (targetElements s') = true ->
        identifierData s' !! id = identifierData s !! id)
  /\ doc s' = doc s
  /\ processPendingNodes s = annotatePending (pendingNodes s) s'
  /\ (pendingNodes s = [] -> processPendingNodes s = s').
Proof.
  intros Hwf isAttached s' swept.
  assert (Hswf : OMap.wf swept) by now apply sweptList_wf.
  set (n := (OMap.size swept - 500)%nat).
  assert (Hte : targetElements s' = skipn n swept
                /\ identifierData s'
                   = deleteAll (firstn n (OMap.keys swept))
                       (deleteAll (droppedKeys isAttached (targetElements s))
                                  (identifierData s))).
  { subst s'. unfold afterHousekeeping, housekeeping. simpl.
    rewrite sweep_spec by assumption. rewrite limitSize_spec.
    fold isAttached. fold swept.
    destruct (Nat.ltb_spec 500 (OMap.size swept)) as [Hgt|Hle]; simpl.
    - split; reflexivity.
    - replace n with 0%nat by (subst n; lia). split; reflexivity. }
  destruct Hte as [Hte Hd].
  assert (Hget : forall id els, OMap.get id (targetElements s') = Some els ->
                                OMap.get id swept = Some els).
  { intros id els H. rewrite Hte in H. apply omap_get_In, In_skipn in H.
    now apply omap_In_get. }
  split.
  { intros id els H. apply Hget in H.
    destruct (sweptList_get isAttached _ _ _ Hwf H) as (Hne & els0 & H0 & ->).
    split; [assumption|]. split; [|eauto].
    rewrite List.Forall_forall. intros el Hel. now apply List.filter_In in Hel. }
  split.
  { intros id els0 H0 Hnone.
    destruct (sweptList_dropped isAttached _ _ _ Hwf H0 Hnone) as [Hgone Hdrop].
    split.
    - destruct (OMap.get id (targetElements s')) eqn:G; [|reflexivity].
      apply Hget in G. fold swept in Hgone. congruence.
    - rewrite Hd.
      destruct (List.in_dec string_dec id (firstn n (OMap.keys swept))) as [Hin|Hnin].
      + now apply deleteAll_gone.
      + rewrite deleteAll_kept by assumption. now apply deleteAll_gone. }
  split.
  { rewrite Hte. unfold OMap.size. rewrite List.length_skipn. subst n.
    unfold OMap.size. lia. }
  split; [exact Hte|].
  split.
  { intros id Hin. split.
    - rewrite Hte. apply omap_get_None. now apply omap_firstn_skipn_disjoint.
    - rewrite Hd. now apply deleteAll_gone. }
  split.
  { intros id Hhas. unfold OMap.has in Hhas.
    destruct (OMap.get id (targetElements s')) as [els|] eqn:G; [|discriminate].
    pose proof (Hget _ _ G) as Gs.
    destruct (sweptList_get isAttached _ _ _ Hwf Gs) as (Hne & els0 & H0 & ->).
    rewrite Hd. rewrite deleteAll_kept.
    - rewrite deleteAll_kept; [reflexivity|].
      unfold droppedKeys. intros Hin. apply List.in_map_iff in Hin as ([k e] & <- & Hin).
      apply List.filter_In in Hin as [Hin Hz]. simpl in *.
      apply (omap_In_get _ _ _ Hwf) in Hin. rewrite H0 in Hin. injection Hin as <-.
      apply Nat.eqb_eq, List.length_zero_iff_nil in Hz. contradiction.
    - intros Hin. apply (omap_firstn_skipn_disjoint swept n id Hswf Hin).
      rewrite Hte in G. apply omap_get_In in G.
      unfold OMap.keys. apply List.in_map_iff. exists (id, List.filter isAttached els0). auto. }
  split; [reflexivity|].
  split; [reflexivity|].
  intros Hnil. unfold processPendingNodes. now rewrite Hnil.
Qed.

End SweepFacts.

(** ** Flushes on concrete pages *)

Section FlushInstances.
Import Content Dom Scenario.

(** C8 as stated fails.  After such a flush the registry tracks
    [vitalik.eth] with a marker that is not attached to the document. *)
Lemma flush_tracks_detached_marker :
  let s' := processPendingNodes removedBeforeFlush in
  OMap.wf (targetElements removedBeforeFlush)
  /\ OMap.get "vitalik.eth" (targetElements s') = Some [5%nat]
  /\ attached (doc s') 5 = false.
Proof. vm_compute. repeat split. constructor. Qed.

Lemma flush_housekeeping_witness :
  let s' := processPendingNodes afterRemoval in
  OMap.get "gone.eth" (targetElements s') = None
  /\ identifierData s' !! "gone.eth" = None
  /\ OMap.get "here.eth" (targetElements s') = Some [3%nat].
Proof.
  intros s'.
  assert (Hwf : OMap.wf (targetElements afterRemoval))
    by (apply distinctb_NoDup; vm_compute; reflexivity).
  destruct (flush_housekeeping afterRemoval Hwf)
    as (_ & Hgone & _ & _ & _ & _ & _ & _ & Hflush).
  subst s'. rewrite (Hflush eq_refl).
  destruct (Hgone "gone.eth" [10%nat]) as [H1 H2]; [reflexivity | reflexivity |].
  split; [exact H1|]. split; [exact H2|]. vm_compute. reflexivity.
Defined.

End FlushInstances.

(** ** The vault validator *)

Section VaultFacts.
Import Crypto.

Lemma firstn_exact {A} (a b : list A) n : length a = n -> firstn n (a ++ b) = a.
Proof.
  intros <-. rewrite List.firstn_app, Nat.sub_diag, List.firstn_all. simpl.
  apply List.app_nil_r.
Qed.

Lemma skipn_exact {A} (a b : list A) n : length a = n -> skipn n (a ++ b) = b.
Proof.
  intros <-. rewrite List.skipn_app, Nat.sub_diag, List.skipn_all. reflexivity.
Qed.

(** [decrypt] takes apart what [encrypt] put together. *)
Lemma decrypt_encrypt (P : Platform) (HP : Lawful P) salt iv plaintext p q blob :
  length salt = SALT_LENGTH -> length iv = IV_LENGTH ->
  encrypt P salt iv plaintext p = Some blob ->
  decrypt P blob q = opened P salt iv plaintext p q.
Proof.
  intros Hs Hi He. unfold encrypt in He. unfold decrypt, opened.
  rewrite (atob_btoa P HP _ _ He).
  rewrite (firstn_exact salt _ SALT_LENGTH Hs).
  rewrite (skipn_exact salt _ SALT_LENGTH Hs).
  rewrite (firstn_exact iv _ IV_LENGTH Hi).
  rewrite List.app_assoc.
  rewrite (skipn_exact (salt ++ iv) _ (SALT_LENGTH + IV_LENGTH))
    by (rewrite List.length_app; congruence).
  destruct (aesGcmDecrypt P _ iv _); reflexivity.
Qed.

(** [encrypt] returns for a plaintext of up to 326 characters. *)
Lemma encrypt_returns (P : Platform) (HS : Sized P) salt iv plaintext p :
  length salt = SALT_LENGTH -> length iv = IV_LENGTH ->
  (String.length plaintext <= 326)%nat ->
  exists blob, encrypt P salt iv plaintext p = Some blob.
Proof.
  intros Hs Hi Hlen. unfold encrypt.
  destruct (btoa P _) as [blob|] eqn:E; [eauto|].
  exfalso. revert E. apply (btoa_small P HS).
  rewrite !List.length_app, (gcm_length P HS), Hs, Hi.
  pose proof (encode_length P HS plaintext). unfold SALT_LENGTH, IV_LENGTH. lia.
Qed.

(** Under the key it was made with, the ciphertext opens. *)
Lemma opened_same_key (P : Platform) (HP : Lawful P) salt iv plaintext p q :
  deriveKey P q salt = deriveKey P p salt ->
  opened P salt iv plaintext p q = Some plaintext.
Proof.
  intros Hk. unfold opened. rewrite Hk, (gcm_roundtrip P HP). simpl.
  now rewrite (decode_encode P HP).
Qed.

(** A password of fewer than 64 bytes and the same password followed by
    U+0000 derive the same key. *)
Lemma deriveKey_nul (P : Platform) (HZ : ZeroPadded P) p salt :
  (length (encode P p) < 64)%nat ->
  deriveKey P (p ++ NUL) salt = deriveKey P p salt.
Proof.
  intros Hlen. unfold deriveKey. rewrite (encode_nul P HZ).
  now apply (pbkdf2_pad P HZ).
Qed.

Lemma append_self_nil (p ws : string) : (p ++ ws)%string = p -> ws = EmptyString.
Proof.
  induction p as [|c p IH]; simpl; [auto|]. intros [= H]. auto.
Qed.

Lemma verifyPassword_opened (P : Platform) (HP : Lawful P) salt iv p q validator :
  length salt = SALT_LENGTH -> length iv = IV_LENGTH ->
  createValidator P salt iv p = Some validator ->
  verifyPassword P validator q = true
  <-> opened P salt iv VALIDATOR_STRING p q = Some VALIDATOR_STRING.
Proof.
  intros Hs Hi Hv. unfold verifyPassword.
  rewrite (decrypt_encrypt P HP salt iv VALIDATOR_STRING p q validator Hs Hi Hv).
  destruct (opened P salt iv VALIDATOR_STRING p q) as [d|]; [|split; discriminate].
  rewrite String.eqb_eq. split; [now intros -> | now intros [= ->]].
Qed.

(** The small platform has the three properties. *)
Lemma toy_tag_length k : length (Toy.tag k) = 16%nat.
Proof.
  unfold Toy.tag. rewrite List.length_firstn, List.length_app, List.repeat_length. lia.
Qed.

Lemma toy_sameBytes_refl a : Toy.sameBytes a a = true.
Proof.
  induction a as [|x a IH]; simpl; [reflexivity|].
  now rewrite (Byte.byte_dec_lb eq_refl), IH.
Qed.

Lemma toy_unseal k pt : Toy.unseal k (pt ++ Toy.tag k) = Some pt.
Proof.
  unfold Toy.unseal. rewrite List.length_app, toy_tag_length.
  replace (length pt + 16 - 16)%nat with (length pt) by lia.
  rewrite (skipn_exact pt _ _ eq_refl), (firstn_exact pt _ _ eq_refl).
  rewrite toy_sameBytes_refl.
  destruct (Nat.leb_spec 16 (length pt + 16)); [reflexivity | lia].
Qed.

Lemma length_list_byte_of_string s : length (list_byte_of_string s) = String.length s.
Proof.
  unfold list_byte_of_string. rewrite List.length_map. apply length_chars.
Qed.

Lemma toy_lawful : Lawful Toy.platform.
Proof.
  constructor; simpl.
  - apply string_of_list_byte_of_string.
  - intros b s. destruct (length b <=? 4096)%nat; [|discriminate].
    intros [= <-]. now rewrite list_byte_of_string_of_list_byte.
  - intros k iv pt. apply toy_unseal.
Qed.

Lemma toy_sized : Sized Toy.platform.
Proof.
  constructor; cbn [btoa aesGcmEncrypt Toy.platform].
  - intros b Hb. destruct (Nat.leb_spec (length b) 4096); [discriminate | lia].
  - intros k iv pt. now rewrite List.length_app, toy_tag_length.
  - intros s. pose proof (length_list_byte_of_string s) as H.
    unfold encode, Toy.platform. lia.
Qed.

Lemma toy_zero_padded : ZeroPadded Toy.platform.
Proof.
  constructor; simpl.
  - intros pw salt _ Hlen. f_equal. unfold Toy.hmacKey.
    rewrite List.length_app. simpl. rewrite <- List.app_assoc. f_equal.
    replace (64 - length pw)%nat with (S (64 - (length pw + 1))) by lia.
    reflexivity.
  - intros s. induction s as [|c s IH]; [reflexivity|].
    change (list_byte_of_string (String c s ++ NUL))
      with (byte_of_ascii c :: list_byte_of_string (s ++ NUL)).
    now rewrite IH.
Qed.

(** C9.  Over a platform with the round trips, the sizes and the key
    filling of the real one, and for a 16-byte salt and a 12-byte nonce:
    [createValidator] returns a validator, and it verifies with its
    password.  With any password [q] it verifies exactly when AES-GCM,
    under the key derived from [q], opens the ciphertext of the validator
    to the validator string: so it verifies with every password that
    derives the same key, the password followed by U+0000 among them when
    it has fewer than 64 bytes, and it does not verify with a password
    under whose key AES-GCM rejects the ciphertext. *)
Theorem validator_verifies_by_key
    (P : Platform) (HP : Lawful P) (HS : Sized P) (HZ : ZeroPadded P)
    (salt iv : list Byte.byte) (p : string) :
  length salt = SALT_LENGTH -> length iv = IV_LENGTH ->
  exists validator,
    createValidator P salt iv p = Some validator
    /\ verifyPassword P validator p = true
    /\ (forall q, verifyPassword P validator q = true
                  <-> opened P salt iv VALIDATOR_STRING p q = Some VALIDATOR_STRING)
    /\ (forall q, deriveKey P q salt = deriveKey P p salt ->
                  verifyPassword P validator q = true)
    /\ ((length (encode P p) < 64)%nat ->
        (p ++ NUL)%string <> p /\ verifyPassword P validator (p ++ NUL) = true)
    /\ (forall q,
          aesGcmDecrypt P (deriveKey P q salt) iv
            (aesGcmEncrypt P (deriveKey P p salt) iv (encode P VALIDATOR_STRING)) = None ->
          verifyPassword P validator q = false).
Proof.
  intros Hs Hi.
  destruct (encrypt_returns P HS salt iv VALIDATOR_STRING p Hs Hi) as [validator Hv].
  { simpl. lia. }
  exists validator. split; [exact Hv|].
  pose proof (fun q => verifyPassword_opened P HP salt iv p q validator Hs Hi Hv) as Hiff.
  assert (Hkey : forall q, deriveKey P q salt = deriveKey P p salt ->
                           verifyPassword P validator q = true).
  { intros q Hk. apply Hiff. now apply opened_same_key. }
  split; [now apply Hkey|]. split; [exact Hiff|]. split; [exact Hkey|]. split.
  - intros Hlen. split.
    + intros H. apply append_self_nil in H. discriminate H.
    + apply Hkey. now apply deriveKey_nul.
  - intros q Hrej. apply not_true_is_false. intros Hq. apply Hiff in Hq.
    unfold opened in Hq. rewrite Hrej in Hq. discriminate Hq.
Qed.

(** The password followed by U+0000 is another password that verifies:
    on every platform that fills keys as HMAC does, and on the small
    platform for the password [hunter2]. *)
Theorem padded_password_is_accepted :
  (forall P : Platform, Lawful P -> ZeroPadded P ->
   forall salt iv p validator,
     length salt = SALT_LENGTH -> length iv = IV_LENGTH ->
     (length (encode P p) < 64)%nat ->
     createValidator P salt iv p = Some validator ->
     (p ++ NUL)%string <> p /\ verifyPassword P validator (p ++ NUL) = true)
  /\ (exists validator,
        createValidator Toy.platform (repeat Byte.x2a 16) (repeat Byte.x07 12) "hunter2"
        = Some validator
        /\ verifyPassword Toy.platform validator ("hunter2" ++ NUL) = true).
Proof.
  split.
  - intros P HP HZ salt iv p validator Hs Hi Hlen Hv. split.
    + intros H. apply append_self_nil in H. discriminate H.
    + apply (verifyPassword_opened P HP salt iv p _ validator Hs Hi Hv).
      apply opened_same_key; [exact HP|]. now apply deriveKey_nul.
  - eexists. split; [reflexivity|]. vm_compute. reflexivity.
Qed.

Lemma validator_verifies_by_key_witness :
  exists validator,
    createValidator Toy.platform (repeat Byte.x2a 16) (repeat Byte.x07 12) "hunter2"
    = Some validator
    /\ verifyPassword Toy.platform validator "hunter2" = true
    /\ verifyPassword Toy.platform validator ("hunter2" ++ NUL) = true
    /\ verifyPassword Toy.platform validator "" = false
    /\ verifyPassword Toy.platform validator "hunter2 " = false.
Proof.
  destruct (validator_verifies_by_key Toy.platform toy_lawful toy_sized toy_zero_padded
              (repeat Byte.x2a 16) (repeat Byte.x07 12) "hunter2" eq_refl eq_refl)
    as (validator & Hv & Hown & _ & _ & Hpad & Hrej).
  exists validator. split; [exact Hv|]. split; [exact Hown|]. split.
  - apply Hpad. vm_compute. lia.
  - split; apply Hrej; reflexivity.
Defined.

End VaultFacts.

(** * Properties of the surrounding code *)

(** ** The client calls *)

Section ClientFacts.
Import Eff Client EthosClient.
Context {T : Type}.

Lemma perform_unfold (l : Lookup) (net : Net T) tm arg (st : Client T) :
  perform l net tm arg st =
  match getFromCache (atLookup tm) (keyFor l arg) (cache st) with
  | (Some c, c') => (Content.Returned (Some c), mkClient c' (requests st))
  | (None, c') =>
      let url := urlFor l arg in
      let reqs := requests st ++ [url] in
      match payload (fetch net (length (requests st)) url) with
      | Some d =>
          (Content.Returned (Some d),
           mkClient (setCache (atCleanup tm) (atStore tm) (keyFor l arg) d (ttlFor l) c') reqs)
      | None => (Content.Returned None, mkClient c' reqs)
      end
  end.
Proof.
  destruct l; unfold perform, getScoreByAddress, getUserByAddress, getUserByTwitter,
    keyFor, urlFor, ttlFor, cached, apiRequest, doFetch, payload, remember, usable;
  unfold bind, tryCatch, modify, ret, throw, settle;
  match goal with |- context [fetch net _ ?u] => generalize u; intros url end;
  match goal with |- context [getFromCache _ ?k _] => generalize k; intros key end;
  destruct (getFromCache _ _ _) as [[c|] c']; simpl; try reflexivity;
  (destruct (fetch net _ _) as [r|]; simpl; [|reflexivity]);
  (destruct (ok r); simpl; [|destruct (status r =? 404); simpl; reflexivity]);
  destruct (json r) as [[d|]|]; simpl; reflexivity.
Qed.


Lemma keyFor_lower (l : Lookup) a b :
  JS.toLowerCase a = JS.toLowerCase b -> keyFor l a = keyFor l b.
Proof. intros H. destruct l; unfold keyFor; now rewrite H. Qed.

(** X1.  No client call rejects.  When the cache has no live entry for the
    lookup and the request fails in any way (the network fails, the status
    is 404 or any other status outside 200-299, the body does not parse or
    is a falsy value), the call returns null after exactly one request and
    stores nothing. *)
Theorem client_failure_is_null (l : Lookup) (net : Net T) tm arg (st : Client T) :
  (exists r st', perform l net tm arg st = (Content.Returned r, st'))
  /\ (fst (getFromCache (atLookup tm) (keyFor l arg) (cache st)) = None ->
      payload (fetch net (length (requests st)) (urlFor l arg)) = None ->
      perform l net tm arg st
      = (Content.Returned None,
         mkClient (snd (getFromCache (atLookup tm) (keyFor l arg) (cache st)))
                  (requests st ++ [urlFor l arg]))).
Proof.
  rewrite perform_unfold.
  destruct (getFromCache _ _ _) as [[c|] c']; simpl.
  - split; [eauto | discriminate].
  - destruct (payload _) as [d|]; split; eauto; discriminate.
Qed.

(** X2.  A body fetched for a lookup is served from the cache afterwards:
    until its time to live has passed (inclusive), the same lookup, with
    its argument in any letter case, returns the same body without a
    request and without changing the state; after that it asks the network
    again. *)
Theorem client_cache_hit (l : Lookup) (net : Net T) tm arg (st : Client T) d :
  fst (getFromCache (atLookup tm) (keyFor l arg) (cache st)) = None ->
  payload (fetch net (length (requests st)) (urlFor l arg)) = Some d ->
  exists st1,
    perform l net tm arg st = (Content.Returned (Some d), st1)
    /\ requests st1 = requests st ++ [urlFor l arg]
    /\ forall (net' : Net T) tm' arg',
         JS.toLowerCase arg' = JS.toLowerCase arg ->
         (atLookup tm' <= atStore tm + ttlFor l ->
          perform l net' tm' arg' st1 = (Content.Returned (Some d), st1))
         /\ (atStore tm + ttlFor l < atLookup tm' ->
             requests (snd (perform l net' tm' arg' st1))
             = requests st1 ++ [urlFor l arg']).
Proof.
  intros Hmiss Hd. rewrite perform_unfold.
  destruct (getFromCache (atLookup tm) _ _) as [[c|] c'] eqn:E; simpl in Hmiss;
    [discriminate|].
  simpl. rewrite Hd. eexists. split; [reflexivity|]. split; [reflexivity|].
  intros net' tm' arg' Hcase. rewrite perform_unfold. simpl.
  rewrite (keyFor_lower l arg' arg Hcase).
  unfold getFromCache, setCache. rewrite omap_get_set_eq. simpl.
  split; intros Ht.
  - destruct (Z.gtb_spec (atLookup tm') (atStore tm + ttlFor l)); [lia|].
    reflexivity.
  - destruct (Z.gtb_spec (atLookup tm') (atStore tm + ttlFor l)); [|lia].
    destruct (payload (fetch net' _ _)); reflexivity.
Qed.

(** X3.  Two lookups share a cache entry exactly when they are of the same
    kind and their arguments are equal up to letter case: a score, a
    profile by address and a profile by handle never read each other's
    entries. *)
Theorem client_keys_separate (l l' : Lookup) (a b : string) :
  keyFor l a = keyFor l' b <-> l = l' /\ JS.toLowerCase a = JS.toLowerCase b.
Proof.
  split.
  - destruct l, l'; unfold keyFor; simpl; intros H; try discriminate;
      injection H as H; auto.
  - intros [<- H]. now apply keyFor_lower.
Qed.

End ClientFacts.

Section ClientInstances.
Import Eff Client EthosClient Cases.

Lemma client_failure_is_null_witness :
  perform ScoreOf netDown atZero Scenario.addr40 freshClient
  = (Content.Returned None,
     mkClient (snd (getFromCache 0 (keyFor ScoreOf Scenario.addr40) []))
              [urlFor ScoreOf Scenario.addr40]).
Proof.
  exact (proj2 (client_failure_is_null ScoreOf netDown atZero Scenario.addr40 freshClient)
               eq_refl eq_refl).
Defined.

Lemma client_cache_hit_witness :
  exists st1,
    perform ScoreOf netScore atZero Scenario.addr40 freshClient
    = (Content.Returned (Some 1450), st1)
    /\ requests st1 = [urlFor ScoreOf Scenario.addr40]
    /\ forall (net' : Net Z) tm' arg',
         JS.toLowerCase arg' = JS.toLowerCase Scenario.addr40 ->
         (atLookup tm' <= 0 + ttlFor ScoreOf ->
          perform ScoreOf net' tm' arg' st1 = (Content.Returned (Some 1450), st1))
         /\ (0 + ttlFor ScoreOf < atLookup tm' ->
             requests (snd (perform ScoreOf net' tm' arg' st1))
             = requests st1 ++ [urlFor ScoreOf arg']).
Proof.
  exact (client_cache_hit ScoreOf netScore atZero Scenario.addr40 freshClient 1450
           eq_refl eq_refl).
Defined.

End ClientInstances.


(** ** The notes vault

    The statements that depend on the cryptography are over a platform
    with the round trips of the real one ([Crypto.Lawful]) and whose
    [atob] decodes the empty string to no bytes, with the 16-byte salt and
    the 12-byte nonce that [encrypt] draws. *)

Section VaultNotes.
Import Eff Vault.
Context (P : Crypto.Platform) (HP : Crypto.Lawful P).
Context (Hempty : Crypto.atob P "" = Some []).


Lemma blob_truthy salt iv pt k blob :
  length salt = 16%nat ->
  Crypto.encrypt P salt iv pt k = Some blob -> JS.truthy blob = true.
Proof.
  intros Hs He. destruct blob; [|reflexivity].
  unfold Crypto.encrypt in He. apply (Crypto.atob_btoa P HP) in He.
  rewrite Hempty in He. injection He as He.
  destruct salt; discriminate.
Qed.

Lemma save_works chrome salt iv a content k w :
  unlockedWith k w ->
  storageWorks chrome (storageCalls w) = true ->
  saveNoteForAddress P chrome salt iv a content w
  = if JS.isBlank content
    then (Content.Returned true, set_sync (fun m => delete (getNoteKey a) m) (counted w))
    else match Crypto.encrypt P salt iv content k with
         | Some blob =>
             (Content.Returned true,
              set_sync (fun m => <[getNoteKey a := blob]> m) (counted w))
         | None => (Content.Returned false, w)
         end.
Proof.
  intros [Hk Ht] Hs.
  unfold saveNoteForAddress, encrypt, bind, read, tryCatch, syncSet, syncRemove,
    storageCall, ret, throw.
  rewrite Hk. unfold JS.orUndefined. rewrite Ht.
  destruct (JS.isBlank content); simpl; [rewrite Hs; reflexivity|].
  destruct (Crypto.encrypt P salt iv content k); [rewrite Hs|]; reflexivity.
Qed.

Lemma load_works chrome a k w :
  unlockedWith k w ->
  storageWorks chrome (storageCalls w) = true ->
  loadNoteForAddress P chrome a w
  = (Content.Returned
       match sync w !! getNoteKey a with
       | Some blob =>
           if JS.truthy blob then
             match Crypto.decrypt P blob k with Some s => s | None => "" end
           else ""
       | None => ""
       end,
     counted w).
Proof.
  intros [Hk Ht] Hs.
  unfold loadNoteForAddress, bind, read, tryCatch, syncGet, storageCall, ret, decrypt, throw.
  rewrite Hk. unfold JS.orUndefined at 1. rewrite Ht. simpl. rewrite Hs.
  destruct (sync w !! getNoteKey a) as [blob|]; simpl; [|reflexivity].
  destruct (JS.truthy blob); [|reflexivity].
  destruct (Crypto.decrypt P blob k); reflexivity.
Qed.


Lemma decrypt_same_key salt iv pt k k' blob :
  length salt = 16%nat -> length iv = 12%nat ->
  Crypto.encrypt P salt iv pt k = Some blob ->
  Crypto.deriveKey P k' salt = Crypto.deriveKey P k salt ->
  Crypto.decrypt P blob k' = Some pt.
Proof.
  intros Hs Hi He Hk. rewrite (decrypt_encrypt P HP salt iv pt k k' blob Hs Hi He).
  now apply opened_same_key.
Qed.

Lemma getNoteKey_lower a b :
  JS.toLowerCase a = JS.toLowerCase b -> getNoteKey a = getNoteKey b.
Proof. unfold getNoteKey. now intros ->. Qed.

Lemma getNoteKey_inj a b :
  getNoteKey a = getNoteKey b -> JS.toLowerCase a = JS.toLowerCase b.
Proof. unfold getNoteKey, NOTE_PREFIX. simpl. now intros [= H]. Qed.

(** X4.  For a 16-byte salt and a 12-byte nonce: [encrypt] returns for a
    plaintext of up to 326 characters; and whenever it returns, [decrypt]
    gives the plaintext back under the same password and under every
    password that derives the same key, and under any password it answers
    exactly as AES-GCM does under the key of that password: it finds the
    salt, the nonce and the ciphertext again in what [encrypt] packed. *)
Theorem decrypt_inverts_encrypt salt iv plaintext password :
  length salt = Crypto.SALT_LENGTH -> length iv = Crypto.IV_LENGTH ->
  (Crypto.Sized P -> (String.length plaintext <= 326)%nat ->
   exists blob, Crypto.encrypt P salt iv plaintext password = Some blob)
  /\ (forall blob,
        Crypto.encrypt P salt iv plaintext password = Some blob ->
        Crypto.decrypt P blob password = Some plaintext
        /\ (forall other,
              Crypto.deriveKey P other salt = Crypto.deriveKey P password salt ->
              Crypto.decrypt P blob other = Some plaintext)
        /\ (forall other,
              Crypto.decrypt P blob other
              = Crypto.opened P salt iv plaintext password other)).
Proof.
  intros Hs Hi. split.
  - intros HS Hlen. now apply encrypt_returns.
  - intros blob He. split; [|split].
    + now apply (decrypt_same_key salt iv plaintext password password blob).
    + intros other Hk.
      now apply (decrypt_same_key salt iv plaintext password other blob).
    + intros other. now apply (decrypt_encrypt P HP).
Qed.

(** X5.  Storage keys.  Two addresses get the same note key exactly when
    they are equal up to letter case, and no note key is the key under
    which the validator is stored. *)
Theorem note_keys (a b : string) :
  (getNoteKey a = getNoteKey b <-> JS.toLowerCase a = JS.toLowerCase b)
  /\ getNoteKey a <> VALIDATOR.
Proof.
  split; [split; [apply getNoteKey_inj | apply getNoteKey_lower]|].
  unfold getNoteKey, NOTE_PREFIX, VALIDATOR. simpl. discriminate.
Qed.

(** X6.  A note is read back unchanged when [encrypt] can take it.
    With the vault unlocked and the two storage calls resolving, saving
    non-blank text for an address stores what [encrypt] returns, and
    loading the note of the same address, written in any letter case,
    returns the text.  When [encrypt] throws, the text being too long for
    its call of [btoa], the save reports [false] and nothing is stored. *)
Theorem note_roundtrip chrome salt iv a a' content k w :
  length salt = 16%nat -> length iv = 12%nat ->
  unlockedWith k w ->
  JS.isBlank content = false ->
  storageWorks chrome (storageCalls w) = true ->
  storageWorks chrome (S (storageCalls w)) = true ->
  JS.toLowerCase a' = JS.toLowerCase a ->
  match Crypto.encrypt P salt iv content k with
  | Some blob =>
      exists w1 w2,
        saveNoteForAddress P chrome salt iv a content w = (Content.Returned true, w1)
        /\ sync w1 = <[getNoteKey a := blob]> (sync w)
        /\ loadNoteForAddress P chrome a' w1 = (Content.Returned content, w2)
        /\ sync w2 = sync w1 /\ page w2 = page w
  | None =>
      saveNoteForAddress P chrome salt iv a content w = (Content.Returned false, w)
  end.
Proof.
  intros Hs Hi Hk Hb H0 H1 Hcase.
  rewrite (save_works chrome salt iv a content k w Hk H0). rewrite Hb.
  destruct (Crypto.encrypt P salt iv content k) as [blob|] eqn:He; [|reflexivity].
  eexists. eexists. split; [reflexivity|]. split; [reflexivity|].
  rewrite (load_works chrome a' k); [|exact Hk|exact H1].
  rewrite (getNoteKey_lower a' a Hcase). simpl.
  rewrite lookup_insert_eq. rewrite (blob_truthy salt iv content k blob Hs He).
  rewrite (decrypt_same_key salt iv content k k blob Hs Hi He eq_refl). auto.
Qed.

(** X7.  Saving blank text (empty or white space only) deletes the note:
    the entry of the address leaves the sync storage and a later load
    gives the empty string. *)
Theorem blank_note_is_removed chrome salt iv a a' content k w :
  unlockedWith k w ->
  JS.isBlank content = true ->
  storageWorks chrome (storageCalls w) = true ->
  storageWorks chrome (S (storageCalls w)) = true ->
  JS.toLowerCase a' = JS.toLowerCase a ->
  exists w1 w2,
    saveNoteForAddress P chrome salt iv a content w = (Content.Returned true, w1)
    /\ sync w1 = delete (getNoteKey a) (sync w)
    /\ loadNoteForAddress P chrome a' w1 = (Content.Returned "", w2).
Proof.
  intros Hk Hb H0 H1 Hcase.
  rewrite (save_works chrome salt iv a content k w Hk H0). rewrite Hb.
  eexists. eexists. split; [reflexivity|]. split; [reflexivity|].
  rewrite (load_works chrome a' k); [|exact Hk|exact H1].
  rewrite (getNoteKey_lower a' a Hcase). simpl.
  rewrite lookup_delete_eq. reflexivity.
Qed.

Lemma locked_vault_is_inert_aux chrome salt iv a content w :
  JS.orUndefined (Content.vaultSessionKey (page w)) = None ->
  saveNoteForAddress P chrome salt iv a content w = (Content.Returned false, w)
  /\ loadNoteForAddress P chrome a w = (Content.Returned "", w).
Proof.
  intros H. unfold saveNoteForAddress, loadNoteForAddress, bind, read, ret.
  rewrite H. split; reflexivity.
Qed.

(** X8.  Notes are kept per address: saving or deleting the note of one
    address does not change what is loaded for an address that differs
    from it in more than letter case. *)
Theorem notes_are_per_address chrome salt iv a b content k w :
  unlockedWith k w ->
  (forall n, storageWorks chrome n = true) ->
  JS.toLowerCase a <> JS.toLowerCase b ->
  fst (loadNoteForAddress P chrome b
         (snd (saveNoteForAddress P chrome salt iv a content w)))
  = fst (loadNoteForAddress P chrome b w).
Proof.
  intros Hk Hall Hne.
  rewrite (save_works chrome salt iv a content k w Hk (Hall _)).
  rewrite (load_works chrome b k w Hk (Hall _)).
  assert (Hkey : getNoteKey a <> getNoteKey b).
  { intros H. now apply getNoteKey_inj in H. }
  destruct (JS.isBlank content).
  - rewrite (load_works chrome b k); [|exact Hk|apply Hall].
    simpl. now rewrite lookup_delete_ne.
  - destruct (Crypto.encrypt P salt iv content k) as [blob|].
    + rewrite (load_works chrome b k); [|exact Hk|apply Hall].
      simpl. now rewrite lookup_insert_ne.
    + cbn [snd]. rewrite (load_works chrome b k w Hk (Hall _)). reflexivity.
Qed.


(** X9.  A note under another session key.  After a note was saved
    under the key [k], a load under a non-empty key [k'] returns what
    AES-GCM makes of the stored ciphertext under the key derived from
    [k']: the text when it opens, the empty string when it rejects (the
    rejection is caught).  It opens under every key that derives the same
    AES key as [k]: [k] followed by U+0000 is one, when [k] has fewer than
    64 bytes and the platform fills keys as HMAC does. *)
Theorem note_under_another_key chrome salt iv a content k k' blob w :
  length salt = 16%nat -> length iv = 12%nat ->
  unlockedWith k w ->
  JS.isBlank content = false ->
  Crypto.encrypt P salt iv content k = Some blob ->
  JS.truthy k' = true ->
  (forall n, storageWorks chrome n = true) ->
  let loaded :=
    fst (loadNoteForAddress P chrome a
           (set_page (Content.set_vaultSessionKey (Some k'))
                     (snd (saveNoteForAddress P chrome salt iv a content w)))) in
  loaded = Content.Returned
             match Crypto.opened P salt iv content k k' with
             | Some s => s
             | None => ""
             end
  /\ (Crypto.deriveKey P k' salt = Crypto.deriveKey P k salt ->
      loaded = Content.Returned content)
  /\ (Crypto.ZeroPadded P -> (length (Crypto.encode P k) < 64)%nat ->
      k' = (k ++ Crypto.NUL)%string -> loaded = Content.Returned content).
Proof.
  intros Hs Hi Hk Hb He Ht Hall loaded.
  assert (Hload : loaded = Content.Returned
             match Crypto.opened P salt iv content k k' with
             | Some s => s
             | None => ""
             end).
  { subst loaded.
    rewrite (save_works chrome salt iv a content k w Hk (Hall _)). rewrite Hb, He.
    rewrite (load_works chrome a k'); [|split; [reflexivity|exact Ht]|apply Hall].
    simpl. rewrite lookup_insert_eq. rewrite (blob_truthy salt iv content k blob Hs He).
    now rewrite (decrypt_encrypt P HP salt iv content k k' blob Hs Hi He). }
  assert (Hsame : Crypto.deriveKey P k' salt = Crypto.deriveKey P k salt ->
                  loaded = Content.Returned content).
  { intros Hkey. rewrite Hload. now rewrite (opened_same_key P HP). }
  split; [exact Hload|]. split; [exact Hsame|].
  intros HZ Hlen ->. apply Hsame. now apply deriveKey_nul.
Qed.

(** X10.  Saving and loading a note never reject, whatever the storage
    and the stored data do.  A save that reports [false] has left the
    stored notes as they were, and a load never changes them. *)
Theorem notes_never_reject chrome salt iv a content w :
  (exists b w', saveNoteForAddress P chrome salt iv a content w = (Content.Returned b, w')
                /\ (b = false -> sync w' = sync w))
  /\ (exists s w', loadNoteForAddress P chrome a w = (Content.Returned s, w')
                   /\ sync w' = sync w).
Proof.
  split.
  - unfold saveNoteForAddress, encrypt, bind, read, tryCatch, syncSet, syncRemove,
      storageCall, ret, throw.
    destruct (JS.orUndefined _) as [k|]; [|eauto].
    destruct (JS.isBlank content); simpl;
      [|destruct (Crypto.encrypt P salt iv content k); simpl; [|eauto]];
      destruct (storageWorks chrome (storageCalls w)); simpl;
      eexists; eexists; (split; [reflexivity|]); (discriminate || reflexivity).
  - unfold loadNoteForAddress, bind, read, tryCatch, syncGet, storageCall, ret, decrypt, throw.
    destruct (JS.orUndefined _) as [k|]; [|eauto]. simpl.
    destruct (storageWorks chrome (storageCalls w)); simpl; [|eauto].
    destruct (JS.orUndefined (sync w !! getNoteKey a)) as [blob|]; simpl; [|eauto].
    destruct (Crypto.decrypt P blob k); simpl; eauto.
Qed.


Lemma showTooltip_spec chrome el data w :
  showTooltip chrome el data w
  = (Content.Returned tt,
     if Content.overlayRoot (page w) then
       set_page (fun s => Content.showTooltip el data
                            (set_hasVaultSetup
                               (storageWorks chrome (storageCalls w)
                                && stored (sync w !! VALIDATOR)) s))
                (counted w)
     else w).
Proof.
  unfold showTooltip, bind, read, tryCatch, syncGet, storageCall, ret, modify, stored.
  destruct (Content.overlayRoot (page w)); [|reflexivity]. simpl.
  destruct (storageWorks chrome (storageCalls w)); reflexivity.
Qed.

Lemma showTooltip_keeps chrome el data w (w' := snd (showTooltip chrome el data w)) :
  Content.vaultSessionKey (page w') = Content.vaultSessionKey (page w)
  /\ sync w' = sync w /\ vaultSession w' = vaultSession w
  /\ errorText w' = errorText w
  /\ Content.isTooltipHovered (Content.hover (page w'))
     = Content.isTooltipHovered (Content.hover (page w))
  /\ Content.isTargetHovered (Content.hover (page w'))
     = Content.isTargetHovered (Content.hover (page w))
  /\ Content.hideTimeout (Content.hover (page w'))
     = Content.hideTimeout (Content.hover (page w)).
Proof.
  subst w'. rewrite showTooltip_spec. simpl.
  destruct (Content.overlayRoot (page w)) eqn:E; [|repeat split].
  unfold Content.showTooltip. simpl. rewrite E. simpl. repeat split.
Qed.

Lemma cancelHide_hover s :
  Content.isTooltipHovered (Content.hover (Content.cancelHide s))
  = Content.isTooltipHovered (Content.hover s)
  /\ Content.isTargetHovered (Content.hover (Content.cancelHide s))
     = Content.isTargetHovered (Content.hover s)
  /\ Content.hideTimeout (Content.hover (Content.cancelHide s)) = None.
Proof.
  unfold Content.cancelHide.
  destruct (Content.hideTimeout (Content.hover s)) eqn:E; simpl; auto.
Qed.

Lemma cancelHide_key s :
  Content.vaultSessionKey (Content.cancelHide s) = Content.vaultSessionKey s.
Proof. unfold Content.cancelHide. destruct (Content.hideTimeout _); reflexivity. Qed.

Lemma report_spec errorEl msg (x : World) :
  report errorEl msg x
  = (Content.Returned tt, if errorEl then set_errorText msg x else x).
Proof. unfold report. destruct errorEl; reflexivity. Qed.

Lemma tryUnlock_unfold chrome now password errorEl el data w :
  tryUnlockVault P chrome now password errorEl el data w
  = if negb (JS.truthy password) then report errorEl "Enter password" w
    else if negb (storageWorks chrome (storageCalls w))
    then report errorEl "Error unlocking" (counted w)
    else
      match JS.orUndefined (sync w !! VALIDATOR) with
      | None => report errorEl "No vault set up" (counted w)
      | Some validator =>
          if Crypto.verifyPassword P validator password then
            let w1 := set_page (Content.set_vaultSessionKey (Some password)) (counted w) in
            if storageWorks chrome (S (storageCalls w)) then
              showTooltip chrome el data
                (set_page (fun s =>
                   Content.cancelHide
                     (Content.set_hover
                        (fun hv => Content.mkHover (Content.currentHover hv) true true
                                     (Content.hideTimeout hv) (Content.view hv)
                                     (Content.visible hv) (Content.anchor hv)) s))
                   (set_vaultSession
                      (Some (mkSession password (now + SESSION_TIMEOUT_MS)))
                      (counted w1)))
            else report errorEl "Error unlocking" (counted w1)
          else report errorEl "Wrong password" (counted w)
      end.
Proof.
  unfold tryUnlockVault.
  destruct (JS.truthy password); cbn [negb]; [|reflexivity].
  unfold tryCatch, bind, syncGet, storageCall, setKey, modify, localSetSession, ret.
  destruct (storageWorks chrome (storageCalls w)); cbn [negb]; [|reflexivity].
  cbn [sync].
  destruct (JS.orUndefined (sync w !! VALIDATOR)) as [v|]; [|rewrite !report_spec; reflexivity].
  destruct (Crypto.verifyPassword P v password); [|rewrite !report_spec; reflexivity].
  unfold storageCall. cbn [storageCalls counted set_page].
  destruct (storageWorks chrome (S (storageCalls w))).
  - rewrite !showTooltip_spec. reflexivity.
  - reflexivity.
Qed.

(** X11.  [tryUnlockVault] case by case.  It never rejects and never
    writes to the sync storage.  An empty password is answered with "Enter
    password" and nothing else happens.  When the read of the validator
    rejects ("Error unlocking"), when no validator is stored ("No vault set
    up") and when the validator does not verify with the password ("Wrong
    password"), the session key and the stored session stay as they were.
    When the validator verifies, the session key becomes the password; if
    the call that stores the session then rejects, "Error unlocking" is
    shown and no session is stored, but the session key stays set. *)
Theorem unlock_requires_valid_password chrome now password errorEl el data w :
  let r := tryUnlockVault P chrome now password errorEl el data w in
  let key x := Content.vaultSessionKey (page x) in
  let shows msg := errorText (snd r) = if errorEl then msg else errorText w in
  let unchanged := key (snd r) = key w /\ vaultSession (snd r) = vaultSession w in
  fst r = Content.Returned tt
  /\ sync (snd r) = sync w
  /\ (JS.truthy password = false ->
      snd r = if errorEl then set_errorText "Enter password" w else w)
  /\ (JS.truthy password = true ->
      (storageWorks chrome (storageCalls w) = false ->
       unchanged /\ shows "Error unlocking")
      /\ (storageWorks chrome (storageCalls w) = true ->
          (stored (sync w !! VALIDATOR) = false ->
           unchanged /\ shows "No vault set up")
          /\ (forall validator,
                sync w !! VALIDATOR = Some validator -> JS.truthy validator = true ->
                (Crypto.verifyPassword P validator password = false ->
                 unchanged /\ shows "Wrong password")
                /\ (Crypto.verifyPassword P validator password = true ->
                    key (snd r) = Some password
                    /\ (storageWorks chrome (S (storageCalls w)) = false ->
                        vaultSession (snd r) = vaultSession w
                        /\ shows "Error unlocking")
                    /\ (storageWorks chrome (S (storageCalls w)) = true ->
                        vaultSession (snd r)
                        = Some (mkSession password (now + SESSION_TIMEOUT_MS))
                        /\ errorText (snd r) = errorText w))))).
Proof.
  intros r key shows unchanged.
  assert (Hrep : forall msg (x : World),
            r = report errorEl msg x ->
            fst r = Content.Returned tt
            /\ sync (snd r) = sync x /\ page (snd r) = page x
            /\ vaultSession (snd r) = vaultSession x
            /\ errorText (snd r) = if errorEl then msg else errorText x).
  { intros msg x ->. rewrite report_spec. destruct errorEl; repeat split. }
  pose proof (tryUnlock_unfold chrome now password errorEl el data w) as Hr.
  fold r in Hr. subst key shows unchanged. cbv beta.
  destruct (JS.truthy password) eqn:Hp; cbn [negb] in Hr.
  2:{ destruct (Hrep _ _ Hr) as (H1 & H2 & _).
      split; [exact H1|]. split; [exact H2|]. split; [|discriminate].
      intros _. rewrite Hr, report_spec. reflexivity. }
  destruct (storageWorks chrome (storageCalls w)) eqn:E0; cbn [negb] in Hr.
  2:{ destruct (Hrep _ _ Hr) as (H1 & H2 & H3 & H4 & H5).
      split; [exact H1|]. split; [exact H2|]. split; [discriminate|].
      intros _. split; [|discriminate]. intros _. rewrite H3, H4, H5. auto. }
  unfold stored.
  destruct (JS.orUndefined (sync w !! VALIDATOR)) as [v|] eqn:Ev.
  2:{ destruct (Hrep _ _ Hr) as (H1 & H2 & H3 & H4 & H5).
      split; [exact H1|]. split; [exact H2|]. split; [discriminate|].
      intros _. split; [discriminate|]. intros _. split.
      - intros _. rewrite H3, H4, H5. auto.
      - intros v Hv Htv. rewrite Hv in Ev. cbn in Ev. rewrite Htv in Ev. discriminate Ev. }
  assert (Hv : forall validator, sync w !! VALIDATOR = Some validator ->
                                 JS.truthy validator = true -> validator = v).
  { intros validator H Ht. rewrite H in Ev. cbn in Ev. rewrite Ht in Ev. congruence. }
  destruct (Crypto.verifyPassword P v password) eqn:Hver.
  2:{ destruct (Hrep _ _ Hr) as (H1 & H2 & H3 & H4 & H5).
      split; [exact H1|]. split; [exact H2|]. split; [discriminate|].
      intros _. split; [discriminate|]. intros _. split; [discriminate|].
      intros validator Hs Ht. rewrite (Hv _ Hs Ht), Hver.
      split; [|discriminate]. intros _. rewrite H3, H4, H5. auto. }
  cbv zeta in Hr.
  destruct (storageWorks chrome (S (storageCalls w))) eqn:E1.
  - assert (Hkeep : fst r = Content.Returned tt
                    /\ sync (snd r) = sync w
                    /\ Content.vaultSessionKey (page (snd r)) = Some password
                    /\ vaultSession (snd r)
                       = Some (mkSession password (now + SESSION_TIMEOUT_MS))
                    /\ errorText (snd r) = errorText w).
    { match type of Hr with _ = showTooltip chrome el data ?x =>
        pose proof (showTooltip_keeps chrome el data x) as Hk;
        pose proof (f_equal fst (showTooltip_spec chrome el data x)) as Hf
      end.
      cbv zeta in Hk. rewrite <- Hr in Hk, Hf. cbn [fst] in Hf.
      destruct Hk as (Hk & Hs & Hsess & Herr & _).
      cbn in Hk, Hs, Hsess, Herr. rewrite cancelHide_key in Hk.
      repeat split; assumption. }
    destruct Hkeep as (H1 & H2 & H3 & H4 & H5).
    split; [exact H1|]. split; [exact H2|]. split; [discriminate|].
    intros _. split; [discriminate|]. intros _. split; [discriminate|].
    intros validator Hs Ht. rewrite (Hv _ Hs Ht), Hver.
    split; [discriminate|]. intros _. split; [exact H3|].
    split; [discriminate|]. intros _. split; [exact H4 | exact H5].
  - destruct (Hrep _ _ Hr) as (H1 & H2 & H3 & H4 & H5).
    split; [exact H1|]. split; [exact H2|]. split; [discriminate|].
    intros _. split; [discriminate|]. intros _. split; [discriminate|].
    intros validator Hs Ht. rewrite (Hv _ Hs Ht), Hver.
    split; [discriminate|]. intros _. split; [rewrite H3; reflexivity|].
    split; [|discriminate]. intros _. rewrite H4, H5. auto.
Qed.


Lemma verify_own salt iv pw validator :
  length salt = 16%nat -> length iv = 12%nat ->
  Crypto.createValidator P salt iv pw = Some validator ->
  Crypto.verifyPassword P validator pw = true.
Proof.
  intros Hs Hi Hv. unfold Crypto.verifyPassword.
  unfold Crypto.createValidator in Hv.
  rewrite (decrypt_same_key salt iv _ pw pw validator Hs Hi Hv eq_refl).
  apply String.eqb_refl.
Qed.

Lemma tryUnlock_valid chrome now pw errorEl el data w v :
  JS.truthy pw = true ->
  (forall n, storageWorks chrome n = true) ->
  sync w !! VALIDATOR = Some v -> JS.truthy v = true ->
  Crypto.verifyPassword P v pw = true ->
  tryUnlockVault P chrome now pw errorEl el data w
  = showTooltip chrome el data
      (set_page (fun s =>
                   Content.cancelHide
                     (Content.set_hover
                        (fun hv => Content.mkHover (Content.currentHover hv) true true
                                     (Content.hideTimeout hv) (Content.view hv)
                                     (Content.visible hv) (Content.anchor hv)) s))
         (set_vaultSession (Some (mkSession pw (now + SESSION_TIMEOUT_MS)))
            (counted (set_page (Content.set_vaultSessionKey (Some pw)) (counted w))))).
Proof.
  intros Hp Hall Hv Htv Hver. unfold tryUnlockVault. rewrite Hp. simpl.
  unfold tryCatch, bind, syncGet, storageCall, setKey, modify, localSetSession, ret.
  rewrite Hall. simpl. rewrite Hv. simpl. rewrite Htv, Hver. simpl.
  unfold storageCall. simpl. rewrite Hall. simpl.
  rewrite !showTooltip_spec. reflexivity.
Qed.

Lemma tryUnlock_invalid chrome now pw errorEl el data w v :
  JS.truthy pw = true ->
  (forall n, storageWorks chrome n = true) ->
  sync w !! VALIDATOR = Some v -> JS.truthy v = true ->
  Crypto.verifyPassword P v pw = false ->
  tryUnlockVault P chrome now pw errorEl el data w
  = (Content.Returned tt,
     if errorEl then set_errorText "Wrong password" (counted w) else counted w).
Proof.
  intros Hp Hall Hv Htv Hver. unfold tryUnlockVault. rewrite Hp. simpl.
  unfold tryCatch, bind, syncGet, storageCall, report.
  rewrite Hall. simpl. rewrite Hv. simpl. rewrite Htv, Hver.
  destruct errorEl; reflexivity.
Qed.

Lemma unlock_opens_session_aux chrome salt iv now pw el data w validator :
  length salt = 16%nat -> length iv = 12%nat ->
  JS.truthy pw = true ->
  (forall n, storageWorks chrome n = true) ->
  Crypto.createValidator P salt iv pw = Some validator ->
  sync w !! VALIDATOR = Some validator ->
  vaultSession (snd (tryUnlockVault P chrome now pw true el data w))
  = Some (mkSession pw (now + 3600000)).
Proof.
  intros Hs Hi Hp Hall Hc Hv.
  rewrite (tryUnlock_valid chrome now pw true el data w _ Hp Hall Hv)
    by (exact (blob_truthy salt iv Crypto.VALIDATOR_STRING pw validator Hs Hc)
        || exact (verify_own salt iv pw validator Hs Hi Hc)).
  match goal with |- context [showTooltip chrome el data ?y] => set (x := y) end.
  destruct (showTooltip_keeps chrome el data x) as (_ & _ & -> & _). reflexivity.
Qed.

(** X12.  With the storage calls resolving and the validator of a vault
    that was created with the password [pw] stored: unlocking from the
    tooltip with [pw] sets the session key, stores a session that expires
    one hour later, keeps the tooltip open (both hover flags raised, no
    hide timer) and shows no error; a non-empty password with which the
    validator does not verify leaves the page and the stored session
    untouched and shows "Wrong password". *)
Theorem unlock_opens_session chrome salt iv now pw el data w validator :
  length salt = 16%nat -> length iv = 12%nat ->
  JS.truthy pw = true ->
  (forall n, storageWorks chrome n = true) ->
  Crypto.createValidator P salt iv pw = Some validator ->
  sync w !! VALIDATOR = Some validator ->
  (let w' := snd (tryUnlockVault P chrome now pw true el data w) in
   unlockedWith pw w'
   /\ vaultSession w' = Some (mkSession pw (now + 3600000))
   /\ Content.isTooltipHovered (Content.hover (page w')) = true
   /\ Content.isTargetHovered (Content.hover (page w')) = true
   /\ Content.hideTimeout (Content.hover (page w')) = None
   /\ errorText w' = errorText w)
  /\ (forall pw', JS.truthy pw' = true ->
      Crypto.verifyPassword P validator pw' = false ->
      let w' := snd (tryUnlockVault P chrome now pw' true el data w) in
      page w' = page w /\ vaultSession w' = vaultSession w
      /\ errorText w' = "Wrong password").
Proof.
  intros Hs Hi Hp Hall Hc Hv.
  assert (Htv : JS.truthy validator = true)
    by exact (blob_truthy salt iv Crypto.VALIDATOR_STRING pw validator Hs Hc).
  split.
  - rewrite (tryUnlock_valid chrome now pw true el data w _ Hp Hall Hv Htv)
      by exact (verify_own salt iv pw validator Hs Hi Hc).
    match goal with |- context [showTooltip chrome el data ?y] => set (x := y) end.
    destruct (showTooltip_keeps chrome el data x) as (Hk & _ & Hsess & Herr & Hth & Htg & Hhide).
    unfold unlockedWith. rewrite Hk, Hsess, Herr, Hth, Htg, Hhide.
    subst x. simpl. rewrite cancelHide_key.
    match goal with |- context [Content.cancelHide ?y] =>
      destruct (cancelHide_hover y) as (-> & -> & ->) end.
    simpl. repeat split; assumption.
  - intros pw' Hp' Hno.
    rewrite (tryUnlock_invalid chrome now pw' true el data w _ Hp' Hall Hv Htv Hno).
    simpl. auto.
Qed.

Lemma loadVaultSession_spec chrome now w :
  (forall n, storageWorks chrome n = true) ->
  loadVaultSession chrome now w
  = (Content.Returned tt,
     match vaultSession w with
     | Some v =>
         if now <? s_expiresAt v
         then set_page (Content.set_vaultSessionKey (Some (s_key v))) (counted w)
         else set_vaultSession None
                (counted (set_page (Content.set_vaultSessionKey None) (counted w)))
     | None => set_page (Content.set_vaultSessionKey None) (counted w)
     end).
Proof.
  intros Hall. unfold loadVaultSession, tryCatch, bind, localGetSession,
    localRemoveSession, storageCall, setKey, modify, ret.
  rewrite Hall. simpl. unfold counted.
  destruct (vaultSession w) as [v|] eqn:E; [|reflexivity].
  destruct (now <? s_expiresAt v); [reflexivity|]. simpl. rewrite Hall. reflexivity.
Qed.

(** X13.  The session stored by an unlock lasts one hour.  With the
    validator of a vault created with the password stored and the storage
    calls resolving: a page that loads the session less than 3600000 ms
    after the unlock gets the password as its session key; from that
    moment on the load leaves the page locked and removes the stored
    session. *)
Theorem session_lasts_one_hour chrome salt iv now pw el data w validator :
  length salt = 16%nat -> length iv = 12%nat ->
  JS.truthy pw = true ->
  (forall n, storageWorks chrome n = true) ->
  Crypto.createValidator P salt iv pw = Some validator ->
  sync w !! VALIDATOR = Some validator ->
  let w' := snd (tryUnlockVault P chrome now pw true el data w) in
  forall (later : Z) (s0 : Content.State) (e : string) (n : nat),
    let loaded := snd (loadVaultSession chrome later
                         (mkWorld s0 (sync w') (vaultSession w') e n)) in
    (later < now + 3600000 ->
     Content.vaultSessionKey (page loaded) = Some pw
     /\ vaultSession loaded = vaultSession w')
    /\ (now + 3600000 <= later ->
        Content.vaultSessionKey (page loaded) = None
        /\ vaultSession loaded = None).
Proof.
  intros Hs Hi Hp Hall Hc Hv w' later s0 e n loaded.
  pose proof (unlock_opens_session_aux chrome salt iv now pw el data w validator
                Hs Hi Hp Hall Hc Hv) as Hsess.
  fold w' in Hsess.
  subst loaded. rewrite loadVaultSession_spec by assumption.
  cbn [vaultSession]. rewrite Hsess. cbn [s_expiresAt s_key].
  split; intros Ht.
  - destruct (Z.ltb_spec later (now + 3600000)) as [|Hge]; [|lia]. simpl. auto.
  - destruct (Z.ltb_spec later (now + 3600000)) as [Hlt|]; [lia|]. simpl. auto.
Qed.


Lemma rerender_spec chrome w :
  rerenderHovered chrome w
  = match Content.currentHover (Content.hover (page w)) with
    | Some (element, id) =>
        match Content.identifierData (page w) !! id with
        | Some data => showTooltip chrome element data w
        | None => (Content.Returned tt, w)
        end
    | None => (Content.Returned tt, w)
    end.
Proof.
  unfold rerenderHovered, bind, read, ret.
  destruct (Content.currentHover _) as [[el id]|]; [|reflexivity].
  destruct (_ !! id); reflexivity.
Qed.

Lemma rerender_keeps chrome w (w' := snd (rerenderHovered chrome w)) :
  fst (rerenderHovered chrome w) = Content.Returned tt
  /\ Content.vaultSessionKey (page w') = Content.vaultSessionKey (page w)
  /\ sync w' = sync w /\ vaultSession w' = vaultSession w.
Proof.
  subst w'. rewrite rerender_spec.
  destruct (Content.currentHover _) as [[el id]|]; [|repeat split].
  destruct (_ !! id) as [data|]; [|repeat split].
  destruct (showTooltip_keeps chrome el data w) as (H1 & H2 & H3 & _).
  rewrite showTooltip_spec in *. simpl in *. auto.
Qed.

(** X14.  The vault messages.  After [VAULT_LOCKED] the page has no
    session key, a save reports [false], a load gives the empty string, and
    the tooltip of the hovered identifier is rendered again without the
    note field.  After [VAULT_UNLOCKED] with a non-empty key the page is
    unlocked with that key and the tooltip is rendered with the note
    field.  Neither message changes the stored notes. *)
Theorem vault_messages chrome salt iv a content w :
  (let w' := snd (onVaultLocked chrome w) in
   Content.vaultSessionKey (page w') = None
   /\ sync w' = sync w
   /\ fst (saveNoteForAddress P chrome salt iv a content w') = Content.Returned false
   /\ fst (loadNoteForAddress P chrome a w') = Content.Returned ""
   /\ (forall el id data,
         Content.overlayRoot (page w) = true ->
         Content.currentHover (Content.hover (page w)) = Some (el, id) ->
         Content.identifierData (page w) !! id = Some data ->
         exists c, Content.view (Content.hover (page w')) = Content.ViewFull c
                   /\ Content.tc_noteSection c = false))
  /\ (forall k, JS.truthy k = true ->
      let w' := snd (onVaultUnlocked chrome (Some k) w) in
      unlockedWith k w'
      /\ sync w' = sync w
      /\ (forall el id data,
            Content.overlayRoot (page w) = true ->
            Content.currentHover (Content.hover (page w)) = Some (el, id) ->
            Content.identifierData (page w) !! id = Some data ->
            exists c, Content.view (Content.hover (page w')) = Content.ViewFull c
                      /\ Content.tc_noteSection c = true)).
Proof.
  split.
  - unfold onVaultLocked, bind, setKey, modify. simpl.
    set (x := set_page (Content.set_vaultSessionKey None) w).
    destruct (rerender_keeps chrome x) as (_ & Hk & Hs & _).
    assert (Hnone : Content.vaultSessionKey (page (snd (rerenderHovered chrome x))) = None)
      by (rewrite Hk; reflexivity).
    split; [exact Hnone|]. split; [rewrite Hs; reflexivity|].
    split; [|split].
    + apply (f_equal fst (proj1 (locked_vault_is_inert_aux chrome salt iv a content _
                                   (f_equal JS.orUndefined Hnone)))).
    + apply (f_equal fst (proj2 (locked_vault_is_inert_aux chrome salt iv a content _
                                   (f_equal JS.orUndefined Hnone)))).
    + intros el id data Ho Hh Hd. rewrite rerender_spec. subst x. simpl.
      rewrite Hh, Hd, showTooltip_spec. simpl. rewrite Ho. simpl.
      unfold Content.showTooltip. simpl. rewrite Ho. simpl. eauto.
  - intros k Hk. unfold onVaultUnlocked. simpl. rewrite Hk.
    unfold bind, setKey, modify. simpl.
    set (x := set_page (Content.set_vaultSessionKey (Some k)) w).
    destruct (rerender_keeps chrome x) as (_ & Hkey & Hs & _).
    split; [split; [rewrite Hkey; reflexivity | exact Hk]|].
    split; [rewrite Hs; reflexivity|].
    intros el id data Ho Hh Hd. rewrite rerender_spec. subst x. simpl.
    rewrite Hh, Hd, showTooltip_spec. simpl. rewrite Ho. simpl.
    unfold Content.showTooltip. simpl. rewrite Ho. simpl.
    eexists. split; [reflexivity|]. exact Hk.
Qed.

End VaultNotes.

Section VaultInstances.
Import Eff Vault Cases.

Lemma toy_atob_empty : Crypto.atob Crypto.Toy.platform "" = Some [].
Proof. reflexivity. Qed.

Lemma decrypt_inverts_encrypt_witness :
  exists blob,
    Crypto.encrypt Crypto.Toy.platform salt16 iv12 "met at devcon" "hunter2" = Some blob
    /\ Crypto.decrypt Crypto.Toy.platform blob "hunter2" = Some "met at devcon"
    /\ Crypto.decrypt Crypto.Toy.platform blob "hunter3" = None.
Proof.
  destruct (decrypt_inverts_encrypt Crypto.Toy.platform toy_lawful salt16 iv12
              "met at devcon" "hunter2" eq_refl eq_refl) as [Hret Hback].
  destruct (Hret toy_sized) as [blob Hblob]; [vm_compute; lia|].
  destruct (Hback blob Hblob) as (Hsame & _ & Hany).
  exists blob. split; [exact Hblob|]. split; [exact Hsame|].
  rewrite Hany. reflexivity.
Defined.

Lemma note_roundtrip_witness :
  (exists w1 w2,
     saveNoteForAddress Crypto.Toy.platform reliable salt16 iv12 Scenario.addr40
       "met at devcon" (world (Some "hunter2") ∅)
     = (Content.Returned true, w1)
     /\ loadNoteForAddress Crypto.Toy.platform reliable Scenario.addrKey w1
        = (Content.Returned "met at devcon", w2))
  /\ saveNoteForAddress Crypto.Toy.platform reliable salt16 iv12 Scenario.addr40
       longText (world (Some "hunter2") ∅)
     = (Content.Returned false, world (Some "hunter2") ∅).
Proof.
  split.
  - pose proof (note_roundtrip Crypto.Toy.platform toy_lawful toy_atob_empty reliable
                  salt16 iv12 Scenario.addr40 Scenario.addrKey "met at devcon" "hunter2"
                  (world (Some "hunter2") ∅) eq_refl eq_refl (conj eq_refl eq_refl)
                  eq_refl eq_refl eq_refl eq_refl) as H.
    destruct (Crypto.encrypt Crypto.Toy.platform salt16 iv12 "met at devcon" "hunter2")
      as [blob|] eqn:He; [|discriminate He].
    destruct H as (w1 & w2 & Hsave & _ & Hload & _).
    exists w1, w2. split; [exact Hsave | exact Hload].
  - pose proof (note_roundtrip Crypto.Toy.platform toy_lawful toy_atob_empty reliable
                  salt16 iv12 Scenario.addr40 Scenario.addr40 longText "hunter2"
                  (world (Some "hunter2") ∅) eq_refl eq_refl (conj eq_refl eq_refl)
                  eq_refl eq_refl eq_refl eq_refl) as H.
    destruct (Crypto.encrypt Crypto.Toy.platform salt16 iv12 longText "hunter2")
      as [blob|] eqn:He; [vm_compute in He; discriminate He | exact H].
Defined.

Lemma blank_note_is_removed_witness :
  exists w1 w2,
    saveNoteForAddress Crypto.Toy.platform reliable salt16 iv12 Scenario.addr40
      "  " (world (Some "hunter2") {[ getNoteKey Scenario.addr40 := "old" ]})
    = (Content.Returned true, w1)
    /\ sync w1 = delete (getNoteKey Scenario.addr40)
                        {[ getNoteKey Scenario.addr40 := "old" ]}
    /\ loadNoteForAddress Crypto.Toy.platform reliable Scenario.addr40 w1
       = (Content.Returned "", w2).
Proof.
  apply (blank_note_is_removed Crypto.Toy.platform reliable salt16 iv12
           Scenario.addr40 Scenario.addr40 "  " "hunter2"); try reflexivity.
  split; reflexivity.
Defined.

Lemma notes_are_per_address_witness :
  fst (loadNoteForAddress Crypto.Toy.platform reliable "0xabc"
         (snd (saveNoteForAddress Crypto.Toy.platform reliable salt16 iv12
                 Scenario.addr40 "met at devcon" (world (Some "hunter2") ∅))))
  = fst (loadNoteForAddress Crypto.Toy.platform reliable "0xabc"
           (world (Some "hunter2") ∅)).
Proof.
  apply (notes_are_per_address Crypto.Toy.platform reliable salt16 iv12
           Scenario.addr40 "0xabc" "met at devcon" "hunter2").
  - split; reflexivity.
  - reflexivity.
  - discriminate.
Defined.

Lemma note_under_another_key_witness :
  fst (loadNoteForAddress Crypto.Toy.platform reliable Scenario.addr40
         (set_page (Content.set_vaultSessionKey (Some ("hunter2" ++ Crypto.NUL)%string))
            (snd (saveNoteForAddress Crypto.Toy.platform reliable salt16 iv12
                    Scenario.addr40 "met at devcon" (world (Some "hunter2") ∅)))))
  = Content.Returned "met at devcon".
Proof.
  apply (note_under_another_key Crypto.Toy.platform toy_lawful toy_atob_empty reliable
           salt16 iv12 Scenario.addr40 "met at devcon" "hunter2"
           ("hunter2" ++ Crypto.NUL)%string _ (world (Some "hunter2") ∅)
           eq_refl eq_refl (conj eq_refl eq_refl) eq_refl eq_refl eq_refl
           (fun _ => eq_refl)).
  - exact toy_zero_padded.
  - vm_compute. lia.
  - reflexivity.
Defined.

Lemma unlock_requires_valid_password_witness :
  let w' := snd (tryUnlockVault Crypto.Toy.platform secondCallFails 1000 "hunter2" true 3
                   someRecord (world None vaultOf)) in
  Content.vaultSessionKey (page w') = Some "hunter2"
  /\ vaultSession w' = None
  /\ errorText w' = "Error unlocking".
Proof.
  intros w'.
  destruct (unlock_requires_valid_password Crypto.Toy.platform secondCallFails 1000
              "hunter2" true 3 someRecord (world None vaultOf))
    as (_ & _ & _ & Hcases).
  destruct (Hcases eq_refl) as (_ & Hread).
  destruct (Hread eq_refl) as (_ & Hstored).
  match type of Hstored with
  | forall validator, _ !! _ = Some validator -> _ =>
      destruct (Hstored _ eq_refl eq_refl) as (_ & Hvalid)
  end.
  destruct (Hvalid eq_refl) as (Hkey & Hfails & _).
  destruct (Hfails eq_refl) as (Hsess & Hmsg).
  split; [exact Hkey|]. split; [exact Hsess | exact Hmsg].
Defined.

Lemma unlock_opens_session_witness :
  unlockedWith "hunter2"
    (snd (tryUnlockVault Crypto.Toy.platform reliable 1000 "hunter2" true 3
            someRecord (world None vaultOf)))
  /\ errorText (snd (tryUnlockVault Crypto.Toy.platform reliable 1000 "hunter3" true 3
                       someRecord (world None vaultOf)))
     = "Wrong password".
Proof.
  destruct (unlock_opens_session Crypto.Toy.platform toy_lawful toy_atob_empty reliable
              salt16 iv12 1000 "hunter2" 3 someRecord (world None vaultOf) _
              eq_refl eq_refl eq_refl (fun _ => eq_refl) eq_refl eq_refl)
    as [Hright Hwrong].
  split.
  - apply Hright.
  - apply (Hwrong "hunter3"); reflexivity.
Defined.

Lemma session_lasts_one_hour_witness :
  Content.vaultSessionKey
    (page (snd (loadVaultSession reliable 3600999
                  (mkWorld Scenario.emptyPage
                     (sync (snd (tryUnlockVault Crypto.Toy.platform reliable 1000
                                   "hunter2" true 3 someRecord (world None vaultOf))))
                     (vaultSession (snd (tryUnlockVault Crypto.Toy.platform reliable 1000
                                           "hunter2" true 3 someRecord (world None vaultOf))))
                     "" 0))))
  = Some "hunter2".
Proof.
  apply (session_lasts_one_hour Crypto.Toy.platform toy_lawful toy_atob_empty reliable
           salt16 iv12 1000 "hunter2" 3 someRecord (world None vaultOf) _
           eq_refl eq_refl eq_refl (fun _ => eq_refl) eq_refl eq_refl
           3600999 Scenario.emptyPage "" 0%nat).
  lia.
Defined.

Lemma vault_messages_witness :
  unlockedWith "hunter2" (snd (onVaultUnlocked reliable (Some "hunter2") (world None ∅))).
Proof.
  apply (proj2 (vault_messages Crypto.Toy.platform reliable salt16 iv12
                  Scenario.addr40 "" (world None ∅)) "hunter2" eq_refl).
Defined.

End VaultInstances.

(** ** The name resolver of the background worker *)

Section ResolverFacts.
Import Eff Background Matcher Str.

Lemma matchAtoms_maxLen ci atoms : forall prev inp n m,
  matchAtoms ci atoms prev inp = Some n -> maxLen atoms = Some m -> (n <= m)%nat.
Proof.
  induction atoms as [|a rest IH]; intros prev inp n m; simpl.
  - intros [= <-] [= <-]. lia.
  - destruct a as [|l|ranges lo hi].
    + destruct (xorb _ _); [apply IH | discriminate].
    + destruct inp as [|c inp]; [discriminate|].
      destruct (matchLit ci l c); [|discriminate].
      destruct (matchAtoms ci rest (Some c) inp) as [k|] eqn:E; [|discriminate].
      simpl. intros [= <-]. destruct (maxLen rest) as [mr|]; [|discriminate].
      simpl. intros [= <-]. specialize (IH _ _ _ _ E eq_refl). lia.
    + destruct hi as [h|]; [|discriminate].
      destruct (maxLen rest) as [mr|]; [|discriminate].
      intros H [= <-]. revert H.
      enough (Hgen : forall inp count prev n,
                 (fix rep (count : nat) (prev : option ascii) (inp : list ascii)
                      {struct inp} : option nat :=
                    let stop := if (lo <=? count)%nat then matchAtoms ci rest prev inp
                                else None in
                    match inp with
                    | c :: inp' =>
                        if inClass ci ranges c && belowMax count (Some h) then
                          match rep (S count) (Some c) inp' with
                          | Some n => Some (S n)
                          | None => stop
                          end
                        else stop
                    | [] => stop
                    end) count prev inp = Some n ->
                 (n + count <= Nat.max h count + mr)%nat).
      { intros H. apply Hgen in H. lia. }
      clear inp prev n. intros inp. induction inp as [|c inp IHi]; intros count prev n.
      * destruct (lo <=? count)%nat; [|discriminate].
        intros H. specialize (IH _ _ _ _ H eq_refl). lia.
      * assert (Hstop : (if (lo <=? count)%nat then matchAtoms ci rest prev (c :: inp)
                         else None) = Some n -> (n + count <= Nat.max h count + mr)%nat).
        { destruct (lo <=? count)%nat; [|discriminate].
          intros H. specialize (IH _ _ _ _ H eq_refl). lia. }
        destruct (inClass ci ranges c && belowMax count (Some h)) eqn:E; [|exact Hstop].
        cbv zeta.
        match goal with |- context [match ?r with Some _ => _ | None => _ end = _] =>
          destruct r as [k|] eqn:Er end; [|exact Hstop].
        intros [= <-]. apply IHi in Er.
        apply andb_true_iff in E as [_ E]. simpl in E. apply Nat.ltb_lt in E. lia.
Qed.


Lemma chars_ofChars l : JS.chars (JS.ofChars l) = l.
Proof. apply list_ascii_of_string_of_list_ascii. Qed.

Lemma record_match_shape data i m :
  firstMatch addressRecord data = Some (i, m) -> addressLike (JS.sliceFrom m 2).
Proof.
  unfold firstMatch. intros H.
  assert (Hin : List.In (i, m) (execAll addressRecord data)).
  { destruct (execAll addressRecord data) as [|x l]; [discriminate|].
    simpl in H. injection H as ->. now left. }
  unfold execAll in Hin. apply List.in_map_iff in Hin as ([i' n] & [= <- <-] & Hin).
  apply (execLoop_sound addressRecord (JS.chars data)) in Hin as (prev' & Hm);
    [|reflexivity].
  pose proof (matchAtoms_length _ _ _ _ _ Hm) as [Hlo Hlen].
  pose proof (matchAtoms_maxLen _ _ _ _ _ 44%nat Hm eq_refl) as Hhi.
  change (minLen (source addressRecord)) with 44%nat in Hlo.
  assert (n = 44%nat) as -> by lia. clear Hlo Hhi.
  simpl fst. simpl snd. unfold JS.slice.
  replace (i' + 44 - i')%nat with 44%nat by lia.
  remember (skipn i' (JS.chars data)) as inp eqn:Hinp. clear Hinp.
  unfold addressRecord in Hm. simpl in Hm.
  destruct inp as [|c1 [|c2 [|c3 [|c4 tl]]]]; try discriminate Hm;
    simpl in Hm; unfold matchLit, canon in Hm.
  - destruct (Ascii.eqb "a" c1); discriminate.
  - destruct (Ascii.eqb "a" c1); [|discriminate].
    destruct (Ascii.eqb "=" c2); discriminate.
  - destruct (Ascii.eqb "a" c1); [|discriminate].
    destruct (Ascii.eqb "=" c2); [|discriminate].
    destruct (Ascii.eqb "0" c3); discriminate.
  - destruct (Ascii.eqb_spec "a" c1) as [<-|]; [|discriminate].
    destruct (Ascii.eqb_spec "=" c2) as [<-|]; [|discriminate].
    destruct (Ascii.eqb_spec "0" c3) as [<-|]; [|discriminate].
    destruct (Ascii.eqb_spec "x" c4) as [<-|]; [|discriminate].
    clear Hm. simpl in Hlen.
    unfold addressLike, JS.sliceFrom, Str.startsWith. rewrite chars_ofChars. simpl.
    split; [|destruct (JS.ofChars _); reflexivity].
    rewrite length_ofChars. rewrite List.firstn_length_le by lia. reflexivity.
Qed.

Lemma firstAddress_shape answers a :
  firstAddress answers = Some a -> addressLike a.
Proof.
  induction answers as [|answer rest IH]; simpl; [discriminate|].
  destruct (JS.orUndefined answer) as [data|]; [|exact IH].
  destruct (Str.includes "a=0x" data); [|exact IH].
  destruct (firstMatch addressRecord data) as [[i m]|] eqn:E; [|exact IH].
  intros [= <-]. now apply (record_match_shape data i m).
Qed.


(** *** Normalisation *)

Lemma dropWhile_idem f l : Str.dropWhile f (Str.dropWhile f l) = Str.dropWhile f l.
Proof.
  induction l as [|c l IH]; simpl; [reflexivity|].
  destruct (f c) eqn:E; [exact IH|]. simpl. now rewrite E.
Qed.

Lemma dropWhile_snoc f a c :
  f c = false -> Str.dropWhile f (a ++ [c]) = Str.dropWhile f a ++ [c].
Proof.
  intros Hc. induction a as [|x a IH]; simpl; [now rewrite Hc|].
  destruct (f x); [exact IH | reflexivity].
Qed.

Lemma dropWhile_map f g l :
  (forall c, f (g c) = f c) ->
  Str.dropWhile f (map g l) = map g (Str.dropWhile f l).
Proof.
  intros H. induction l as [|c l IH]; simpl; [reflexivity|].
  rewrite H. destruct (f c); [exact IH | reflexivity].
Qed.

Lemma trimChars_idem l : Str.trimChars (Str.trimChars l) = Str.trimChars l.
Proof.
  unfold Str.trimChars.
  destruct (Str.dropWhile JS.isWhiteSpace l) as [|c t] eqn:E; [reflexivity|].
  assert (Hc : JS.isWhiteSpace c = false).
  { clear -E. induction l as [|x l IH]; simpl in E; [discriminate|].
    destruct (JS.isWhiteSpace x) eqn:Ex; [auto|]. now injection E as -> _. }
  assert (Hde : forall u, rev (Str.dropWhile JS.isWhiteSpace (rev (c :: u)))
                          = c :: rev (Str.dropWhile JS.isWhiteSpace (rev u))).
  { intros u. simpl. rewrite dropWhile_snoc by exact Hc.
    now rewrite List.rev_app_distr. }
  rewrite Hde. simpl Str.dropWhile. rewrite Hc. rewrite Hde. f_equal.
  rewrite List.rev_involutive. now rewrite dropWhile_idem.
Qed.

Lemma trim_idem s : Str.trim (Str.trim s) = Str.trim s.
Proof.
  unfold Str.trim. rewrite chars_ofChars.
  change (JS.ofChars (Str.trimChars (Str.trimChars (JS.chars s)))
          = JS.ofChars (Str.trimChars (JS.chars s))).
  now rewrite trimChars_idem.
Qed.

Lemma isWhiteSpace_lower c : JS.isWhiteSpace (JS.lowerChar c) = JS.isWhiteSpace c.
Proof. destruct c as [[] [] [] [] [] [] [] []]; reflexivity. Qed.

Lemma chars_toLowerCase s : JS.chars (JS.toLowerCase s) = map JS.lowerChar (JS.chars s).
Proof. induction s as [|c s IH]; simpl; [reflexivity|]. unfold JS.chars in *. simpl. now rewrite IH. Qed.

Lemma toLowerCase_ofChars l : JS.toLowerCase (JS.ofChars l) = JS.ofChars (map JS.lowerChar l).
Proof. induction l as [|c l IH]; simpl; [reflexivity|]. unfold JS.ofChars in *. simpl. now rewrite IH. Qed.

Lemma trim_toLowerCase s : Str.trim (JS.toLowerCase s) = JS.toLowerCase (Str.trim s).
Proof.
  unfold Str.trim, Str.trimChars. rewrite toLowerCase_ofChars, chars_toLowerCase.
  rewrite dropWhile_map by apply isWhiteSpace_lower.
  rewrite <- List.map_rev. rewrite dropWhile_map by apply isWhiteSpace_lower.
  now rewrite List.map_rev.
Qed.

(** Normalising a normalised name changes nothing. *)
Lemma normalize_idem s :
  Str.trim (JS.toLowerCase (Str.trim (JS.toLowerCase s))) = Str.trim (JS.toLowerCase s).
Proof.
  rewrite (trim_toLowerCase (Str.trim (JS.toLowerCase s))), trim_idem.
  rewrite <- trim_toLowerCase. now rewrite toLowerCase_idem.
Qed.

(** *** The two services *)

Lemma resolveViaEnsData_spec net name log :
  exists r,
    resolveViaEnsData net name log
    = (Content.Returned r, log ++ [ToEnsData (Str.trim (JS.toLowerCase name))])
    /\ (forall a, r = Some a -> addressLike a).
Proof.
  unfold resolveViaEnsData, tryCatch, bind, fetchEnsData, settle, ret.
  destruct (ensData net _ _) as [resp|]; simpl; [|eexists; split; [reflexivity|discriminate]].
  destruct (e_ok resp); simpl; [|eexists; split; [reflexivity|discriminate]].
  destruct (e_address resp) as [f|]; simpl; [|eexists; split; [reflexivity|discriminate]].
  destruct f as [|a|[|]]; simpl; try (eexists; split; [reflexivity|discriminate]).
  unfold ret.
  destruct (JS.truthy a && Str.startsWith "0x" a && (String.length a =? 42)%nat) eqn:E;
    simpl; [|eexists; split; [reflexivity|discriminate]].
  eexists; split; [reflexivity|]. intros ? [= <-].
  apply andb_true_iff in E as [E E3]. apply andb_true_iff in E as [_ E2].
  split; [now apply Nat.eqb_eq | exact E2].
Qed.

Lemma resolveViaCloudflare_spec net name log :
  exists r,
    resolveViaCloudflare net name log
    = (Content.Returned r, log ++ [ToCloudflare (Str.trim (JS.toLowerCase name))])
    /\ (forall a, r = Some a -> addressLike a).
Proof.
  unfold resolveViaCloudflare, tryCatch, bind, fetchCloudflare, settle, ret.
  destruct (cloudflare net _ _) as [resp|]; simpl; [|eexists; split; [reflexivity|discriminate]].
  destruct (d_ok resp); simpl; [|eexists; split; [reflexivity|discriminate]].
  destruct (d_answers resp) as [answers|]; simpl; [|eexists; split; [reflexivity|discriminate]].
  eexists; split; [reflexivity|]. intros a. apply firstAddress_shape.
Qed.

Lemma addressLike_truthy a : addressLike a -> JS.orUndefined (Some a) = Some a.
Proof. intros [Hl _]. destruct a; [discriminate | reflexivity]. Qed.

Lemma resolveName_answers net name log :
  exists r log',
    resolveName net name log = (Content.Returned r, log')
    /\ (forall a, r = Some a -> addressLike a).
Proof.
  unfold resolveName.
  destruct (JS.truthy name); simpl; [|eexists; eexists; split; [reflexivity|discriminate]].
  destruct (Str.includes "." _); simpl; [|eexists; eexists; split; [reflexivity|discriminate]].
  unfold bind.
  destruct (resolveViaEnsData_spec net (Str.trim (JS.toLowerCase name)) log)
    as (r1 & -> & H1).
  destruct r1 as [a1|]; cbv beta iota.
  - rewrite (addressLike_truthy a1) by now apply H1.
    eexists; eexists; split; [reflexivity|]. intros ? [= <-]. now apply H1.
  - simpl.
    match goal with |- context [resolveViaCloudflare net ?n ?l] =>
      destruct (resolveViaCloudflare_spec net n l) as (r2 & -> & H2) end.
    destruct r2 as [a2|]; cbv beta iota.
    + rewrite (addressLike_truthy a2) by now apply H2.
      eexists; eexists; split; [reflexivity|]. intros ? [= <-]. now apply H2.
    + eexists; eexists; split; [reflexivity|discriminate].
Qed.

(** X15.  The name resolver of the background worker always answers,
    whatever the two services do (network failures, error statuses,
    unparsable or malformed bodies), and every address it answers with has
    42 characters and starts with [0x]. *)
Theorem resolver_answers_are_addresses net name log :
  exists r log',
    onResolveName net name log = (Content.Returned r, log')
    /\ (forall a, r = Some a -> addressLike a).
Proof.
  unfold onResolveName.
  destruct (JS.truthy name) eqn:Hn; simpl.
  - unfold tryCatch.
    destruct (resolveName_answers net name log) as (r & log' & Hr & Ha).
    rewrite Hr. exists r, log'. split; [reflexivity|]. exact Ha.
  - exists None, log. split; [reflexivity|]. intros a Ha. discriminate Ha.
Qed.

(** X16.  The requests of the name resolver.  An empty name, or a name
    without a dot once it is lower-cased and trimmed, is answered with
    null and no request.  Otherwise ensdata.net is asked first, for the
    normalised name; if it gives an address, that is the answer and the DNS
    endpoint is not asked; if not, the DNS endpoint is asked for the same
    name and its result is the answer. *)
Theorem resolver_requests net name log (n := Str.trim (JS.toLowerCase name)) :
  (JS.truthy name = false \/ Str.includes "." n = false ->
   onResolveName net name log = (Content.Returned None, log))
  /\ (JS.truthy name = true -> Str.includes "." n = true ->
      forall a log1,
        resolveViaEnsData net n log = (Content.Returned a, log1) ->
        log1 = log ++ [ToEnsData n]
        /\ match a with
           | Some address =>
               onResolveName net name log = (Content.Returned (Some address), log1)
           | None =>
               exists r,
                 onResolveName net name log
                 = (Content.Returned r, log ++ [ToEnsData n; ToCloudflare n])
                 /\ resolveViaCloudflare net n log1 = (Content.Returned r, log1 ++ [ToCloudflare n])
           end).
Proof.
  split.
  - intros H. unfold onResolveName.
    destruct (JS.truthy name) eqn:Hn; simpl; [|reflexivity].
    destruct H as [H|H]; [discriminate|].
    unfold tryCatch, resolveName. rewrite Hn. simpl. fold n. now rewrite H.
  - intros Hn Hdot a log1 Hens.
    destruct (resolveViaEnsData_spec net n log) as (r1 & E1 & H1).
    subst n. rewrite normalize_idem in E1. rewrite E1 in Hens.
    injection Hens as <- <-. split; [reflexivity|].
    unfold onResolveName. rewrite Hn. simpl.
    unfold tryCatch, resolveName. rewrite Hn. simpl. rewrite Hdot. simpl.
    unfold bind. rewrite E1.
    destruct r1 as [a1|]; cbv beta iota.
    + now rewrite (addressLike_truthy a1) by now apply H1.
    + simpl.
      match goal with |- context [resolveViaCloudflare net ?m ?l] =>
        destruct (resolveViaCloudflare_spec net m l) as (r2 & E2 & H2) end.
      rewrite normalize_idem in E2. rewrite E2.
      rewrite <- List.app_assoc in *. simpl in *.
      destruct r2 as [a2|]; cbv beta iota.
      * rewrite (addressLike_truthy a2) by now apply H2. eauto.
      * eauto.
Qed.

End ResolverFacts.

Section ResolverInstances.
Import Eff Background Cases.

Lemma resolver_requests_witness :
  onResolveName netEns " Vitalik.ETH " []
  = (Content.Returned (Some Scenario.addrKey), [ToEnsData "vitalik.eth"])
  /\ onResolveName netEns "localhost" [] = (Content.Returned None, []).
Proof.
  destruct (resolver_requests netEns " Vitalik.ETH " []) as [_ Hsome].
  destruct (resolver_requests netEns "localhost" []) as [Hnone _].
  split.
  - exact (proj2 (Hsome eq_refl eq_refl (Some Scenario.addrKey)
                    [ToEnsData "vitalik.eth"] eq_refl)).
  - apply Hnone. right. reflexivity.
Defined.

End ResolverInstances.

(** ** Matches and the splice *)

Section MatchSoundness.
Import Matcher Str.

Lemma execAll_sound re txt i t :
  (0 < minLen (source re))%nat ->
  List.In (i, t) (execAll re txt) ->
  t = JS.slice txt i (i + String.length t)
  /\ (i + String.length t <= String.length txt)%nat
  /\ (minLen (source re) <= String.length t)%nat
  /\ (forall m, maxLen (source re) = Some m -> (String.length t <= m)%nat).
Proof.
  intros Hpos H. unfold execAll in H.
  apply List.in_map_iff in H as ([i' n] & [= <- <-] & Hin). simpl.
  apply (execLoop_sound re (JS.chars txt)) in Hin as (prev' & Hm); [|reflexivity].
  pose proof (matchAtoms_length _ _ _ _ _ Hm) as [Hlo Hlen].
  rewrite List.length_skipn, length_chars in Hlen.
  assert (Hl : String.length (JS.slice txt i' (i' + n)) = n).
  { unfold JS.slice. rewrite length_ofChars, List.firstn_length_le;
      [lia | rewrite List.length_skipn, length_chars; lia]. }
  rewrite Hl. repeat split; try lia.
  intros m Hmax. now apply (matchAtoms_maxLen _ _ _ _ _ m Hm).
Qed.


Lemma fold_ensStep_from cs : forall l m,
  List.In m (fold_left ensStep cs l) ->
  List.In m l \/ (type m = ens /\ List.In (index m, text m) cs).
Proof.
  induction cs as [|c cs IH]; intros l m; simpl; [tauto|].
  intros H. apply IH in H as [H|[Ht H]]; [|now right; auto].
  unfold ensStep in H. destruct (endsWith _ _); [now left|].
  destruct (existsb _ l); [now left|].
  apply List.in_app_or in H as [H|[<-|[]]]; [now left|].
  right. simpl. split; [reflexivity|]. left. now destruct c.
Qed.

(** Where a reported match comes from: one of the three loops. *)
Lemma collectMatches_from (txt : string) (m : Match) :
  List.In m (collectMatches txt) ->
  (type m = eth /\ List.In (index m, text m) (execAll ethRegex txt))
  \/ (type m = base /\ List.In (index m, text m) (execAll baseRegex txt))
  \/ (type m = ens /\ List.In (index m, text m) (execAll ensRegex txt)).
Proof.
  intros H. unfold collectMatches in H.
  apply fold_ensStep_from in H as [H|H]; [|now right; right].
  apply List.in_app_or in H as [H|H];
    apply List.in_map_iff in H as ([i t] & <- & Hin); simpl; auto.
Qed.

(** X17.  Every match reported for a text is the text found at its
    index: it lies inside the text, its [text] is the slice of the text at
    its span, an address has 42 characters, a basename at least 10 and an
    ENS name at least 7. *)
Theorem matches_are_found_text (txt : string) (m : Match) :
  List.In m (collectMatches txt) ->
  text m = JS.slice txt (index m) (spanEnd m)
  /\ (spanEnd m <= String.length txt)%nat
  /\ match type m with
     | eth => String.length (text m) = 42%nat
     | base => (10 <= String.length (text m))%nat
     | ens => (7 <= String.length (text m))%nat
     end.
Proof.
  intros H. unfold spanEnd.
  destruct (collectMatches_from txt m H) as [[Ht Hin]|[[Ht Hin]|[Ht Hin]]]; rewrite Ht.
  - apply execAll_sound in Hin as (H1 & H2 & H3 & H4); [|simpl; lia].
    split; [exact H1|]. split; [exact H2|].
    specialize (H4 42%nat eq_refl). simpl in H3. lia.
  - apply execAll_sound in Hin as (H1 & H2 & H3 & _); [|simpl; lia]. auto.
  - apply execAll_sound in Hin as (H1 & H2 & H3 & _); [|simpl; lia]. auto.
Qed.

(** X18.  The only overlap the match collection can report is between an
    address and a basename: two different reported matches that overlap are
    one of type [eth] and one of type [base]; in particular an ENS match
    overlaps no other match, and two matches of the same type never
    overlap. *)
Theorem only_address_and_basename_overlap (txt : string) (a b : Match) :
  List.In a (collectMatches txt) -> List.In b (collectMatches txt) ->
  a <> b -> spansOverlap a b ->
  (type a = eth /\ type b = base) \/ (type a = base /\ type b = eth).
Proof.
  intros Ha Hb Hne Hov.
  destruct (FOP_In _ _ a b (collectMatches_overlaps txt) Ha Hb) as [?|[H|H]];
    [contradiction | left; now apply H | right].
  destruct (H (spansOverlap_sym _ _ Hov)) as [H1 H2]. now split.
Qed.

End MatchSoundness.


Section SpliceFacts.
Import Matcher Dom Content Page.

Lemma ofChars_app a b : JS.ofChars (a ++ b) = (JS.ofChars a ++ JS.ofChars b)%string.
Proof. unfold JS.ofChars. induction a as [|c a IH]; simpl; [reflexivity|]. now rewrite IH. Qed.

Lemma ofChars_chars s : JS.ofChars (JS.chars s) = s.
Proof. apply string_of_list_ascii_of_string. Qed.

Lemma string_app_nil_r (s : string) : (s ++ "")%string = s.
Proof. induction s as [|c s IH]; simpl; [reflexivity|]. now rewrite IH. Qed.

Lemma truthy_false s : JS.truthy s = false -> s = EmptyString.
Proof. destruct s; [reflexivity | discriminate]. Qed.

Lemma textOfAll_app a b : textOfAll (a ++ b) = (textOfAll a ++ textOfAll b)%string.
Proof.
  unfold textOfAll. induction a as [|k a IH]; simpl; [reflexivity|].
  rewrite IH. symmetry. apply string_app_assoc.
Qed.

Lemma queueForScoring_doc ident ty s : doc (queueForScoring ident ty s) = doc s.
Proof.
  unfold queueForScoring. destruct (existsb _ _); [reflexivity|].
  unfold clearTimeout, setTimeout. simpl. destruct (scoreTimeout s); reflexivity.
Qed.

Lemma spliceStep_doc editable rem frags s m :
  doc (snd (spliceStep editable (rem, frags, s) m)) = doc s.
Proof.
  unfold spliceStep, createTargetSpan, fresh.
  destruct (JS.truthy _); simpl; now rewrite queueForScoring_doc.
Qed.

Lemma spliceStep_text editable rem frags s m :
  fst (fst (spliceStep editable (rem, frags, s) m)) = JS.slice rem 0 (index m)
  /\ textOfAll (snd (fst (spliceStep editable (rem, frags, s) m)))
     = (text m ++ JS.sliceFrom rem (spanEnd m) ++ textOfAll frags)%string.
Proof.
  unfold spliceStep, createTargetSpan, fresh, spanEnd.
  destruct (JS.truthy (JS.sliceFrom rem _)) eqn:E; simpl.
  - split; [reflexivity|]. unfold textOfAll. simpl.
    now rewrite string_app_nil_r.
  - apply truthy_false in E. rewrite E. simpl. split; [reflexivity|].
    unfold textOfAll. simpl. now rewrite string_app_nil_r.
Qed.


Lemma slice_chars txt a b :
  JS.slice txt a b = JS.ofChars (firstn (b - a) (skipn a (JS.chars txt))).
Proof. reflexivity. Qed.

Lemma split_at {A} (L : list A) i n cut :
  (i + n <= cut <= length L)%nat ->
  skipn i L = firstn n (skipn i L) ++ skipn (i + n) (firstn cut L) ++ skipn cut L.
Proof.
  intros H.
  rewrite <- (List.firstn_skipn n (skipn i L)) at 1. f_equal.
  rewrite List.skipn_skipn.
  rewrite <- (List.firstn_skipn cut L) at 1.
  rewrite List.skipn_app. rewrite List.firstn_length_le by lia.
  replace (n + i - cut)%nat with 0%nat by lia.
  replace (n + i)%nat with (i + n)%nat by lia. reflexivity.
Qed.

Lemma splice_fold editable txt ms : forall rem frags s cut,
  StronglySorted after ms ->
  Forall (foundIn txt) ms ->
  Forall (fun m => (spanEnd m <= cut)%nat) ms ->
  (cut <= String.length txt)%nat ->
  rem = JS.ofChars (firstn cut (JS.chars txt)) ->
  textOfAll frags = JS.ofChars (skipn cut (JS.chars txt)) ->
  (fst (fst (fold_left (spliceStep editable) ms (rem, frags, s)))
   ++ textOfAll (snd (fst (fold_left (spliceStep editable) ms (rem, frags, s)))))%string
  = txt
  /\ doc (snd (fold_left (spliceStep editable) ms (rem, frags, s))) = doc s.
Proof.
  induction ms as [|m ms IH]; intros rem frags s cut Hsort Hfound Hcut Hlen Hrem Hfr;
    cbn [fold_left].
  - simpl. split; [|reflexivity]. rewrite Hrem, Hfr, <- ofChars_app, List.firstn_skipn.
    apply ofChars_chars.
  - inversion Hsort as [|? ? Hsort1 Hafter]; subst.
    inversion Hfound as [|? ? (Htext & Hend & Hpos) Hfound1]; subst.
    inversion Hcut as [|? ? Hm Hcut1]; subst.
    destruct (spliceStep editable (JS.ofChars (firstn cut (JS.chars txt)), frags, s) m)
      as [[rem1 frags1] s1] eqn:E.
    pose proof (spliceStep_text editable (JS.ofChars (firstn cut (JS.chars txt))) frags s m)
      as [Hr Hf].
    pose proof (spliceStep_doc editable (JS.ofChars (firstn cut (JS.chars txt))) frags s m)
      as Hd.
    rewrite E in Hr, Hf, Hd. simpl in Hr, Hf, Hd.
    unfold spanEnd in *.
    assert (Hi : (index m < index m + String.length (text m))%nat) by lia.
    destruct (IH rem1 frags1 s1 (index m)) as [H1 H2]; try assumption.
    + lia.
    + rewrite Hr. rewrite slice_chars, chars_ofChars. rewrite Nat.sub_0_r.
      change (skipn 0 (firstn cut (JS.chars txt))) with (firstn cut (JS.chars txt)).
      rewrite List.firstn_firstn. f_equal. f_equal. lia.
    + rewrite Hf, Hfr. unfold JS.sliceFrom. rewrite chars_ofChars.
      set (n := String.length (text m)) in *.
      rewrite Htext at 1. rewrite slice_chars.
      replace (index m + n - index m)%nat with n by lia.
      rewrite <- !ofChars_app. f_equal. symmetry.
      apply split_at. rewrite length_chars. lia.
    + split; [exact H1 | now rewrite H2].
Qed.


(** *** The order of the splice *)

Lemma insertByIndexDesc_perm x l : Permutation (insertByIndexDesc x l) (x :: l).
Proof.
  induction l as [|y l IH]; simpl; [reflexivity|].
  destruct (index y <=? index x)%nat; [reflexivity|].
  rewrite IH. apply perm_swap.
Qed.

Lemma sortMatches_perm l : Permutation (sortMatches l) l.
Proof.
  unfold sortMatches. induction l as [|x l IH]; simpl; [reflexivity|].
  rewrite insertByIndexDesc_perm. now constructor.
Qed.

Lemma insertByIndexDesc_sorted x l :
  StronglySorted byIndexDesc l -> StronglySorted byIndexDesc (insertByIndexDesc x l).
Proof.
  induction 1 as [|y l Hs IH Hy]; simpl; [repeat constructor|].
  destruct (Nat.leb_spec (index y) (index x)) as [Hle|Hgt].
  - constructor; [now constructor|]. constructor; [exact Hle|].
    rewrite List.Forall_forall in *. intros z Hz. specialize (Hy z Hz).
    unfold byIndexDesc in *. lia.
  - constructor; [exact IH|].
    rewrite List.Forall_forall in *. intros z Hz.
    apply (Permutation_in _ (insertByIndexDesc_perm x l)) in Hz as [<-|Hz].
    + unfold byIndexDesc. lia.
    + now apply Hy.
Qed.

Lemma sortMatches_sorted l : StronglySorted byIndexDesc (sortMatches l).
Proof.
  unfold sortMatches. induction l as [|x l IH]; simpl; [constructor|].
  now apply insertByIndexDesc_sorted.
Qed.

Lemma disjoint_NoDup (l : list Match) :
  ForallOrdPairs (fun a b => ~ spansOverlap a b) l ->
  Forall (fun m => (0 < String.length (text m))%nat) l ->
  List.NoDup l.
Proof.
  induction 1 as [|x l Hx _ IH]; intros Hpos; [constructor|].
  inversion Hpos as [|? ? Hp Hpos']; subst.
  constructor; [|now apply IH].
  intros Hin. rewrite List.Forall_forall in Hx. apply (Hx x Hin).
  unfold spansOverlap, spanEnd. lia.
Qed.

(** Disjoint, non-empty matches sorted by decreasing index lie one wholly
    after the other. *)
Lemma sorted_disjoint_after (l : list Match) :
  ForallOrdPairs (fun a b => ~ spansOverlap a b) l ->
  Forall (fun m => (0 < String.length (text m))%nat) l ->
  StronglySorted after (sortMatches l).
Proof.
  intros Hdis Hpos.
  pose proof (disjoint_NoDup l Hdis Hpos) as Hnd.
  pose proof (sortMatches_perm l) as Hperm.
  assert (Hnd' : List.NoDup (sortMatches l)).
  { eapply Permutation_NoDup; [symmetry; exact Hperm | exact Hnd]. }
  assert (Hin : forall x, List.In x (sortMatches l) -> List.In x l).
  { intros x. apply (Permutation_in _ Hperm). }
  pose proof (sortMatches_sorted l) as Hs.
  clear Hperm. induction Hs as [|a r Hs IH Ha]; [constructor|].
  inversion Hnd' as [|? ? Hnotin Hnd'']; subst.
  constructor.
  - apply IH; [exact Hnd''|]. intros x Hx. apply Hin. now right.
  - rewrite List.Forall_forall in *. intros b Hb. specialize (Ha b Hb).
    assert (Hne : a <> b) by (intros ->; contradiction).
    assert (Hno : ~ spansOverlap a b).
    { destruct (FOP_In _ _ a b Hdis (Hin a (or_introl eq_refl)) (Hin b (or_intror Hb)))
        as [?|[H|H]]; [contradiction | exact H |].
      intros Hov. apply H. now apply spansOverlap_sym. }
    assert (Hpa : (0 < String.length (text a))%nat) by (apply Hpos, Hin; now left).
    assert (Hpb : (0 < String.length (text b))%nat) by (apply Hpos, Hin; now right).
    unfold after, byIndexDesc, spansOverlap, spanEnd in *. lia.
Qed.


Lemma collectMatches_foundIn txt : Forall (foundIn txt) (collectMatches txt).
Proof.
  rewrite List.Forall_forall. intros m Hm. unfold foundIn, spanEnd.
  destruct (collectMatches_from txt m Hm) as [[_ Hin]|[[_ Hin]|[_ Hin]]];
    apply execAll_sound in Hin as (H1 & H2 & H3 & _); try (simpl; lia);
    simpl in H3; repeat split; try assumption; lia.
Qed.

(** The fragments that take the place of a text node render its text. *)
Lemma fragments_text editable txt s1 :
  disjointMatches txt ->
  let r := fold_left (spliceStep editable) (sortMatches (collectMatches txt))
                     (txt, [], s1) in
  let remaining := fst (fst r) in
  let fragments := snd (fst r) in
  textOfAll (if JS.truthy remaining
             then TextNode (nextNode (snd r)) remaining :: fragments
             else fragments) = txt
  /\ doc (snd r) = doc s1.
Proof.
  intros Hdis r remaining fragments.
  pose proof (collectMatches_foundIn txt) as Hfound.
  assert (Hpos : Forall (fun m => (0 < String.length (text m))%nat) (collectMatches txt)).
  { eapply List.Forall_impl; [|exact Hfound]. now intros m (_ & _ & H). }
  pose proof (sortMatches_perm (collectMatches txt)) as Hperm.
  destruct (splice_fold editable txt (sortMatches (collectMatches txt))
              txt [] s1 (String.length txt)) as [Htxt Hdoc].
  - now apply sorted_disjoint_after.
  - eapply Permutation_Forall; [symmetry; exact Hperm | exact Hfound].
  - eapply Permutation_Forall; [symmetry; exact Hperm |].
    eapply List.Forall_impl; [|exact Hfound]. now intros m (_ & H & _).
  - lia.
  - rewrite <- length_chars, List.firstn_all. symmetry. apply ofChars_chars.
  - rewrite <- length_chars, List.skipn_all. reflexivity.
  - fold r in Htxt, Hdoc. fold remaining fragments in Htxt.
    split; [|exact Hdoc].
    destruct (JS.truthy remaining) eqn:E.
    + exact Htxt.
    + apply truthy_false in E. now rewrite E in Htxt.
Qed.

(** *** Replacing a text node in the tree *)

Lemma findText_In id n : forall par r, findText id par n = Some r -> List.In id (nodeIds n).
Proof.
  induction n as [i t|i tag cls ce kids IHkids] using Node_forall_ind; intros par r; simpl.
  - destruct (Nat.eqb_spec i id) as [->|]; [now left | discriminate].
  - intros H. right.
    induction IHkids as [|k kids Hk _ IHrest]; [discriminate|].
    simpl. apply List.in_or_app.
    destruct (findText id _ k) as [x|] eqn:E; [left; eapply Hk; exact E | right; auto].
Qed.

Lemma replaceText_absent id frags n :
  (forall par, findText id par n = None) -> replaceText id frags n = n.
Proof.
  induction n as [i t|i tag cls ce kids IHkids] using Node_forall_ind; simpl;
    [reflexivity|].
  intros H. f_equal. specialize (H None). revert H.
  generalize (Some (mkParent i tag cls ce)). intros par.
  induction IHkids as [|k kids Hk _ IHrest]; [reflexivity|].
  intros H. destruct (findText id par k) as [x|] eqn:E; [discriminate|].
  specialize (IHrest H).
  destruct k as [j t|j tag' cls' ce' kids'].
  - simpl in E. destruct (Nat.eqb j id); [discriminate|]. now rewrite IHrest.
  - rewrite IHrest. f_equal. apply Hk. intros par'.
    simpl in E |- *. 
    (* the search below an element does not depend on the parent passed in *)
    exact E.
Qed.


Lemma NoDup_app_inv {A} (a b : list A) :
  List.NoDup (a ++ b) ->
  List.NoDup a /\ (forall x, List.In x a -> ~ List.In x b) /\ List.NoDup b.
Proof.
  induction a as [|x a IH]; simpl; intros H.
  - split; [constructor|]. split; [tauto | exact H].
  - apply List.NoDup_cons_iff in H as [Hx H]. destruct (IH H) as (Ha & Hd & Hb).
    split; [|split; [|exact Hb]].
    + constructor; [|exact Ha]. intros Hin. apply Hx, List.in_or_app. now left.
    + intros y [<-|Hy]; [|now apply Hd]. intros Hin. apply Hx, List.in_or_app. now right.
Qed.

Lemma each_absent id frags (kids : list Node) :
  (forall q r, List.In r kids -> findText id q r = None) ->
  (fix each (l : list Node) : list Node :=
     match l with
     | [] => []
     | TextNode j t :: l' =>
         if Nat.eqb j id then frags ++ l' else TextNode j t :: each l'
     | k :: l' => replaceText id frags k :: each l'
     end) kids = kids.
Proof.
  induction kids as [|r kids IH]; intros H; [reflexivity|].
  assert (Hr : forall q, findText id q r = None) by (intros q; apply H; now left).
  assert (IH' := IH (fun q r' Hr' => H q r' (or_intror Hr'))).
  destruct r as [j t|j tag cls ce kids0].
  - specialize (Hr None). simpl in Hr. destruct (Nat.eqb j id) eqn:Ej; [discriminate|].
    rewrite IH'. reflexivity.
  - rewrite IH'. f_equal. now apply replaceText_absent.
Qed.

Lemma findText_par_None id n par par' :
  findText id par n = None -> findText id par' n = None.
Proof.
  destruct n as [i t|i tag cls ce kids]; simpl; [|auto].
  destruct (Nat.eqb i id); [discriminate | reflexivity].
Qed.

Lemma textOf_element i tag cls ce kids :
  textOf (Element i tag cls ce kids) = textOfAll kids.
Proof. reflexivity. Qed.

(** Replacing the text node [id] by fragments that render its text leaves
    the text of the tree as it was. *)
Lemma replaceText_text id frags txt n :
  List.NoDup (nodeIds n) ->
  (forall par t p, findText id par n = Some (t, p) -> t = txt) ->
  textOfAll frags = txt ->
  textOf (replaceText id frags n) = textOf n.
Proof.
  intros Hnd Hfind Hfr. revert Hnd Hfind.
  induction n as [i t|i tag cls ce kids IHkids] using Node_forall_ind; intros Hnd Hfind;
    [reflexivity|].
  simpl replaceText. rewrite !textOf_element.
  simpl in Hnd. apply List.NoDup_cons_iff in Hnd as [_ Hnd].
  assert (Hfind' : forall t p,
             (fix first (l : list Node) : option (string * option Parent) :=
                match l with
                | [] => None
                | k :: l' =>
                    match findText id (Some (mkParent i tag cls ce)) k with
                    | Some r => Some r
                    | None => first l'
                    end
                end) kids = Some (t, p) -> t = txt).
  { intros t p H. apply (Hfind None t p). exact H. }
  clear Hfind. revert Hnd Hfind'.
  generalize (Some (mkParent i tag cls ce)). intros par.
  induction IHkids as [|k kids Hk _ IHrest]; intros Hnd Hfind; [reflexivity|].
  simpl in Hnd. apply NoDup_app_inv in Hnd as (Hndk & Hdisj & Hndr).
  destruct (findText id par k) as [[t p]|] eqn:E.
  - (* the node is at or below [k]: nothing of it is in the rest *)
    assert (Ht : t = txt) by (apply (Hfind t p); reflexivity).
    assert (Hrest : forall q r, List.In r kids -> findText id q r = None).
    { intros q r Hr. destruct (findText id q r) as [x|] eqn:Er; [|reflexivity].
      exfalso. apply findText_In in E. apply findText_In in Er.
      apply (Hdisj id E). apply List.in_flat_map. eauto. }
    destruct k as [j t'|j tag' cls' ce' kids'].
    + simpl in E. destruct (Nat.eqb j id); [|discriminate]. injection E as -> _.
      unfold textOfAll. rewrite <- Ht in Hfr. simpl.
      fold (textOfAll (frags ++ kids)). rewrite textOfAll_app, Hfr. reflexivity.
    + unfold textOfAll. simpl. fold textOfAll.
      f_equal.
      * apply Hk; [exact Hndk|]. intros par' t0 p0 H0. simpl in H0, E.
        rewrite E in H0. injection H0 as <- _. exact Ht.
      * now rewrite each_absent.
  - assert (Hk' : replaceText id frags k = k).
    { apply replaceText_absent. intros q. eapply findText_par_None. exact E. }
    assert (IH' : textOfAll
                    ((fix each (l : list Node) : list Node :=
                        match l with
                        | [] => []
                        | TextNode j t :: l' =>
                            if Nat.eqb j id then frags ++ l' else TextNode j t :: each l'
                        | k :: l' => replaceText id frags k :: each l'
                        end) kids) = textOfAll kids).
    { apply IHrest; [exact Hndr | exact Hfind]. }
    destruct k as [j t'|j tag' cls' ce' kids'].
    + simpl in E. destruct (Nat.eqb j id); [discriminate|].
      unfold textOfAll in *. simpl. now rewrite IH'.
    + unfold textOfAll in *. cbn [foldr fold_right]. rewrite Hk'. now rewrite IH'.
Qed.


Lemma firstSome_unique id txt p (rs : list Node) :
  List.NoDup (flat_map nodeIds rs) ->
  firstSome (findText id None) rs = Some (txt, p) ->
  forall r par t q, List.In r rs -> findText id par r = Some (t, q) -> t = txt.
Proof.
  induction rs as [|r0 rs IH]; intros Hnd Hfirst r par t q Hin Hr; [destruct Hin|].
  simpl in Hnd. apply NoDup_app_inv in Hnd as (_ & Hdisj & Hnd).
  simpl in Hfirst.
  destruct (findText id None r0) as [[t0 q0]|] eqn:E0.
  - injection Hfirst as -> ->.
    destruct Hin as [<-|Hin].
    + destruct r0 as [i t1|i tag cls ce kids].
      * simpl in *. destruct (Nat.eqb i id); [|discriminate]. congruence.
      * simpl in *. congruence.
    + exfalso. apply findText_In in E0. apply findText_In in Hr.
      apply (Hdisj id E0). apply List.in_flat_map. eauto.
  - destruct Hin as [<-|Hin].
    + apply (findText_par_None _ _ _ par) in E0. congruence.
    + now apply (IH Hnd Hfirst r par t q).
Qed.

Lemma NoDup_root (rs : list Node) r :
  List.NoDup (flat_map nodeIds rs) -> List.In r rs -> List.NoDup (nodeIds r).
Proof.
  induction rs as [|r0 rs IH]; intros Hnd Hin; [destruct Hin|].
  simpl in Hnd. apply NoDup_app_inv in Hnd as (H0 & _ & Hrs).
  destruct Hin as [<-|Hin]; auto.
Qed.

Lemma roots_replace id frags d :
  roots (docReplaceText id frags d) = map (replaceText id frags) (roots d).
Proof. reflexivity. Qed.

(** X19.  Annotation keeps the text of the page.  In a document whose
    nodes have identities of their own, and when the matches reported for
    the text of the node do not overlap, [processTextNode] leaves the text
    rendered by the body and by every detached subtree as it was: the
    fragments and markers that take the place of the text node render
    exactly its text. *)
Theorem annotation_keeps_text (node : nat) (s : State) :
  uniqueIds (doc s) ->
  (forall txt p, docFindText node (doc s) = Some (txt, p) -> disjointMatches txt) ->
  map textOf (roots (doc (processTextNode node s))) = map textOf (roots (doc s)).
Proof.
  intros Hu Hdis. unfold processTextNode.
  destruct (decide (node ∈ processedNodes s)); [reflexivity|].
  destruct (docFindText node (doc s)) as [[txt parent]|] eqn:Efind; [|reflexivity].
  specialize (Hdis txt parent eq_refl).
  destruct (JS.isBlank txt); [reflexivity|].
  destruct parent as [p|]; [|reflexivity].
  destruct (isSkippedTag _); [reflexivity|].
  destruct (classListContains _ _); [reflexivity|].
  destruct (p_isContentEditable p) eqn:Ece; [reflexivity|].
  destruct (collectMatches txt) as [|m0 ms] eqn:Ems; [reflexivity|].
  rewrite <- Ems.
  set (s1 := set_processedNodes (fun ps => {[node]} ∪ ps) s).
  pose proof (fragments_text false txt s1 Hdis) as Hfr. cbv zeta in Hfr.
  destruct (fold_left (spliceStep false) (sortMatches (collectMatches txt)) (txt, [], s1))
    as [[remaining fragments] s2] eqn:Efold.
  simpl in Hfr. destruct Hfr as [Htext Hdoc].
  assert (Hgoal : forall frs s3, textOfAll frs = txt -> doc s3 = doc s ->
            map textOf (roots (doc (set_doc (docReplaceText node frs) s3)))
            = map textOf (roots (doc s))).
  { intros frs s3 Hf Hd. unfold set_doc. cbn [doc]. rewrite Hd, roots_replace, List.map_map.
    apply List.map_ext_in. intros r Hr.
    apply (replaceText_text node frs txt r).
    - exact (NoDup_root _ r Hu Hr).
    - intros par t q Ht. exact (firstSome_unique node txt (Some p) (roots (doc s))
                                  Hu Efind r par t q Hr Ht).
    - exact Hf. }
  destruct (JS.truthy remaining) eqn:Er.
  - simpl. apply Hgoal; [exact Htext|]. simpl. exact Hdoc.
  - apply Hgoal; [exact Htext | exact Hdoc].
Qed.

End SpliceFacts.

Section SpliceInstances.
Import Matcher Dom Content Page.

Lemma matches_are_found_text_witness :
  text (mkMatch "vitalik.eth" 4 ens) = JS.slice "ask vitalik.eth" 4 15
  /\ (7 <= String.length "vitalik.eth")%nat.
Proof.
  destruct (matches_are_found_text "ask vitalik.eth" (mkMatch "vitalik.eth" 4 ens))
    as (Htext & _ & Hlen).
  - vm_compute. now left.
  - split; [exact Htext | exact Hlen].
Defined.

Lemma only_address_and_basename_overlap_witness :
  (Matcher.type (mkMatch Scenario.addr40 0 eth) = eth
   /\ Matcher.type (mkMatch (Scenario.addr40 ++ ".base.eth") 0 base) = base)
  \/ (Matcher.type (mkMatch Scenario.addr40 0 eth) = base
      /\ Matcher.type (mkMatch (Scenario.addr40 ++ ".base.eth") 0 base) = eth).
Proof.
  apply (only_address_and_basename_overlap (Scenario.addr40 ++ ".base.eth")).
  - vm_compute. now left.
  - vm_compute. right. now left.
  - discriminate.
  - unfold spansOverlap, spanEnd. simpl. lia.
Defined.

Lemma annotation_keeps_text_witness :
  map textOf (roots (doc (processTextNode 2 (initial (Scenario.page "ask vitalik.eth") 3))))
  = map textOf (roots (doc (initial (Scenario.page "ask vitalik.eth") 3))).
Proof.
  apply annotation_keeps_text.
  - unfold uniqueIds. simpl.
    repeat (constructor; [simpl; intuition discriminate|]). constructor.
  - intros txt p H. vm_compute in H. injection H as <- _.
    unfold disjointMatches.
    replace (collectMatches "ask vitalik.eth") with [mkMatch "vitalik.eth" 4 ens]
      by (vm_compute; reflexivity).
    repeat constructor.
Defined.

End SpliceInstances.

(** ** The tooltip: avatar, hover and the mutation observer *)

Section AvatarFacts.
Import Matcher Dom Content.

Lemma matchLit_lower (l c : ascii) :
  List.In l (JS.chars "htps:/") ->
  matchLit true l c = Ascii.eqb l (JS.lowerChar c).
Proof.
  simpl. intros [<-|[<-|[<-|[<-|[<-|[<-|[]]]]]]];
    destruct c as [[] [] [] [] [] [] [] []]; reflexivity.
Qed.

Lemma inClass_s c : inClass true [("s", "s")%char] c = Ascii.eqb "s" (JS.lowerChar c).
Proof. destruct c as [[] [] [] [] [] [] [] []]; reflexivity. Qed.

Lemma prefix_cons a p b t :
  String.prefix (String a p) (String b t) = Ascii.eqb a b && String.prefix p t.
Proof.
  simpl. destruct (Ascii.eqb_spec a b) as [->|Hne].
  - destruct (ascii_dec b b); [reflexivity | contradiction].
  - destruct (ascii_dec a b); [contradiction | reflexivity].
Qed.

Lemma prefix_nil_r a p : String.prefix (String a p) "" = false.
Proof. reflexivity. Qed.

Lemma prefix_nil_l t : String.prefix "" t = true.
Proof. destruct t; reflexivity. Qed.

Lemma isHttpUrl_spec (u : string) :
  isHttpUrl u
  = Str.startsWith "http://" (JS.toLowerCase u)
    || Str.startsWith "https://" (JS.toLowerCase u).
Proof.
  unfold isHttpUrl, Str.startsWith.
  destruct u as [|c1 [|c2 [|c3 [|c4 [|c5 [|c6 [|c7 [|c8 u]]]]]]]];
    cbn [JS.toLowerCase];
    rewrite ?prefix_cons, ?prefix_nil_r, ?prefix_nil_l;
    unfold lits, JS.chars; cbn [list_ascii_of_string map app matchAtoms head];
    rewrite ?matchLit_lower by (simpl; tauto); rewrite ?inClass_s;
    repeat match goal with
           | |- context [Ascii.eqb ?a (JS.lowerChar ?c)] =>
               generalize (Ascii.eqb a (JS.lowerChar c)); intros ?
           end;
    repeat (reflexivity ||
            match goal with
            | |- context [if ?b then _ else _] => is_var b; destruct b; cbn
            | |- context [andb ?b _] => is_var b; destruct b; cbn
            end).
Qed.


(** X20.  The tooltip takes the avatar of a profile only from an HTTP
    address: [avatarUrl] is used (escaped) exactly when it starts with
    [http://] or [https://], in any letter case; any other value
    ([javascript:], [data:], a relative path, the empty string) gives no
    image. *)
Theorem avatar_only_over_http (data : IdentifierInfo) (s : State) :
  tc_avatar (render data s)
  = match avatarUrl data with
    | Some u =>
        if Str.startsWith "http://" (JS.toLowerCase u)
           || Str.startsWith "https://" (JS.toLowerCase u)
        then Some (escapeHtml u) else None
    | None => None
    end.
Proof.
  unfold render. cbn [tc_avatar].
  destruct (avatarUrl data) as [u|]; [|reflexivity].
  rewrite <- isHttpUrl_spec. unfold JS.orUndefined.
  destruct u; [reflexivity|]. reflexivity.
Qed.

End AvatarFacts.

Section HoverFacts.
Import Content Timers.

Lemma filter_nothing {A} (P : A -> bool) (l : list A) :
  (forall x, List.In x l -> P x = false) -> List.filter P l = [].
Proof.
  induction l as [|x l IH]; simpl; intros H; [reflexivity|].
  rewrite (H x) by now left. apply IH. intros y Hy. apply H. now right.
Qed.

Lemma dropTimer_app h a b : dropTimer h (a ++ b) = dropTimer h a ++ dropTimer h b.
Proof. unfold dropTimer. apply List.filter_app. Qed.

Lemma dropTimer_Forall (P : Timer -> Prop) h l : Forall P l -> Forall P (dropTimer h l).
Proof.
  unfold dropTimer. rewrite !List.Forall_forall. intros H t Ht.
  apply List.filter_In in Ht as [Ht _]. now apply H.
Qed.

Lemma dropTimer_gone h l t : List.In t (dropTimer h l) -> t_id t <> h.
Proof.
  unfold dropTimer. intros Ht. apply List.filter_In in Ht as [_ Ht].
  apply negb_true_iff, Nat.eqb_neq in Ht. exact Ht.
Qed.

Lemma held_cleared (cb : Callback) (h : option nat) (l : list Timer) :
  Forall (fun t => t_cb t = cb -> h = Some (t_id t)) l ->
  Forall (fun t => t_cb t <> cb) (cleared h l).
Proof.
  intros H. rewrite List.Forall_forall in *. intros t Ht Hcb.
  destruct h as [h|]; simpl in Ht.
  - pose proof (dropTimer_gone _ _ _ Ht) as Hne.
    unfold dropTimer in Ht. apply List.filter_In in Ht as [Ht _].
    specialize (H t Ht Hcb). congruence.
  - specialize (H t Ht Hcb). discriminate.
Qed.

(** X21.  The pointer may cross from a marker to the tooltip.  When the
    only pending hide timer is the one the script holds, leaving the marker
    and entering the tooltip leaves no hide timer pending: the tooltip
    stays as it is (same view, same visibility, same hovered marker) until
    the pointer leaves the tooltip. *)
Theorem pointer_may_cross_to_tooltip (s : State) :
  hideHeld s ->
  let s' := tooltipEnter (mouseleave s) in
  Forall (fun t => t_cb t <> CbHide) (timers (sched s'))
  /\ hideTimeout (hover s') = None
  /\ isTooltipHovered (hover s') = true
  /\ visible (hover s') = visible (hover s)
  /\ view (hover s') = view (hover s)
  /\ currentHover (hover s') = currentHover (hover s).
Proof.
  intros Hheld s'. subst s'.
  unfold tooltipEnter, mouseleave, scheduleHide, cancelHide, setTimeout, clearTimeout,
    set_hideTimeout.
  destruct (hideTimeout (hover s)) as [h0|] eqn:E; simpl; rewrite ?E; simpl.
  - repeat split. rewrite dropTimer_app, dropTimer_self, List.app_nil_r. apply dropTimer_Forall.
    apply (held_cleared CbHide (Some h0)). unfold hideHeld in Hheld. now rewrite E in Hheld.
  - repeat split. rewrite dropTimer_app, dropTimer_self, List.app_nil_r. apply dropTimer_Forall.
    apply (held_cleared CbHide None). unfold hideHeld in Hheld. now rewrite E in Hheld.
Qed.

(** X22.  A tooltip left alone is hidden after 200 ms.  With no timer
    pending and the pointer not on the tooltip, leaving the marker starts
    one timer; it fires when the clock reaches 200 ms later (no later time
    can be reached before), and then the tooltip is no longer visible and
    no marker is hovered. *)
Theorem tooltip_hides_after_leave (env : Env) (s : State) :
  timers (sched s) = [] ->
  hideTimeout (hover s) = None ->
  isTooltipHovered (hover s) = false ->
  overlayRoot s = true ->
  exists s',
    fireNext env (mouseleave s) = Some s'
    /\ clock (sched s') = clock (sched s) + 200
    /\ visible (hover s') = false
    /\ currentHover (hover s') = None
    /\ hideTimeout (hover s') = None
    /\ (forall t, advanceTo t (mouseleave s) <> None -> t < clock (sched s) + 200).
Proof.
  intros Ht Hh Htt Ho.
  unfold fireNext, mouseleave, scheduleHide, setTimeout, clearTimeout, set_hideTimeout.
  simpl. rewrite Hh. simpl. rewrite Ht. simpl.
  unfold onHideTimer, hideTooltip. simpl. rewrite Htt, Ho. simpl.
  eexists. split; [reflexivity|]. simpl. split; [lia|]. repeat split.
  intros t. unfold advanceTo. simpl.
  destruct (Z.ltb_spec t (clock (sched s) + 200)); [intros _; assumption|].
  simpl. congruence.
Qed.

(** X23.  Mutations are debounced.  When the only pending flush timer is
    the one the script holds, a batch of added nodes is appended to the
    pending nodes in order, the earlier flush timer is cancelled, and
    exactly one flush timer is pending afterwards, due 200 ms after this
    batch; the same holds again for the next batch. *)
Theorem mutations_are_debounced (added : list nat) (s : State) :
  flushHeld s ->
  let s' := onMutations added s in
  pendingNodes s' = pendingNodes s ++ added
  /\ List.filter isFlush (timers (sched s'))
     = [mkTimer (nextTimer (sched s)) (clock (sched s) + 200) CbProcessPendingNodes]
  /\ observerTimeout s' = Some (nextTimer (sched s))
  /\ flushHeld s'.
Proof.
  intros Hheld s'. subst s'.
  unfold onMutations, setTimeout, clearTimeout, flushHeld in *. simpl.
  assert (Hnone : List.filter isFlush (cleared (observerTimeout s) (timers (sched s))) = []).
  { apply filter_nothing. intros t Hin.
    pose proof (held_cleared CbProcessPendingNodes _ _ Hheld) as H.
    rewrite List.Forall_forall in H. specialize (H t Hin).
    unfold isFlush. destruct (t_cb t); try reflexivity. contradiction. }
  destruct (observerTimeout s) as [h0|] eqn:E; simpl in *.
  - split; [reflexivity|]. rewrite List.filter_app, Hnone. simpl.
    split; [reflexivity|]. split; [reflexivity|].
    apply List.Forall_app. split.
    + pose proof (held_cleared CbProcessPendingNodes (Some h0) _ Hheld) as H.
      simpl in H. eapply List.Forall_impl; [|exact H]. intros t Hne Hcb. contradiction.
    + repeat constructor.
  - split; [reflexivity|]. rewrite List.filter_app, Hnone. simpl.
    split; [reflexivity|]. split; [reflexivity|].
    apply List.Forall_app. split.
    + pose proof (held_cleared CbProcessPendingNodes None _ Hheld) as H.
      simpl in H. eapply List.Forall_impl; [|exact H]. intros t Hne Hcb. contradiction.
    + repeat constructor.
Qed.

End HoverFacts.

Section HoverInstances.
Import Content Timers.

Lemma pointer_may_cross_to_tooltip_witness :
  Forall (fun t => t_cb t <> CbHide)
         (timers (sched (tooltipEnter (mouseleave Scenario.scannedAddress)))).
Proof.
  apply (pointer_may_cross_to_tooltip Scenario.scannedAddress).
  unfold hideHeld. vm_compute. repeat constructor. discriminate.
Defined.

Lemma tooltip_hides_after_leave_witness :
  exists s',
    fireNext Scenario.envScore (mouseleave Scenario.emptyPage) = Some s'
    /\ clock (sched s') = clock (sched Scenario.emptyPage) + 200
    /\ visible (hover s') = false
    /\ currentHover (hover s') = None
    /\ hideTimeout (hover s') = None
    /\ (forall t, advanceTo t (mouseleave Scenario.emptyPage) <> None ->
                  t < clock (sched Scenario.emptyPage) + 200).
Proof.
  apply (tooltip_hides_after_leave Scenario.envScore Scenario.emptyPage); reflexivity.
Defined.

Lemma mutations_are_debounced_witness :
  pendingNodes (onMutations [7%nat; 8%nat] (onMutations [5%nat] Scenario.emptyPage))
  = [5%nat; 7%nat; 8%nat].
Proof.
  destruct (mutations_are_debounced [5%nat] Scenario.emptyPage) as (_ & _ & _ & Hheld).
  - unfold flushHeld. vm_compute. constructor.
  - apply (mutations_are_debounced [7%nat; 8%nat] _ Hheld).
Defined.

End HoverInstances.

(** ** Tiers in order, and the profile card *)

Section TierOrder.
Import Tiers.

Ltac cases :=
  repeat match goal with
         | |- context [if ?b then _ else _] => destruct b eqn:?
         | H : context [if ?b then _ else _] |- _ => destruct b eqn:?
         end.

Lemma scores_integer (z : Z) :
  Scores.getTierForScore (Scores.integer z) = getTierForScore (Some z)
  /\ Scores.getScoreTier (Scores.integer z) = getScoreTier (Some z).
Proof.
  unfold Scores.getTierForScore, Scores.getScoreTier, getTierForScore, getScoreTier,
    SCORE_TIERS, Scores.inTier, inTier, Scores.integer, Scores.toNumber, Scores.ge,
    Scores.le, QArith_base.Qle_bool, QArith_base.inject_Z.
  cbn [List.find min max QArith_base.Qnum QArith_base.Qden andb].
  split; cases; try reflexivity; lia.
Qed.


Lemma ge_mono q q' c :
  QArith_base.Qle q q' ->
  Scores.ge (Scores.Finite q) c = true -> Scores.ge (Scores.Finite q') c = true.
Proof.
  unfold Scores.ge. rewrite !QArith_base.Qle_bool_iff. intros Hle Hc.
  eapply QArith_base.Qle_trans; eassumption.
Qed.

Ltac unfoldScores :=
  unfold Scores.getTierForScore, Scores.getScoreTier, Scores.getScoreColor,
    Scores.betweenRows, SCORE_TIERS, Scores.inTier, Scores.toNumber, Scores.ge,
    Scores.le, QArith_base.Qle_bool, QArith_base.inject_Z, firstTier, tierName;
  cbn [List.find existsb combine tl fst snd min max name color
       QArith_base.Qnum QArith_base.Qden andb orb negb].

Lemma scores_rows (score : Scores.Score) :
  (tierName (Scores.getTierForScore score) = Scores.getScoreTier score
   <-> Scores.betweenRows (Scores.toNumber score)
       && Scores.ge (Scores.toNumber score) 800 = false)
  /\ (Scores.betweenRows (Scores.toNumber score) = true -> score <> Scores.null ->
      Scores.getTierForScore score = Some firstTier).
Proof.
  destruct score as [| |[[n d]| | |]]; try (split; [split|]; intros; try reflexivity; try discriminate; congruence).
  unfoldScores.
  repeat (match goal with
          | |- context [(?a <=? ?b)%Z] => destruct (Z.leb_spec a b)
          end; try (exfalso; lia));
    cbn; (split; [split|]); intros; try reflexivity; try discriminate; congruence.
Qed.

(** X24.  The two classifiers on every score a response can carry.
    [getScoreTier] never drops as a number grows.  [getTierForScore]
    never drops over integer scores, where both are the classifiers of the
    breakpoint table; it names the tier [getScoreTier] names except for a
    number of 800 or more that lies strictly between two rows (1199.5 is
    one): no row holds such a number, and it gets the first row,
    untrusted.  No integer lies between two rows. *)
Theorem tier_grows_with_score :
  (forall q q', QArith_base.Qle q q' ->
     Scores.startOf (Scores.getScoreTier (Scores.number (Scores.Finite q)))
     <= Scores.startOf (Scores.getScoreTier (Scores.number (Scores.Finite q'))))
  /\ (forall z z' t t', z <= z' ->
        Scores.getTierForScore (Scores.integer z) = Some t ->
        Scores.getTierForScore (Scores.integer z') = Some t' ->
        min t <= min t')
  /\ (forall score,
        tierName (Scores.getTierForScore score) = Scores.getScoreTier score
        <-> Scores.betweenRows (Scores.toNumber score)
            && Scores.ge (Scores.toNumber score) 800 = false)
  /\ (forall x, Scores.betweenRows x = true ->
                Scores.getTierForScore (Scores.number x) = Some firstTier)
  /\ (forall z, Scores.getTierForScore (Scores.integer z) = getTierForScore (Some z)
                /\ Scores.getScoreTier (Scores.integer z) = getScoreTier (Some z)
                /\ Scores.betweenRows (Scores.toNumber (Scores.integer z)) = false).
Proof.
  split; [|split; [|split; [|split]]].
  - intros q q' Hle.
    pose proof (ge_mono q q' 2400 Hle). pose proof (ge_mono q q' 2200 Hle).
    pose proof (ge_mono q q' 2000 Hle). pose proof (ge_mono q q' 1800 Hle).
    pose proof (ge_mono q q' 1600 Hle). pose proof (ge_mono q q' 1400 Hle).
    pose proof (ge_mono q q' 1200 Hle). pose proof (ge_mono q q' 1000 Hle).
    pose proof (ge_mono q q' 800 Hle).
    unfold Scores.getScoreTier. cbn [Scores.toNumber].
    repeat match goal with
           | |- context [if ?b then _ else _] => destruct b eqn:?
           end;
      try (vm_compute; discriminate);
      repeat match goal with
             | H : ?a = true -> ?b = true, Ha : ?a = true, Hb : ?b = false |- _ =>
                 rewrite (H Ha) in Hb; discriminate Hb
             | H : true = true -> _ |- _ => specialize (H eq_refl)
             end; try discriminate.
  - intros z z' t t' Hle.
    rewrite (proj1 (scores_integer z)), (proj1 (scores_integer z')).
    unfold getTierForScore, SCORE_TIERS, inTier, firstTier; simpl.
    repeat match goal with
           | |- context [if ?b then _ else _] => destruct b eqn:?
           end;
      intros [= <-]; try lia;
      repeat match goal with
             | |- context [if ?b then _ else _] => destruct b eqn:?
             end;
      intros [= <-]; simpl; lia.
  - intros score. apply scores_rows.
  - intros x Hx. apply (proj2 (scores_rows (Scores.number x))); [exact Hx | discriminate].
  - intros z. destruct (scores_integer z) as [H1 H2]. split; [exact H1|]. split; [exact H2|].
    unfold Scores.integer. unfoldScores.
    repeat (match goal with
            | |- context [(?a <=? ?b)%Z] => destruct (Z.leb_spec a b)
            end; try (exfalso; lia)); reflexivity.
Qed.

Lemma tier_grows_with_score_witness :
  Scores.getTierForScore (Scores.number (Scores.Finite (QArith_base.Qmake 2399 2)))
  = Some firstTier
  /\ Scores.getScoreTier (Scores.number (Scores.Finite (QArith_base.Qmake 2399 2)))
     = "neutral".
Proof.
  split; [|reflexivity].
  apply (proj1 (proj2 (proj2 (proj2 tier_grows_with_score)))). reflexivity.
Defined.

End TierOrder.

Section CardFacts.
Import Tiers HudCard.

Lemma getTierForScore_listed (score : Scores.Score) (t : ScoreTier) :
  Scores.getTierForScore score = Some t -> In t SCORE_TIERS.
Proof.
  unfold Scores.getTierForScore. destruct score as [| |x]; [discriminate| |].
  all: destruct (List.find _ SCORE_TIERS) as [r|] eqn:E; intros [= <-];
    [apply List.find_some in E; apply E | left; reflexivity].
Qed.

(** X25.  The profile card on every score a response can carry.  The
    check mark is shown exactly for a number of 1200 or more, never for
    [null], a missing score or [NaN].  For [null] the card shows unscored
    in the colour kept for it.  For any other score that does not lie
    strictly between two rows from 800 up, the accent colour is the colour
    of the row whose name is the tier shown (a missing score is shown as
    untrusted).  For a number strictly between two rows from 800 up
    (1199.5 is one) the card shows the colour of untrusted under the name
    of another tier. *)
Theorem card_check_mark (score : Scores.Score) :
  (verified score = true
   <-> score <> Scores.null /\ Scores.ge (Scores.toNumber score) 1200 = true)
  /\ (score = Scores.null ->
      tier score = "unscored" /\ HudCard.color score = UNSCORED_COLOR)
  /\ (score <> Scores.null ->
      Scores.betweenRows (Scores.toNumber score)
      && Scores.ge (Scores.toNumber score) 800 = false ->
      exists t, In t SCORE_TIERS
                /\ name t = tier score /\ Tiers.color t = HudCard.color score)
  /\ (Scores.betweenRows (Scores.toNumber score)
      && Scores.ge (Scores.toNumber score) 800 = true ->
      HudCard.color score = Tiers.color firstTier /\ tier score <> name firstTier).
Proof.
  split; [|split; [|split]].
  - unfold verified, tier, verifiedTiers.
    destruct score as [| |[[n d]| | |]];
      try (cbn; split; [discriminate | intros [H1 H2]; congruence]);
      try (cbn; split; [intros _; split; [discriminate | reflexivity] | reflexivity]).
    unfold Scores.getScoreTier, Scores.toNumber, Scores.ge, QArith_base.Qle_bool,
      QArith_base.inject_Z.
    cbn [QArith_base.Qnum QArith_base.Qden].
    repeat (match goal with
            | |- context [(?a <=? ?b)%Z] => destruct (Z.leb_spec a b)
            end; try (exfalso; lia));
      cbn; (split; [intros Hshown;
                    first [discriminate Hshown | split; [discriminate | reflexivity]]
                   | intros [_ Hnum]; first [discriminate Hnum | reflexivity]]).
  - intros ->. split; reflexivity.
  - intros Hnn Hrows.
    destruct (Scores.getTierForScore score) as [t|] eqn:Et.
    + exists t. split; [now apply (getTierForScore_listed score)|]. split.
      * unfold tier. rewrite <- (proj2 (proj1 (scores_rows score)) Hrows), Et. reflexivity.
      * unfold HudCard.color, Scores.getScoreColor. now rewrite Et.
    + unfold Scores.getTierForScore in Et.
      destruct score; [contradiction | |];
        destruct (List.find _ SCORE_TIERS); discriminate Et.
  - intros Hrows. apply andb_true_iff in Hrows as [Hb Hge].
    assert (Hnn : score <> Scores.null) by (intros ->; discriminate Hb).
    pose proof (proj2 (scores_rows score) Hb Hnn) as Hfirst.
    split.
    + unfold HudCard.color, Scores.getScoreColor. now rewrite Hfirst.
    + intros Hname.
      assert (Hagree : tierName (Scores.getTierForScore score) = Scores.getScoreTier score).
      { rewrite Hfirst. symmetry. exact Hname. }
      apply (proj1 (scores_rows score)) in Hagree. rewrite Hb, Hge in Hagree.
      discriminate Hagree.
Qed.

End CardFacts.

(** ** Circular vouches *)

Section SybilFacts.
Import Sybil.

Lemma givenSet_has (vouchesGiven : list Vouch) (vouch : Vouch) :
  bool_decide (authorProfileId vouch ∈
               (list_to_set (map subjectProfileId vouchesGiven) : gset Z))
  = reciprocated vouchesGiven vouch.
Proof.
  unfold reciprocated.
  induction vouchesGiven as [|g gs IH]; simpl.
  - apply bool_decide_eq_false. apply not_elem_of_empty.
  - destruct (Z.eqb_spec (subjectProfileId g) (authorProfileId vouch)) as [E|E]; simpl.
    + apply bool_decide_eq_true. apply elem_of_union_l, elem_of_singleton.
      symmetry. exact E.
    + rewrite <- IH. apply bool_decide_ext. rewrite elem_of_union, elem_of_singleton.
      split; [intros [H|H]; [congruence | exact H] | intros H; right; exact H].
Qed.

Lemma countLoop (vouchesGiven vouchesReceived : list Vouch) (n : nat) (ps : list string) :
  fold_left (countStep (list_to_set (map subjectProfileId vouchesGiven)))
            vouchesReceived (n, ps)
  = ((n + length (List.filter (reciprocated vouchesGiven) vouchesReceived))%nat,
     (ps ++ map partnerName (List.filter (reciprocated vouchesGiven) vouchesReceived))%list).
Proof.
  revert n ps.
  induction vouchesReceived as [|v vs IH]; intros n ps; simpl.
  - rewrite Nat.add_0_r, app_nil_r. reflexivity.
  - unfold countStep at 2. rewrite givenSet_has.
    destruct (reciprocated vouchesGiven v); simpl.
    + rewrite IH. f_equal; [lia|]. rewrite <- app_assoc. reflexivity.
    + apply IH.
Qed.

Lemma detect_unfold (vouchesReceived vouchesGiven : list Vouch) (profileId : Z) :
  let c := length (List.filter (reciprocated vouchesGiven) vouchesReceived) in
  let t := length vouchesReceived in
  detectSybilFlags vouchesReceived vouchesGiven profileId
  = mkFlags (0 <? c)%nat c
      (map partnerName (List.filter (reciprocated vouchesGiven) vouchesReceived))
      (if (0 <? c)%nat then
         if QArith_base.Qle_bool half (ratio c t) || (5 <=? c)%nat then high
         else if QArith_base.Qle_bool threeTenths (ratio c t) || (3 <=? c)%nat then medium
         else low
       else none).
Proof.
  intros c t. unfold detectSybilFlags. rewrite countLoop. reflexivity.
Qed.

Lemma filter_length_le {A} (f : A -> bool) (l : list A) :
  (length (List.filter f l) <= length l)%nat.
Proof.
  induction l as [|x l IH]; simpl; [lia|]. destruct (f x); simpl; lia.
Qed.

Lemma ratio_half (c t : nat) :
  (0 < t)%nat ->
  QArith_base.Qle_bool half (ratio c t) = (t <=? 2 * c)%nat.
Proof.
  intros Ht. unfold QArith_base.Qle_bool, half, ratio.
  cbn [QArith_base.Qnum QArith_base.Qden].
  rewrite Nat.max_l by lia.
  rewrite <- (positive_nat_Z (Pos.of_nat t)), Nat2Pos.id by lia.
  destruct (Nat.leb_spec t (2 * c));
    destruct (Z.leb_spec (1 * Z.of_nat t) (Z.of_nat c * 2)); try reflexivity; lia.
Qed.

Lemma ratio_threeTenths (c t : nat) :
  (0 < t)%nat ->
  QArith_base.Qle_bool threeTenths (ratio c t) = (3 * t <=? 10 * c)%nat.
Proof.
  intros Ht. unfold QArith_base.Qle_bool, threeTenths, ratio.
  cbn [QArith_base.Qnum QArith_base.Qden].
  rewrite Nat.max_l by lia.
  rewrite <- (positive_nat_Z (Pos.of_nat t)), Nat2Pos.id by lia.
  destruct (Nat.leb_spec (3 * t) (10 * c));
    destruct (Z.leb_spec (3 * Z.of_nat t) (Z.of_nat c * 10)); try reflexivity; lia.
Qed.

(** X26.  What is counted as a circular vouch: the received vouches whose
    author is the subject of some vouch given, each counted once however
    many vouches were given to that author; the partners listed are the
    names of those authors in the order received (user name, else name,
    else Unknown), the count is the length of that list and never more than
    the vouches received, and the flag is set exactly when there is one. *)
Theorem circular_vouches_counted (vouchesReceived vouchesGiven : list Vouch) (profileId : Z) :
  let flags := detectSybilFlags vouchesReceived vouchesGiven profileId in
  let circular := List.filter (reciprocated vouchesGiven) vouchesReceived in
  circularVouchPartners flags = map partnerName circular
  /\ circularVouchCount flags = length circular
  /\ (circularVouchCount flags <= length vouchesReceived)%nat
  /\ (hasCircularVouches flags = true <->
      exists r g, In r vouchesReceived /\ In g vouchesGiven
                  /\ subjectProfileId g = authorProfileId r).
Proof.
  intros flags circular. subst flags.
  rewrite detect_unfold. fold circular. cbn [circularVouchPartners circularVouchCount hasCircularVouches].
  split; [reflexivity|]. split; [reflexivity|].
  split; [apply filter_length_le|].
  split.
  - intros H. apply Nat.ltb_lt in H.
    destruct circular as [|r rest] eqn:E; [simpl in H; lia|].
    assert (Hin : In r (List.filter (reciprocated vouchesGiven) vouchesReceived)).
    { fold circular. rewrite E. left. reflexivity. }
    apply List.filter_In in Hin. destruct Hin as [Hr Hrec].
    unfold reciprocated in Hrec. apply existsb_exists in Hrec.
    destruct Hrec as (g & Hg & Heq). apply Z.eqb_eq in Heq.
    exists r, g. auto.
  - intros (r & g & Hr & Hg & Heq).
    assert (Hin : In r circular).
    { apply List.filter_In. split; [exact Hr|].
      unfold reciprocated. apply existsb_exists. exists g. split; [exact Hg|].
      apply Z.eqb_eq. exact Heq. }
    apply Nat.ltb_lt. destruct circular; [destruct Hin | simpl; lia].
Qed.

(** X27.  The suspicion level as a function of the number [c] of circular
    vouches among [t] received: none exactly when there is none; high
    exactly when at least half of the received vouches are circular or
    there are five or more; medium when not high and at least three in ten
    are circular or there are three or more; low otherwise. *)
Theorem suspicion_levels (vouchesReceived vouchesGiven : list Vouch) (profileId : Z) :
  let flags := detectSybilFlags vouchesReceived vouchesGiven profileId in
  let c := circularVouchCount flags in
  let t := length vouchesReceived in
  (suspicionLevel flags = none <-> c = 0%nat)
  /\ (suspicionLevel flags = high <->
      (0 < c /\ (t <= 2 * c \/ 5 <= c))%nat)
  /\ (suspicionLevel flags = medium <->
      (0 < c /\ 2 * c < t /\ c < 5 /\ (3 * t <= 10 * c \/ 3 <= c))%nat)
  /\ (suspicionLevel flags = low <->
      (0 < c /\ 10 * c < 3 * t /\ c < 3)%nat).
Proof.
  intros flags c t. subst c flags.
  rewrite detect_unfold. cbn [circularVouchCount suspicionLevel].
  pose proof (filter_length_le (reciprocated vouchesGiven) vouchesReceived) as Hle.
  fold t in Hle |- *.
  set (c := length (List.filter (reciprocated vouchesGiven) vouchesReceived)) in *.
  destruct (Nat.ltb_spec 0 c) as [Hc|Hc].
  - rewrite ratio_half, ratio_threeTenths by lia.
    destruct (Nat.leb_spec t (2 * c)), (Nat.leb_spec 5 c),
             (Nat.leb_spec (3 * t) (10 * c)), (Nat.leb_spec 3 c); simpl;
      repeat split; intros; try discriminate; try lia.
  - repeat split; intros; try discriminate; try lia.
Qed.

End SybilFacts.

(** ** The security scan *)

Section ShieldFacts.
Import Eff RiskShield.

Lemma length_toLowerCase s : String.length (JS.toLowerCase s) = String.length s.
Proof. induction s as [|c s IH]; simpl; [reflexivity | now rewrite IH]. Qed.

Lemma asked_asked urls urls' sh : asked urls' (asked urls sh) = asked (urls ++ urls') sh.
Proof. unfold asked; simpl. now rewrite <- app_assoc. Qed.

Lemma asked_nil sh : asked [] sh = sh.
Proof. destruct sh; unfold asked; simpl. now rewrite app_nil_r. Qed.

Lemma checkGoPlusChain_spec net address chainId chainName sh :
  checkGoPlusChain net address chainId chainName sh
  = (Content.Returned (verdict (chainFlags net address (chainId, chainName))),
     asked [chainUrl address chainId] sh).
Proof.
  unfold checkGoPlusChain, chainFlags, tryCatch, bind, fetchGoPlus, settle, ret, verdict.
  cbn [fst].
  generalize (chainUrl address chainId); intros url.
  destruct (goPlus net url) as [response|]; [|reflexivity].
  destruct (g_ok response); cbn [negb]; [|reflexivity].
  destruct (g_result response) as [[sec|]|]; try reflexivity.
  destruct (0 <? length (flagsOf sec))%nat; reflexivity.
Qed.

Lemma all_chains net address chains sh :
  all (fun chain => checkGoPlusChain net address (fst chain) (snd chain)) chains sh
  = (Content.Returned (map (fun chain => verdict (chainFlags net address chain)) chains),
     asked (map (fun chain => chainUrl address (fst chain)) chains) sh).
Proof.
  revert sh. induction chains as [|[chainId chainName] chains IH]; intros sh.
  - cbn [all map]. rewrite asked_nil. reflexivity.
  - cbn [all map fst snd]. unfold bind at 1. rewrite checkGoPlusChain_spec.
    unfold bind at 1. rewrite IH. unfold ret. rewrite asked_asked. reflexivity.
Qed.

Lemma pushFlags_verdicts net address chains acc :
  fold_left pushFlags
    (map (fun chain => verdict (chainFlags net address chain)) chains) acc
  = acc ++ flat_map (chainFlags net address) chains.
Proof.
  revert acc. induction chains as [|chain chains IH]; intros acc; cbn [map fold_left flat_map].
  - now rewrite app_nil_r.
  - rewrite IH. rewrite app_assoc. f_equal.
    unfold pushFlags, verdict.
    destruct (chainFlags net address chain) as [|f fl]; simpl; [now rewrite app_nil_r|reflexivity].
Qed.

Lemma unique_from l : forall seen,
  let u := fold_left (fun seen x => if existsb (String.eqb x) seen then seen else seen ++ [x])
                     l seen in
  (List.NoDup seen -> List.NoDup u)
  /\ (forall x, List.In x u <-> List.In x seen \/ List.In x l).
Proof.
  induction l as [|y l IH]; intros seen; cbn [fold_left].
  - split; [auto|]. intros x. simpl. tauto.
  - destruct (existsb (String.eqb y) seen) eqn:E.
    + destruct (IH seen) as [Hnd Hin]. split; [exact Hnd|].
      intros x. rewrite Hin. simpl.
      apply existsb_exists in E as (z & Hz & Hyz). apply String.eqb_eq in Hyz. subst z.
      split; [tauto|]. intros [H|[<-|H]]; auto.
    + destruct (IH (seen ++ [y])) as [Hnd Hin]. split.
      * intros Hs. apply Hnd. apply List.NoDup_app; [exact Hs | |].
        -- constructor; [intros []|constructor].
        -- intros a Ha [Hay|[]]. subst a.
           assert (existsb (String.eqb y) seen = true); [|congruence].
           apply existsb_exists. exists y. split; [exact Ha | apply String.eqb_refl].
      * intros x. rewrite Hin, List.in_app_iff. simpl. tauto.
Qed.

Lemma unique_spec l :
  List.NoDup (unique l) /\ (forall x, List.In x (unique l) <-> List.In x l).
Proof.
  destruct (unique_from l []) as [Hnd Hin]. split.
  - apply Hnd. constructor.
  - intros x. unfold unique. rewrite Hin. simpl. tauto.
Qed.

Lemma unique_nil l : unique l = [] <-> l = [].
Proof.
  destruct (unique_spec l) as [_ Hin]. split; intros H.
  - destruct l as [|x l]; [reflexivity|].
    assert (List.In x (unique (x :: l))) by (apply Hin; now left).
    rewrite H in H0. destruct H0.
  - subst l. reflexivity.
Qed.

Lemma flags_found {A} (f : A -> list string) (l : list A) :
  (0 <? length (unique (flat_map f l)))%nat = true
  <-> exists x, List.In x l /\ f x <> [].
Proof.
  rewrite Nat.ltb_lt. split.
  - intros H. destruct (unique (flat_map f l)) as [|y u] eqn:E; [simpl in H; lia|].
    assert (Hin : List.In y (unique (flat_map f l))) by (rewrite E; now left).
    apply (proj1 (proj2 (unique_spec _) _)) in Hin. apply List.in_flat_map in Hin.
    destruct Hin as (x & Hx & Hy). exists x. split; [exact Hx|].
    intros Hnil. rewrite Hnil in Hy. destruct Hy.
  - intros (x & Hx & Hne).
    destruct (f x) as [|y ys] eqn:E; [congruence|].
    assert (Hin : List.In y (unique (flat_map f l))).
    { apply (proj2 (proj2 (unique_spec _) _)). apply List.in_flat_map. exists x.
      split; [exact Hx|]. rewrite E. now left. }
    destruct (unique (flat_map f l)); [destruct Hin | simpl; lia].
Qed.

Lemma checkGoPlus_spec net address sh :
  checkGoPlus net address sh
  = (Content.Returned (verdict (unique (flat_map (chainFlags net address) CHAINS))),
     asked (map (fun chain => chainUrl address (fst chain)) CHAINS) sh).
Proof.
  unfold checkGoPlus. unfold bind. rewrite all_chains.
  rewrite pushFlags_verdicts. cbn [app]. unfold verdict, ret.
  destruct (0 <? length _)%nat; reflexivity.
Qed.

Lemma includes_lower address blacklist :
  existsb (String.eqb (JS.toLowerCase (normalizedAddress address)))
          (map JS.toLowerCase blacklist)
  = existsb (fun a => String.eqb (JS.toLowerCase a) (JS.toLowerCase address)) blacklist.
Proof.
  unfold normalizedAddress. rewrite toLowerCase_idem.
  induction blacklist as [|a l IH]; simpl; [reflexivity|].
  rewrite IH. f_equal. apply String.eqb_sym.
Qed.

Lemma checkScamSniffer_spec net address sh :
  checkScamSniffer net (normalizedAddress address) sh
  = (Content.Returned (blacklisted net address), asked [SCAM_URL] sh).
Proof.
  unfold checkScamSniffer, blacklisted, tryCatch, bind, fetchList, settle, ret.
  generalize SCAM_URL; intros url.
  destruct (scamSniffer net url) as [response|]; [|reflexivity].
  destruct (l_ok response); cbn [negb]; [|reflexivity].
  destruct (l_body response) as [blacklist|]; [|reflexivity].
  rewrite includes_lower.
  destruct (existsb _ blacklist); reflexivity.
Qed.

Lemma runScan_spec net storageWorks now1 now2 address sh :
  JS.truthy address = true -> String.length address = 42%nat ->
  let fl := unique (flat_map (chainFlags net (normalizedAddress address)) CHAINS) in
  let bl := blacklisted net address in
  let st := if (0 <? length fl)%nat || bl then danger else safe in
  snd (runScan net storageWorks now1 now2 address sh)
  = if storageWorks then
      mkShield st
        (Some (mkResult st (normalizedAddress address) fl bl now1))
        (<[cacheKey address := mkCache st now2 fl bl]> (local sh))
        (requests sh ++ scanUrls address)
    else mkShield error (result sh) (local sh) (requests sh ++ scanUrls address).
Proof.
  intros Ht Hl fl bl st. unfold runScan. rewrite Ht, Hl. cbn [negb orb Nat.eqb].
  change (42 =? 42)%nat with true. cbn [negb orb].
  unfold bind at 1. unfold modify at 1.
  unfold tryCatch. unfold bind at 1. rewrite checkGoPlus_spec.
  unfold bind at 1. rewrite checkScamSniffer_spec.
  fold fl. fold bl. rewrite asked_asked. fold (scanUrls address).
  unfold verdict. subst st. clearbody fl bl.
  unfold localSet, bind, modify, throw.
  destruct fl as [|f fl]; destruct storageWorks, bl; reflexivity.
Qed.

(** X28.  The verdict of a security scan.  For an address of 42 characters
    and a storage that can be written, a scan ends as safe or as danger,
    never as an error: it is danger exactly when some chain's report is
    delivered with one of the eleven fields set to 1, or the blacklist is
    delivered and holds the address in any case of letters.  A request that
    fails, answers with an error status or cannot be parsed counts as
    nothing found: when all seven fail the address is shown as safe.  The
    scan fetches the six chain reports and the blacklist, once each. *)
Theorem scan_verdict net now1 now2 address sh :
  JS.truthy address = true -> String.length address = 42%nat ->
  let sh' := snd (runScan net true now1 now2 address sh) in
  (status sh' = danger
   <-> (exists chain, List.In chain CHAINS
                      /\ chainFlags net (normalizedAddress address) chain <> [])
       \/ blacklisted net address = true)
  /\ (status sh' = safe \/ status sh' = danger)
  /\ ((forall url, goPlus net url = Content.Threw)
      -> scamSniffer net SCAM_URL = Content.Threw -> status sh' = safe)
  /\ requests sh' = requests sh ++ scanUrls address.
Proof.
  intros Ht Hl sh'. subst sh'. rewrite runScan_spec by assumption.
  cbn [status requests].
  set (fl := unique (flat_map (chainFlags net (normalizedAddress address)) CHAINS)).
  pose proof (flags_found (chainFlags net (normalizedAddress address)) CHAINS) as Hfl.
  fold fl in Hfl.
  split; [|split; [|split]].
  - rewrite <- Hfl.
    destruct (0 <? length fl)%nat, (blacklisted net address); cbn [orb];
      split; try tauto; try discriminate; intros [H|H]; discriminate.
  - destruct ((0 <? length fl)%nat || blacklisted net address); auto.
  - intros Hg Hs.
    assert (Hb : blacklisted net address = false).
    { unfold blacklisted. now rewrite Hs. }
    assert (Hn : (0 <? length fl)%nat = false).
    { apply not_true_is_false. intros E.
      apply Hfl in E as (chain & _ & Hne). apply Hne.
      unfold chainFlags. now rewrite Hg. }
    now rewrite Hb, Hn.
  - reflexivity.
Qed.

(** X29.  A scan is remembered for a day.  After a scan of an address, the
    component shown again for that address, in any case of letters, less
    than 24 hours after the scan stored its verdict shows that verdict, its
    flags and its blacklist match again without fetching anything; from 24
    hours on it shows nothing until a new scan.  The flags shown have no
    repetition. *)
Theorem scan_is_remembered_a_day net now1 now2 now address address' sh :
  JS.truthy address = true -> String.length address = 42%nat ->
  JS.toLowerCase address' = JS.toLowerCase address ->
  let scanned := snd (runScan net true now1 now2 address sh) in
  let shown := restore now address'
                 (mkShield idle None (local scanned) []) in
  (now - now2 < 86400000 ->
     status shown = status scanned
     /\ (exists r r', result shown = Some r /\ result scanned = Some r'
           /\ r_status r = r_status r' /\ r_address r = r_address r'
           /\ goPlusFlags r = goPlusFlags r'
           /\ scamSnifferBlacklisted r = scamSnifferBlacklisted r'
           /\ r_timestamp r = now2 /\ r_timestamp r' = now1
           /\ List.NoDup (goPlusFlags r)))
  /\ (86400000 <= now - now2 -> status shown = idle /\ result shown = None)
  /\ requests shown = [].
Proof.
  intros Ht Hl Hsame scanned shown.
  assert (Ht' : JS.truthy address' = true).
  { destruct address' as [|c s]; [|reflexivity].
    destruct address; [discriminate Ht | discriminate Hsame]. }
  assert (Hl' : String.length address' = 42%nat).
  { rewrite <- Hl. rewrite <- (length_toLowerCase address'), Hsame.
    apply length_toLowerCase. }
  assert (Hkey : cacheKey address' = cacheKey address).
  { unfold cacheKey, normalizedAddress. now rewrite Hsame. }
  subst shown scanned. rewrite runScan_spec by assumption.
  unfold restore. rewrite Ht', Hl'. change (42 =? 42)%nat with true. cbn [andb local].
  rewrite Hkey, lookup_insert_eq. cbn [c_timestamp c_status c_goPlusFlags c_scamSnifferMatch].
  destruct (Z.ltb_spec (now - now2) 86400000) as [Hlt|Hge].
  - split; [|split; [intros; lia | reflexivity]].
    intros _. split; [reflexivity|].
    eexists; eexists. split; [reflexivity|]. split; [reflexivity|].
    cbn. unfold normalizedAddress. rewrite Hsame.
    repeat split. apply unique_spec.
  - split; [intros; lia|]. split; [|reflexivity]. intros _. split; reflexivity.
Qed.

End ShieldFacts.

Section ShieldInstances.
Import RiskShield.

Lemma scan_verdict_witness :
  status (snd (runScan Cases.shieldDown true 0 0 Scenario.addr40 Cases.idleShield))
  = safe.
Proof.
  destruct (scan_verdict Cases.shieldDown 0 0 Scenario.addr40 Cases.idleShield
                         eq_refl eq_refl) as (_ & _ & Hdown & _).
  apply Hdown.
  - intros url. reflexivity.
  - reflexivity.
Defined.

Lemma scan_is_remembered_a_day_witness :
  status (restore 1000 Scenario.addrKey
            (mkShield idle None
               (local (snd (runScan Cases.shieldListed true 0 5 Scenario.addr40
                                    Cases.idleShield))) []))
  = danger.
Proof.
  destruct (scan_is_remembered_a_day Cases.shieldListed 0 5 1000
              Scenario.addr40 Scenario.addrKey Cases.idleShield
              eq_refl eq_refl eq_refl) as (Hfresh & _).
  destruct Hfresh as [Hstatus _]; [lia|].
  rewrite Hstatus. vm_compute. reflexivity.
Defined.

End ShieldInstances.

(** ** The lookup of the popup *)

Section PopupFacts.
Import Eff Background Matcher Str Popup.
#[local] Arguments Str.allowed : simpl never.

Lemma viaBackground_spec net log name :
  exists r, viaBackground net log name = Content.Returned r
            /\ (forall a, r = Some a -> addressLike a).
Proof.
  unfold viaBackground, onResolveName.
  destruct (JS.truthy name); simpl; [|eexists; split; [reflexivity|discriminate]].
  unfold tryCatch.
  destruct (resolveName_answers net name log) as (r & log' & -> & Hr).
  exists r. split; [reflexivity | exact Hr].
Qed.

Lemma allowed_cons ci a atoms c :
  allowed ci atoms c = true -> allowed ci (a :: atoms) c = true.
Proof. unfold allowed; simpl. intros ->. apply orb_true_r. Qed.

Lemma matchAtoms_allowed ci atoms : forall prev inp n,
  matchAtoms ci atoms prev inp = Some n ->
  List.Forall (fun c => allowed ci atoms c = true) (firstn n inp).
Proof.
  induction atoms as [|a rest IH]; intros prev inp n; simpl.
  - intros [= <-]. constructor.
  - destruct a as [|l|ranges lo hi].
    + destruct (xorb _ _); [|discriminate]. intros H. apply IH in H.
      eapply List.Forall_impl; [|exact H]. intros c. apply allowed_cons.
    + destruct inp as [|c inp]; [discriminate|].
      destruct (matchLit ci l c) eqn:Hl; [|discriminate].
      destruct (matchAtoms ci rest (Some c) inp) as [m|] eqn:E; simpl; [|discriminate].
      intros [= <-]. simpl. constructor.
      * unfold allowed; simpl. now rewrite Hl.
      * apply IH in E. eapply List.Forall_impl; [|exact E]. intros ?. apply allowed_cons.
    + enough (Hrep : forall inp count prev n,
                (fix rep (count : nat) (prev : option ascii) (inp : list ascii)
                     {struct inp} : option nat :=
                   let stop := if (lo <=? count)%nat then matchAtoms ci rest prev inp
                               else None in
                   match inp with
                   | c :: inp' =>
                       if inClass ci ranges c && belowMax count hi then
                         match rep (S count) (Some c) inp' with
                         | Some n => Some (S n)
                         | None => stop
                         end
                       else stop
                   | [] => stop
                   end) count prev inp = Some n ->
                List.Forall (fun c => allowed ci (Class ranges lo hi :: rest) c = true)
                            (firstn n inp)).
      { apply Hrep. }
      clear inp prev n.
      assert (Hstop : forall count prev inp n,
                 (if (lo <=? count)%nat then matchAtoms ci rest prev inp else None) = Some n ->
                 List.Forall (fun c => allowed ci (Class ranges lo hi :: rest) c = true)
                             (firstn n inp)).
      { intros count prev inp n. destruct (lo <=? count)%nat; [|discriminate].
        intros H. apply IH in H. eapply List.Forall_impl; [|exact H].
        intros ?. apply allowed_cons. }
      induction inp as [|c inp IHinp]; intros count prev n.
      * apply Hstop.
      * destruct (inClass ci ranges c && belowMax count hi) eqn:Hc; [|apply Hstop].
        match goal with |- context [match ?r with Some _ => _ | None => _ end] =>
          destruct r as [k|] eqn:E end; [|apply Hstop].
        intros [= <-]. simpl. constructor.
        -- unfold allowed; simpl. apply andb_true_iff in Hc as [-> _]. reflexivity.
        -- eapply IHinp. exact E.
Qed.

Lemma prefix_head c p d s : String.prefix (String c p) (String d s) = true -> c = d.
Proof.
  simpl. destruct (Ascii.ascii_dec c d) as [e|]; [auto | discriminate].
Qed.

Lemma includes_head c p s :
  Str.includes (String c p) s = true -> List.In c (JS.chars s).
Proof.
  induction s as [|d s IH]; simpl.
  - discriminate.
  - destruct (Ascii.ascii_dec c d) as [e|ne].
    + intros _. left. auto.
    + simpl. intros H. right. apply IH. exact H.
Qed.

Lemma isValidAddress_spec t :
  isValidAddress t = true ->
  addressLike t /\ isENSName t = false.
Proof.
  unfold isValidAddress.
  destruct (matchAtoms false ethAddress None (JS.chars t)) as [n|] eqn:Hm; [|discriminate].
  intros Hn. apply Nat.eqb_eq in Hn. subst n.
  pose proof (matchAtoms_length _ _ _ _ _ Hm) as [Hlo _].
  pose proof (matchAtoms_maxLen _ _ _ _ _ 42%nat Hm eq_refl) as Hhi.
  change (minLen ethAddress) with 42%nat in Hlo.
  assert (Hlen : String.length t = 42%nat) by lia.
  pose proof (matchAtoms_allowed _ _ _ _ _ Hm) as Hall.
  rewrite <- length_chars, List.firstn_all in Hall.
  split; [split; [exact Hlen|]|].
  - unfold Str.startsWith.
    destruct t as [|c1 [|c2 t]]; try discriminate Hlen.
    simpl in Hm. unfold matchLit, canon in Hm.
    destruct (Ascii.eqb_spec "0" c1) as [<-|]; [|discriminate].
    destruct (Ascii.eqb_spec "x" c2) as [<-|]; [|discriminate].
    simpl. destruct t; reflexivity.
  - unfold isENSName.
    assert (Hdot : ~ List.In "."%char (JS.chars t)).
    { intros Hin. rewrite List.Forall_forall in Hall. apply Hall in Hin.
      vm_compute in Hin. discriminate. }
    destruct (Str.includes ".eth" t) eqn:E1.
    { exfalso. apply Hdot. eapply includes_head. exact E1. }
    destruct (Str.includes ".base.eth" t) eqn:E2.
    { exfalso. apply Hdot. eapply includes_head. exact E2. }
    reflexivity.
Qed.

(** X30.  What the popup looks up.  A blank input changes nothing.  A
    well-formed address (0x and 40 hexadecimal digits, once trimmed and
    lower-cased) is taken as it is, without asking the resolver.  In every
    other case the address looked up afterwards is either one the resolver
    of the background worker answered with, which has 42 characters and
    starts with 0x, or none, and then an error message is shown; the
    resolving indicator is never left on. *)
Theorem popup_lookup net log (p : Popup.Popup) :
  let trimmed := JS.toLowerCase (Str.trim (input p)) in
  let p' := snd (handleLookup (viaBackground net log) p) in
  (JS.truthy trimmed = false -> p' = p)
  /\ (isValidAddress trimmed = true ->
      address p' = Some trimmed /\ inputError p' = None /\ resolving p' = resolving p)
  /\ (JS.truthy trimmed = true ->
      ((exists a, address p' = Some a /\ addressLike a /\ inputError p' = None)
       \/ (address p' = None /\ exists msg, inputError p' = Some msg))
      /\ (resolving p' = true -> resolving p = true /\ isENSName trimmed = false)).
Proof.
  intros trimmed p'. subst p'.
  unfold handleLookup, bind, read, tryCatch, settle, modify, ret.
  cbv beta iota zeta. fold trimmed.
  split; [|split].
  - intros ->. reflexivity.
  - intros Hv. destruct (isValidAddress_spec _ Hv) as [[Hlen Hpre] Hens].
    assert (Ht : JS.truthy trimmed = true).
    { destruct trimmed; [discriminate Hlen | reflexivity]. }
    rewrite Ht, Hens, Hv. cbn. auto.
  - intros Ht. rewrite Ht. cbn [negb].
    destruct (isENSName trimmed) eqn:Hens.
    + destruct (viaBackground_spec net log trimmed) as (r & Hr & Ha).
      rewrite Hr.
      destruct r as [a|].
      * rewrite (addressLike_truthy a) by now apply Ha.
        cbn. split; [|discriminate]. left. exists a. auto.
      * cbn. split; [|discriminate]. right. split; [reflexivity|]. eexists; reflexivity.
    + destruct (isValidAddress trimmed) eqn:Hv.
      * destruct (isValidAddress_spec _ Hv) as [Hlike _].
        cbn. split; [|auto]. left. exists trimmed. auto.
      * cbn. split; [|auto]. right. split; [reflexivity|]. eexists; reflexivity.
Qed.

End PopupFacts.
